(** * Race results extractor: batch orchestration, cache, retry and pattern chains

    A shallow embedding of the server side of the extractor
    ([server/parser.ts], [server/db.ts], [server/routers.ts],
    [drizzle/schema.ts] and the pattern-chain revision of the parser)
    together with the properties of the batch orchestrator, the cache
    lookup, the retry wrapper and the ordered pattern chains.

    Conventions of the embedding:
    - JavaScript strings are byte strings (the UTF-8 encoding of the text);
    - JavaScript numbers that the code produces are integers and are
      modelled in [Z], with [NaN] as a separate value; floating point
      rounding of very long digit strings is not modelled;
    - [async] functions are functions of a state-and-exception monad over
      a [World] (database, clock, browser pages opened, event log); a
      thrown exception keeps the state reached so far; one task runs at
      a time, and the tasks of other jobs are not interleaved;
    - the tables are lists of rows in insertion order, as [schema.ts]
      declares them; a query never fails, and [getDb()] may give [null];
    - the clock is in milliseconds and advances with the timers of the
      code; [setHours(getHours() + 24)] adds 24 hours;
    - what the platform provides ([URL], the regular expression engine,
      the headless browser, [decodeURIComponent], the input validator)
      is a [Runtime] record; general theorems quantify over it;
    - the event log of the world is ghost state: it records timers,
      invocations and the database after each write, so that what
      happened during a run can be stated. *)

From Stdlib Require Import String Ascii List ZArith Lia Bool Arith Sorted.
Import ListNotations.
Local Open Scope string_scope.
Local Open Scope Z_scope.

Set Implicit Arguments.

(* ================================================================= *)
(** ** JavaScript values and string primitives *)

(** The values that flow through the extraction code. *)
Inductive JSVal : Type :=
| JUndefined
| JNull
| JStr (s : string)
| JNum (n : Z)
| JNaN.

(** ECMAScript [ToBoolean]. *)
Definition truthy (v : JSVal) : bool :=
  match v with
  | JUndefined | JNull | JNaN => false
  | JStr s => negb (String.eqb s "")
  | JNum n => negb (n =? 0)
  end.

(** [a || b]. *)
Definition js_or (a b : JSVal) : JSVal := if truthy a then a else b.

Definition bytes_of (s : string) : list ascii := list_ascii_of_string s.
Definition string_of (l : list ascii) : string := string_of_list_ascii l.

Definition code (c : ascii) : Z := Z.of_N (N_of_ascii c).

Fixpoint strip_prefix (p l : list ascii) : option (list ascii) :=
  match p, l with
  | [], _ => Some l
  | a :: p', b :: l' => if Ascii.eqb a b then strip_prefix p' l' else None
  | _ :: _, [] => None
  end.

Definition seq_of_codes (cs : list Z) : list ascii :=
  map (fun z => ascii_of_N (Z.to_N z)) cs.

(** ECMAScript WhiteSpace and LineTerminator code points, each as its
    UTF-8 byte sequence: TAB, LF, VT, FF, CR, SP, U+00A0, U+1680,
    U+2000..U+200A, U+2028, U+2029, U+202F, U+205F, U+3000, U+FEFF. *)
Definition white_space : list (list ascii) :=
  map seq_of_codes
    ([ [9]; [10]; [11]; [12]; [13]; [32]; [194; 160]; [225; 154; 128] ]
     ++ map (fun k => [226; 128; 128 + k]) [0; 1; 2; 3; 4; 5; 6; 7; 8; 9; 10]
     ++ [ [226; 128; 168]; [226; 128; 169]; [226; 128; 175];
          [226; 129; 159]; [227; 128; 128]; [239; 187; 191] ]).

Fixpoint strip_any (tokens : list (list ascii)) (l : list ascii)
  : option (list ascii) :=
  match tokens with
  | [] => None
  | t :: ts =>
      match strip_prefix t l with
      | Some rest => Some rest
      | None => strip_any ts l
      end
  end.

Fixpoint trim_left (tokens : list (list ascii)) (fuel : nat) (l : list ascii)
  : list ascii :=
  match fuel with
  | O => l
  | S f =>
      match strip_any tokens l with
      | Some rest => trim_left tokens f rest
      | None => l
      end
  end.

(** [String.prototype.trim]. *)
Definition trim (s : string) : string :=
  let l := bytes_of s in
  let l1 := trim_left white_space (length l) l in
  let r := rev l1 in
  string_of (rev (trim_left (map (@rev ascii) white_space) (length r) r)).

Definition is_digit (c : ascii) : bool := (48 <=? code c) && (code c <=? 57).

Fixpoint take_digits (l : list ascii) : list ascii :=
  match l with
  | c :: l' => if is_digit c then c :: take_digits l' else []
  | [] => []
  end.

Definition digits_value (ds : list ascii) : Z :=
  fold_left (fun acc c => 10 * acc + (code c - 48)) ds 0.

(** [parseInt(s, 10)]: leading white space, an optional sign, then the
    longest run of decimal digits; [NaN] when there is no digit. *)
Definition parseInt10 (s : string) : JSVal :=
  let l := bytes_of s in
  let l := trim_left white_space (length l) l in
  let '(sign, l) :=
    match l with
    | c :: l' =>
        if Ascii.eqb c "-" then (-1, l')
        else if Ascii.eqb c "+" then (1, l') else (1, l)
    | [] => (1, l)
    end in
  match take_digits l with
  | [] => JNaN
  | ds => JNum (sign * digits_value ds)
  end.

(** [parseInt(v, 10)] on a value: the argument is first converted to a
    string, and neither "undefined" nor "null" starts with a digit. *)
Definition js_parseInt (v : JSVal) : JSVal :=
  match v with
  | JStr s => parseInt10 s
  | JNum n => JNum n
  | JUndefined | JNull | JNaN => JNaN
  end.

Definition of_string (o : option string) : JSVal :=
  match o with Some s => JStr s | None => JNull end.

Definition of_number (o : option Z) : JSVal :=
  match o with Some n => JNum n | None => JNull end.

Fixpoint replace_all_aux (fuel : nat) (pat by_ l : list ascii) : list ascii :=
  match fuel with
  | O => l
  | S f =>
      match strip_prefix pat l with
      | Some rest => by_ ++ replace_all_aux f pat by_ rest
      | None =>
          match l with
          | c :: l' => c :: replace_all_aux f pat by_ l'
          | [] => []
          end
      end
  end.

(** [s.replace(/pat/g, by)] for a pattern that is a non-empty literal. *)
Definition replace_all (pat by_ s : string) : string :=
  string_of (replace_all_aux (S (String.length s)) (bytes_of pat) (bytes_of by_)
                             (bytes_of s)).

Definition lower (c : ascii) : ascii :=
  if (65 <=? code c) && (code c <=? 90)
  then ascii_of_N (Z.to_N (code c + 32)) else c.

Definition lower_string (s : string) : string :=
  string_of (map lower (bytes_of s)).

(* ================================================================= *)
(** ** SHA-256 (the digest behind [hashUrl]) *)

Module SHA256.

Definition w32 : Z := 4294967296.
Definition add32 (a b : Z) : Z := (a + b) mod w32.
Definition rotr (n x : Z) : Z :=
  Z.lor (Z.shiftr x n) (Z.shiftl x (32 - n) mod w32).
Definition shr (n x : Z) : Z := Z.shiftr x n.
Definition xor3 (a b c : Z) : Z := Z.lxor (Z.lxor a b) c.

Definition Ch (x y z : Z) : Z := Z.lxor (Z.land x y) (Z.land (Z.lnot x) z).
Definition Maj (x y z : Z) : Z := xor3 (Z.land x y) (Z.land x z) (Z.land y z).
Definition Sigma0 (x : Z) : Z := xor3 (rotr 2 x) (rotr 13 x) (rotr 22 x).
Definition Sigma1 (x : Z) : Z := xor3 (rotr 6 x) (rotr 11 x) (rotr 25 x).
Definition sigma0 (x : Z) : Z := xor3 (rotr 7 x) (rotr 18 x) (shr 3 x).
Definition sigma1 (x : Z) : Z := xor3 (rotr 17 x) (rotr 19 x) (shr 10 x).

Definition K : list Z :=
  [ 1116352408; 1899447441; 3049323471; 3921009573; 961987163; 1508970993;
    2453635748; 2870763221; 3624381080; 310598401; 607225278; 1426881987;
    1925078388; 2162078206; 2614888103; 3248222580; 3835390401; 4022224774;
    264347078; 604807628; 770255983; 1249150122; 1555081692; 1996064986;
    2554220882; 2821834349; 2952996808; 3210313671; 3336571891; 3584528711;
    113926993; 338241895; 666307205; 773529912; 1294757372; 1396182291;
    1695183700; 1986661051; 2177026350; 2456956037; 2730485921; 2820302411;
    3259730800; 3345764771; 3516065817; 3600352804; 4094571909; 275423344;
    430227734; 506948616; 659060556; 883997877; 958139571; 1322822218;
    1537002063; 1747873779; 1955562222; 2024104815; 2227730452; 2361852424;
    2428436474; 2756734187; 3204031479; 3329325298 ].

Definition H0 : list Z :=
  [ 1779033703; 3144134277; 1013904242; 2773480762;
    1359893119; 2600822924; 528734635; 1541459225 ].

(** Padding: one 0x80 byte, zeros up to 56 mod 64, the bit length on
    eight bytes, big-endian. *)
Definition be_bytes (n : nat) (x : Z) : list Z :=
  map (fun i => Z.shiftr x (8 * Z.of_nat i) mod 256) (rev (seq 0 n)).

Definition pad (msg : list Z) : list Z :=
  let len := Z.of_nat (length msg) in
  let zeros := Z.to_nat ((55 - len) mod 64) in
  msg ++ [128] ++ repeat 0 zeros ++ be_bytes 8 (8 * len).

Fixpoint words (fuel : nat) (bs : list Z) : list Z :=
  match fuel, bs with
  | S f, b0 :: b1 :: b2 :: b3 :: rest =>
      (Z.shiftl b0 24 + Z.shiftl b1 16 + Z.shiftl b2 8 + b3) :: words f rest
  | _, _ => []
  end.

(** Message schedule, kept most recent word first. *)
Fixpoint extend (n : nat) (ws : list Z) : list Z :=
  match n with
  | O => ws
  | S n' =>
      let w := add32 (add32 (sigma1 (nth 1 ws 0)) (nth 6 ws 0))
                     (add32 (sigma0 (nth 14 ws 0)) (nth 15 ws 0)) in
      extend n' (w :: ws)
  end.

Definition schedule (block : list Z) : list Z := rev (extend 48 (rev block)).

Definition round (st : list Z) (kw : Z * Z) : list Z :=
  match st with
  | [a; b; c; d; e; f; g; h] =>
      let t1 := add32 (add32 (add32 h (Sigma1 e)) (add32 (Ch e f g) (fst kw)))
                      (snd kw) in
      let t2 := add32 (Sigma0 a) (Maj a b c) in
      [add32 t1 t2; a; b; c; add32 d t1; e; f; g]
  | _ => st
  end.

Definition compress (h : list Z) (block : list Z) : list Z :=
  let st := fold_left round (combine K (schedule block)) h in
  map (fun p => add32 (fst p) (snd p)) (combine h st).

Fixpoint blocks (fuel : nat) (ws : list Z) (h : list Z) : list Z :=
  match fuel, ws with
  | _, [] => h
  | O, _ => h
  | S f, _ => blocks f (skipn 16 ws) (compress h (firstn 16 ws))
  end.

Definition hex_digit (d : Z) : ascii :=
  ascii_of_N (Z.to_N (if d <? 10 then 48 + d else 87 + d)).

Definition hex32 (x : Z) : list ascii :=
  map (fun i => hex_digit (Z.shiftr x (4 * Z.of_nat i) mod 16)) (rev (seq 0 8)).

(** The digest of the bytes of [s], as 64 lower-case hexadecimal digits. *)
Definition hex (s : string) : string :=
  let bs := pad (map code (bytes_of s)) in
  let ws := words (length bs) bs in
  string_of (flat_map hex32 (blocks (length ws) ws H0)).

End SHA256.

(* ================================================================= *)
(** ** Exceptions, the world and the monad of [async] code *)

(** A JavaScript [Error] object.  The code types every failure it
    handles as [Error] ([lastError: Error | null], [error as Error]). *)
Record Error : Type := mkError { message : string }.

Inductive Outcome (A : Type) : Type :=
| Ok (a : A)
| Throw (e : Error).

Arguments Ok {A} a.
Arguments Throw {A} e.

(* ----------------------------------------------------------------- *)
(** *** Database schema ([drizzle/schema.ts]) *)

Module raceResults.

Inductive Status : Type := completed | pending | error.

Definition Status_eqb (a b : Status) : bool :=
  match a, b with
  | completed, completed | pending, pending | error, error => true
  | _, _ => false
  end.

(** [InsertRaceResult]: the columns a caller may give; columns left out
    of an insert are [NULL] ([jobId], [raceName]). *)
Record Insert : Type := {
  url : string;
  urlHash : string;
  jobId : option string;
  raceName : JSVal;
  name : JSVal;
  category : JSVal;
  finishTime : JSVal;
  bibNumber : JSVal;
  rankOverall : JSVal;
  rankCategory : JSVal;
  pace : JSVal;
  platform : JSVal;
  status : Status;
  errorMessage : option string;
  extractedAt : Z;
  cachedAt : Z;
  expiresAt : Z;
  userId : Z
}.

(** [RaceResult]: a stored row, with its auto-incremented [id]. *)
Record Row : Type := { id : Z; cols : Insert }.

End raceResults.

Coercion raceResults.cols : raceResults.Row >-> raceResults.Insert.

Module processingJobs.

Inductive Status : Type := queued | processing | completed | failed.

(** [InsertProcessingJob]. *)
Record Insert : Type := {
  jobId : string;
  totalUrls : Z;
  processedUrls : Z;
  successCount : Z;
  errorCount : Z;
  status : Status;
  userId : Z
}.

(** [ProcessingJob]. *)
Record Row : Type := {
  id : Z;
  cols : Insert;
  createdAt : Z;
  completedAt : option Z
}.

End processingJobs.

Coercion processingJobs.cols : processingJobs.Row >-> processingJobs.Insert.

(** The [updates] argument of [updateProcessingJob]: every key optional. *)
Module Updates.
Record t : Type := {
  processedUrls : option Z;
  successCount : option Z;
  errorCount : option Z;
  status : option processingJobs.Status;
  completedAt : option Z
}.
End Updates.

Record Db : Type := {
  race_results : list raceResults.Row;
  processing_jobs : list processingJobs.Row
}.

(* ----------------------------------------------------------------- *)
(** *** The world *)

(** Ghost events, in the order they happen. *)
Inductive Event : Type :=
| EvAttempt (failure : option Error)  (* an observed operation returned *)
| EvTimer (ms : Z)                    (* [setTimeout(resolve, ms)] awaited *)
| EvExtract (url : string)            (* [extractRaceResults(url)] entered *)
| EvRender (url : string)             (* a browser page was sent to [url] *)
| EvDb (d : Db).                      (* the database after a write *)

Record World : Type := {
  db : option Db;        (* what [getDb()] returns; [None] for [null] *)
  clock : Z;             (* [new Date()], in milliseconds *)
  sessions : nat;        (* browser pages opened so far *)
  events : list Event
}.

Definition M (A : Type) : Type := World -> Outcome A * World.

Definition ret {A} (a : A) : M A := fun w => (Ok a, w).

Definition bind {A B} (m : M A) (k : A -> M B) : M B :=
  fun w =>
    match m w with
    | (Ok a, w') => k a w'
    | (Throw e, w') => (Throw e, w')
    end.

Definition throw {A} (e : Error) : M A := fun w => (Throw e, w).

(** [try { body } catch (error) { handler }]. *)
Definition try_catch {A} (body : M A) (handler : Error -> M A) : M A :=
  fun w =>
    match body w with
    | (Ok a, w') => (Ok a, w')
    | (Throw e, w') => handler e w'
    end.

Declare Scope async_scope.
Delimit Scope async_scope with async.
Notation "x <- c1 ;; c2" := (bind c1 (fun x => c2))
  (at level 61, c1 at next level, right associativity) : async_scope.
Notation "c1 ;; c2" := (bind c1 (fun _ => c2))
  (at level 61, right associativity) : async_scope.
Local Open Scope async_scope.

Definition log (ev : Event) : M unit :=
  fun w =>
    (Ok tt, {| db := db w; clock := clock w; sessions := sessions w;
               events := events w ++ [ev] |}).

(** [new Date()]. *)
Definition new_Date : M Z := fun w => (Ok (clock w), w).

(** Time passing while the task is suspended. *)
Definition elapse (ms : Z) : M unit :=
  fun w =>
    (Ok tt, {| db := db w; clock := clock w + ms; sessions := sessions w;
               events := events w |}).

(** [await new Promise((resolve) => setTimeout(resolve, delay))]. *)
Definition setTimeout (delay : Z) : M unit :=
  log (EvTimer delay) ;; elapse delay.

(** The instrumentation of an operation whose invocations are counted:
    each return, normal or not, leaves one [EvAttempt] in the log. *)
Definition observed {A} (fn : M A) : M A :=
  fun w =>
    match fn w with
    | (Ok a, w') => (log (EvAttempt None) ;; ret a) w'
    | (Throw e, w') => (log (EvAttempt (Some e)) ;; throw e) w'
    end.

(** A write: the new contents are stored and recorded in the log. *)
Definition commit (d : Db) : M unit :=
  fun w =>
    (Ok tt, {| db := Some d; clock := clock w; sessions := sessions w;
               events := events w ++ [EvDb d] |}).

(* ================================================================= *)
(** ** [server/db.ts] *)

Definition getDb : M (option Db) := fun w => (Ok (db w), w).

Definition limit {A} (n : nat) (rows : list A) : list A := firstn n rows.

Definition getCachedResult (urlHash : string) (userId : Z)
  : M (option raceResults.Row) :=
  d <- getDb ;;
  match d with
  | None => ret None
  | Some d =>
      now <- new_Date ;;
      let results :=
        limit 1
          (filter
             (fun r : raceResults.Row =>
                String.eqb (raceResults.urlHash r) urlHash
                && (raceResults.userId r =? userId)
                && (now <? raceResults.expiresAt r)
                && raceResults.Status_eqb (raceResults.status r)
                     raceResults.completed)
             (race_results d)) in
      ret (match results with r :: _ => Some r | [] => None end)
  end.

Definition next_id {A} (rows : list A) : Z := Z.of_nat (length rows) + 1.

Definition insertRaceResult (result : raceResults.Insert) : M unit :=
  d <- getDb ;;
  match d with
  | None => ret tt
  | Some d =>
      commit
        {| race_results :=
             race_results d
             ++ [ {| raceResults.id := next_id (race_results d);
                     raceResults.cols := result |} ];
           processing_jobs := processing_jobs d |}
  end.

Definition getResultsByJobId (jobId : string) : M (list raceResults.Row) :=
  d <- getDb ;;
  match d with
  | None => ret []
  | Some d =>
      ret (filter
             (fun r : raceResults.Row =>
                match raceResults.jobId r with
                | Some j => String.eqb j jobId
                | None => false
                end)
             (race_results d))
  end.

Definition createProcessingJob (job : processingJobs.Insert) : M unit :=
  d <- getDb ;;
  match d with
  | None => ret tt
  | Some d =>
      now <- new_Date ;;
      commit
        {| race_results := race_results d;
           processing_jobs :=
             processing_jobs d
             ++ [ {| processingJobs.id := next_id (processing_jobs d);
                     processingJobs.cols := job;
                     processingJobs.createdAt := now;
                     processingJobs.completedAt := None |} ] |}
  end.

Definition job_matches (jobId : string) (j : processingJobs.Row) : bool :=
  String.eqb (processingJobs.jobId j) jobId.

Definition getProcessingJob (jobId : string) : M (option processingJobs.Row) :=
  d <- getDb ;;
  match d with
  | None => ret None
  | Some d =>
      let results := limit 1 (filter (job_matches jobId) (processing_jobs d)) in
      ret (match results with j :: _ => Some j | [] => None end)
  end.

Definition or_keep {A} (new : option A) (old : A) : A :=
  match new with Some a => a | None => old end.

(** [.set(updates)] on one row: the keys present replace the columns. *)
Definition apply_updates (u : Updates.t) (j : processingJobs.Row)
  : processingJobs.Row :=
  {| processingJobs.id := processingJobs.id j;
     processingJobs.cols :=
       {| processingJobs.jobId := processingJobs.jobId j;
          processingJobs.totalUrls := processingJobs.totalUrls j;
          processingJobs.processedUrls :=
            or_keep (Updates.processedUrls u) (processingJobs.processedUrls j);
          processingJobs.successCount :=
            or_keep (Updates.successCount u) (processingJobs.successCount j);
          processingJobs.errorCount :=
            or_keep (Updates.errorCount u) (processingJobs.errorCount j);
          processingJobs.status :=
            or_keep (Updates.status u) (processingJobs.status j);
          processingJobs.userId := processingJobs.userId j |};
     processingJobs.createdAt := processingJobs.createdAt j;
     processingJobs.completedAt :=
       match Updates.completedAt u with
       | Some t => Some t
       | None => processingJobs.completedAt j
       end |}.

Definition updateProcessingJob (jobId : string) (updates : Updates.t) : M unit :=
  d <- getDb ;;
  match d with
  | None => ret tt
  | Some d =>
      commit
        {| race_results := race_results d;
           processing_jobs :=
             map (fun j => if job_matches jobId j then apply_updates updates j
                           else j)
                 (processing_jobs d) |}
  end.

Definition getUserResults (userId : Z) (lim : nat) : M (list raceResults.Row) :=
  d <- getDb ;;
  match d with
  | None => ret []
  | Some d =>
      ret (limit lim
             (filter (fun r : raceResults.Row => raceResults.userId r =? userId)
                     (race_results d)))
  end.

(* ----------------------------------------------------------------- *)
(** *** The users table and its two helpers

    The helpers of the sign-in flow read and write the [users] table
    only, so they are functions of that table: [None] when [getDb()]
    gives [null].  [now] is the time of the call and [auto_id] the [id]
    the engine gives to a row it inserts. *)

Module users.

Inductive Role : Type := user | admin.

Definition Role_eqb (a b : Role) : bool :=
  match a, b with
  | user, user | admin, admin => true
  | _, _ => false
  end.

(** [User]: a stored row. *)
Record Row : Type := {
  id : Z;
  openId : string;
  name : option string;
  email : option string;
  loginMethod : option string;
  role : Role;
  createdAt : Z;
  updatedAt : Z;
  lastSignedIn : Z
}.

End users.

(** [InsertUser], as [upsertUser] reads it: a key that is absent or
    [undefined] is [None]; a text column may be given as [null],
    which is [Some None]. *)
Module InsertUser.
Record t : Type := {
  openId : string;
  name : option (option string);
  email : option (option string);
  loginMethod : option (option string);
  role : option users.Role;
  lastSignedIn : option Z
}.
End InsertUser.

(** The [updateSet] object of [upsertUser]: the keys it may hold. *)
Module UpdateSet.
Record t : Type := {
  name : option (option string);
  email : option (option string);
  loginMethod : option (option string);
  lastSignedIn : option Z;
  role : option users.Role
}.

(** [Object.keys(updateSet).length === 0]. *)
Definition is_empty (s : t) : bool :=
  match name s, email s, loginMethod s, lastSignedIn s, role s with
  | None, None, None, None, None => true
  | _, _, _, _, _ => false
  end.
End UpdateSet.

Definition option_eqb {A} (eqb : A -> A -> bool) (a b : option A) : bool :=
  match a, b with
  | Some x, Some y => eqb x y
  | None, None => true
  | _, _ => false
  end.

(** [SET ...] on a stored row.  [updatedAt] is declared [onUpdateNow()]:
    it takes the time of the statement when the statement changes the
    value of another column. *)
Definition set_columns (s : UpdateSet.t) (now : Z) (r : users.Row) : users.Row :=
  let name := or_keep (UpdateSet.name s) (users.name r) in
  let email := or_keep (UpdateSet.email s) (users.email r) in
  let loginMethod := or_keep (UpdateSet.loginMethod s) (users.loginMethod r) in
  let role := or_keep (UpdateSet.role s) (users.role r) in
  let lastSignedIn := or_keep (UpdateSet.lastSignedIn s) (users.lastSignedIn r) in
  let same :=
    option_eqb String.eqb name (users.name r)
    && option_eqb String.eqb email (users.email r)
    && option_eqb String.eqb loginMethod (users.loginMethod r)
    && users.Role_eqb role (users.role r)
    && (lastSignedIn =? users.lastSignedIn r) in
  {| users.id := users.id r;
     users.openId := users.openId r;
     users.name := name;
     users.email := email;
     users.loginMethod := loginMethod;
     users.role := role;
     users.createdAt := users.createdAt r;
     users.updatedAt := if same then users.updatedAt r else now;
     users.lastSignedIn := lastSignedIn |}.

(** The row [INSERT ... VALUES (values)] stores: a column left out takes
    its default ([NULL], ['user'], the time of the statement). *)
Definition inserted_user (values : InsertUser.t) (now auto_id : Z) : users.Row :=
  {| users.id := auto_id;
     users.openId := InsertUser.openId values;
     users.name := or_keep (InsertUser.name values) None;
     users.email := or_keep (InsertUser.email values) None;
     users.loginMethod := or_keep (InsertUser.loginMethod values) None;
     users.role := or_keep (InsertUser.role values) users.user;
     users.createdAt := now;
     users.updatedAt := now;
     users.lastSignedIn := or_keep (InsertUser.lastSignedIn values) now |}.

Definition has_openId (openId : string) (r : users.Row) : bool :=
  String.eqb (users.openId r) openId.

(** [db.insert(users).values(values).onDuplicateKeyUpdate({ set })]:
    [openId] is the unique key of the table; the row that holds the
    [openId] of [values] is updated, and without one a row is inserted. *)
Definition insert_on_duplicate (values : InsertUser.t) (set : UpdateSet.t)
  (now auto_id : Z) (rows : list users.Row) : list users.Row :=
  if existsb (has_openId (InsertUser.openId values)) rows
  then map (fun r => if has_openId (InsertUser.openId values) r
                     then set_columns set now r else r) rows
  else rows ++ [inserted_user values now auto_id].

Definition upsertUser (ownerOpenId : string) (now auto_id : Z)
  (user : InsertUser.t) (table : option (list users.Row))
  : Outcome (option (list users.Row)) :=
  if String.eqb (InsertUser.openId user) "" then
    Throw (mkError "User openId is required for upsert")
  else
    match table with
    | None => Ok None
    | Some rows =>
        let role :=
          match InsertUser.role user with
          | Some r => Some r
          | None =>
              if String.eqb (InsertUser.openId user) ownerOpenId
              then Some users.admin else None
          end in
        let values :=
          {| InsertUser.openId := InsertUser.openId user;
             InsertUser.name := InsertUser.name user;
             InsertUser.email := InsertUser.email user;
             InsertUser.loginMethod := InsertUser.loginMethod user;
             InsertUser.role := role;
             InsertUser.lastSignedIn :=
               Some (or_keep (InsertUser.lastSignedIn user) now) |} in
        let updateSet :=
          {| UpdateSet.name := InsertUser.name user;
             UpdateSet.email := InsertUser.email user;
             UpdateSet.loginMethod := InsertUser.loginMethod user;
             UpdateSet.lastSignedIn := InsertUser.lastSignedIn user;
             UpdateSet.role := role |} in
        let updateSet :=
          if UpdateSet.is_empty updateSet
          then {| UpdateSet.name := None; UpdateSet.email := None;
                  UpdateSet.loginMethod := None;
                  UpdateSet.lastSignedIn := Some now;
                  UpdateSet.role := None |}
          else updateSet in
        Ok (Some (insert_on_duplicate values updateSet now auto_id rows))
    end.

Definition getUserByOpenId (openId : string) (table : option (list users.Row))
  : option users.Row :=
  match table with
  | None => None
  | Some rows =>
      match limit 1 (filter (has_openId openId) rows) with
      | r :: _ => Some r
      | [] => None
      end
  end.

(* ================================================================= *)
(** ** What the platform provides *)

(** A rendered page, as the extraction code reads it. *)
Record Page : Type := {
  page_url : string;                              (* [page.url()] *)
  innerText : string;                             (* [document.body.innerText] *)
  textContent : string -> option (option string)  (* [page.$(sel)] then [textContent()] *)
}.

(** A regular expression literal [/source/flags]. *)
Record RegExp : Type := re { source : string; flags : string }.

Record Runtime : Type := {
  (** [new URL(u).href]; [None] when the constructor throws. *)
  URL_href : string -> option string;
  (** [text.match(pattern)] for a pattern without the [g] flag: [None]
      for [null], else the match array (the match, then each capture
      group, [None] for a group that did not take part). *)
  regex_exec : RegExp -> string -> option (list (option string));
  (** The headless browser: what the [n]-th page opened gives when it is
      sent to a URL and read, or the failure of that navigation. *)
  open_page : nat -> string -> Outcome Page;
  (** [decodeURIComponent]; [None] when it throws [URIError]. *)
  decodeURIComponent : string -> option string;
  (** The [z.string().url()] check of the request schema. *)
  z_string_url : string -> bool
}.

Module RaceResultData.
(** [RaceResultData], also used for [Partial<RaceResultData>]: a key that
    is absent reads as [JUndefined]. *)
Record t : Type := {
  raceName : JSVal;
  name : JSVal;
  category : JSVal;
  finishTime : JSVal;
  bibNumber : JSVal;
  rankOverall : JSVal;
  rankCategory : JSVal;
  pace : JSVal;
  platform : JSVal
}.

(** The object literal [{}]. *)
Definition empty : t :=
  {| raceName := JUndefined; name := JUndefined; category := JUndefined;
     finishTime := JUndefined; bibNumber := JUndefined;
     rankOverall := JUndefined; rankCategory := JUndefined;
     pace := JUndefined; platform := JUndefined |}.

(** [(result as any)[key] = v]. *)
Definition set (key : string) (v : JSVal) (r : t) : t :=
  {| raceName := if String.eqb key "raceName" then v else raceName r;
     name := if String.eqb key "name" then v else name r;
     category := if String.eqb key "category" then v else category r;
     finishTime := if String.eqb key "finishTime" then v else finishTime r;
     bibNumber := if String.eqb key "bibNumber" then v else bibNumber r;
     rankOverall := if String.eqb key "rankOverall" then v else rankOverall r;
     rankCategory := if String.eqb key "rankCategory" then v else rankCategory r;
     pace := if String.eqb key "pace" then v else pace r;
     platform := if String.eqb key "platform" then v else platform r |}.
End RaceResultData.

Module ParserConfig.
Record t : Type := {
  name : string;
  urlPattern : RegExp;
  selectors : list (string * string);   (* [Object.entries(selectors)] *)
  extractionLogic : option (Page -> M RaceResultData.t)
}.
End ParserConfig.

Section Platform.

Variable rt : Runtime.

(** [text.match(pattern)]. *)
Definition String_match (text : string) (pattern : RegExp)
  : option (list (option string)) :=
  regex_exec rt pattern text.

(** [pattern.test(text)]. *)
Definition RegExp_test (pattern : RegExp) (text : string) : bool :=
  match regex_exec rt pattern text with Some _ => true | None => false end.

(** [match[group]]. *)
Definition group_of (m : list (option string)) (group : nat) : option string :=
  nth group m None.

(** [if (m) x = m[1].trim()] inside [try]/[catch]: a missing group makes
    [trim] throw, the handler logs, and [x] keeps its [null]. *)
Definition first_group_trimmed (m : option (list (option string))) : JSVal :=
  match m with
  | Some g => match group_of g 1 with Some s => JStr (trim s) | None => JNull end
  | None => JNull
  end.

(** [if (m) x = m[1]]. *)
Definition first_group (m : option (list (option string))) : JSVal :=
  match m with
  | Some g => match group_of g 1 with Some s => JStr s | None => JUndefined end
  | None => JNull
  end.

(** [if (m) x = parseInt(m[1], 10)]. *)
Definition first_group_int (m : option (list (option string))) : JSVal :=
  match m with
  | Some g =>
      js_parseInt (match group_of g 1 with Some s => JStr s | None => JUndefined end)
  | None => JNull
  end.

(* ================================================================= *)
(** ** [server/parser.ts] *)

(** What the extraction logic of the one registered profile reads off
    the text of the page. *)
Definition read_sports_timing_solutions (page : Page) : RaceResultData.t :=
  let bodyText := innerText page in
  let name := first_group_trimmed (String_match bodyText
    (re "Share[\s\n]+(?:RS[\s\n]+)?([A-Z][a-z]+(?:\s+[A-Z](?:[a-z]+)?)*)\s+BIB\s+No" "i")) in
  let bibNumber := first_group (String_match bodyText
    (re "BIB\s+No[:\s]+(\d+)" "i")) in
  let finishTime := first_group (String_match bodyText
    (re "Finish\s+Time[:\s]+(\d{1,2}:\d{2}:\d{2})" "i")) in
  let category := first_group_trimmed (String_match bodyText
    (re "Rank[\s\S]{0,300}\n(\d{1,2}\s+yrs\s+&\s+Above\s+(?:Male|Female))" "")) in
  let rankOverall := first_group_int (String_match bodyText
    (re "Overall[:\s]+(\d+)[\s]+OF" "i")) in
  let rankCategory := first_group_int (String_match bodyText
    (re "\d+\s+yrs\s+&\s+Above\s+(?:Male|Female)[\s\n]+(\d+)[\s]+OF\s+(\d+)" "i")) in
  let pace := first_group (String_match bodyText
    (re "Chip\s+Pace\s*\(min\/km\)[:\s]+(\d{1,2}:\d{2}:\d{2})" "i")) in
  {| RaceResultData.raceName := JUndefined;
     RaceResultData.name := name;
     RaceResultData.category := category;
     RaceResultData.finishTime := finishTime;
     RaceResultData.bibNumber := bibNumber;
     RaceResultData.rankOverall := rankOverall;
     RaceResultData.rankCategory := rankCategory;
     RaceResultData.pace := pace;
     RaceResultData.platform := JUndefined |}.

(** The one registered profile: its logic waits three seconds
    ([page.waitForTimeout(3000)]) and reads the page. *)
Definition sports_timing_solutions : ParserConfig.t :=
  {| ParserConfig.name := "Sports Timing Solutions";
     ParserConfig.urlPattern := re "sportstimingsolutions\.in" "i";
     ParserConfig.selectors := [];
     ParserConfig.extractionLogic := Some (fun page =>
       elapse 3000 ;; ret (read_sports_timing_solutions page)) |}.

Definition PARSERS : list ParserConfig.t := [ sports_timing_solutions ].

Definition detect_in (parsers : list ParserConfig.t) (url : string)
  : option ParserConfig.t :=
  find (fun parser => RegExp_test (ParserConfig.urlPattern parser) url) parsers.

Definition detectPlatform (url : string) : option ParserConfig.t :=
  detect_in PARSERS url.

(** [chromium.launch], [browser.newPage] and [page.goto]: one more
    browser page is used, and the runtime says what it shows. *)
Definition goto (url : string) : M Page :=
  log (EvRender url) ;;
  fun w =>
    (open_page rt (sessions w) url,
     {| db := db w; clock := clock w; sessions := S (sessions w);
        events := events w |}).

(** The selector-based fallback of [extractRaceResults]: for every entry
    with a non-empty selector whose element exists,
    [result[key] = text?.trim() || null]. *)
Fixpoint by_selectors (page : Page) (entries : list (string * string))
  (result : RaceResultData.t) : RaceResultData.t :=
  match entries with
  | [] => result
  | (key, selector) :: rest =>
      let result' :=
        if String.eqb selector "" then result
        else
          match textContent page selector with
          | None => result
          | Some text =>
              RaceResultData.set key
                (js_or (match text with Some s => JStr (trim s) | None => JUndefined end)
                       JNull)
                result
          end in
      by_selectors page rest result'
  end.

Definition extractRaceResults (url : string) : M RaceResultData.t :=
  log (EvExtract url) ;;
  match detectPlatform url with
  | None => throw (mkError ("Unsupported race timing platform: " ++ url))
  | Some parser =>
      page <- goto url ;;
      result <-
        match ParserConfig.extractionLogic parser with
        | Some logic => logic page
        | None => ret (by_selectors page (ParserConfig.selectors parser)
                                    RaceResultData.empty)
        end ;;
      ret {| RaceResultData.raceName := JUndefined;
             RaceResultData.name := js_or (RaceResultData.name result) JNull;
             RaceResultData.category := js_or (RaceResultData.category result) JNull;
             RaceResultData.finishTime := js_or (RaceResultData.finishTime result) JNull;
             RaceResultData.bibNumber := js_or (RaceResultData.bibNumber result) JNull;
             RaceResultData.rankOverall := js_or (RaceResultData.rankOverall result) JNull;
             RaceResultData.rankCategory := js_or (RaceResultData.rankCategory result) JNull;
             RaceResultData.pace := js_or (RaceResultData.pace result) JNull;
             RaceResultData.platform := JStr (ParserConfig.name parser) |}
  end.

(** [SHA256(url).toString()]. *)
Definition hashUrl (url : string) : string := SHA256.hex url.

Definition normalizeUrl (url : string) : M string :=
  match URL_href rt url with
  | Some href => ret href
  | None => throw (mkError ("Invalid URL: " ++ url))
  end.

(** The [for] loop of [retryWithBackoff], with the iterations left to
    run, the loop variable and [lastError]. *)
Fixpoint retry_loop {T} (fn : M T) (maxRetries initialDelay : Z)
  (iterations : nat) (attempt : Z) (lastError : option Error) : M T :=
  match iterations with
  | O =>
      throw (match lastError with
             | Some e => e
             | None => mkError "Max retries exceeded"
             end)
  | S rest =>
      try_catch fn (fun error =>
        (if attempt <? maxRetries - 1
         then setTimeout (initialDelay * 2 ^ attempt)
         else ret tt) ;;
        retry_loop fn maxRetries initialDelay rest (attempt + 1) (Some error))
  end.

Definition retryWithBackoff {T} (fn : M T) (maxRetries initialDelay : Z) : M T :=
  retry_loop fn maxRetries initialDelay (Z.to_nat maxRetries) 0 None.

End Platform.

(* ================================================================= *)
(** ** The pattern-chain revision of the parser

    The later revision of [parser.ts] replaces the single pattern per
    field by an ordered chain tried by [matchFirst], registers three
    profiles and extracts a race name. *)

Module Chains.
Section Chains.

Variable rt : Runtime.

(** Try multiple regex patterns and return the first match's capture group. *)
Fixpoint matchFirst (text : string) (patterns : list RegExp) (group : nat)
  : option string :=
  match patterns with
  | [] => None
  | pattern :: rest =>
      match String_match rt text pattern with
      | Some m =>
          match group_of m group with
          | Some s =>
              if negb (String.eqb s "") then Some (trim s)
              else matchFirst text rest group
          | None => matchFirst text rest group
          end
      | None => matchFirst text rest group
      end
  end.

(** The same, with the capture group as a number. *)
Definition matchFirstInt (text : string) (patterns : list RegExp) (group : nat)
  : option Z :=
  match matchFirst text patterns group with
  | Some value =>
      if negb (String.eqb value "") then
        match parseInt10 value with
        | JNum parsed => Some parsed
        | _ => None
        end
      else None
  | None => None
  end.

Definition chain (text : string) (patterns : list RegExp) : JSVal :=
  of_string (matchFirst text patterns 1).

Definition chain_int (text : string) (patterns : list RegExp) : JSVal :=
  of_number (matchFirstInt text patterns 1).

Definition partial (raceName name category finishTime bibNumber rankOverall
                    rankCategory pace : JSVal) : RaceResultData.t :=
  {| RaceResultData.raceName := raceName;
     RaceResultData.name := name;
     RaceResultData.category := category;
     RaceResultData.finishTime := finishTime;
     RaceResultData.bibNumber := bibNumber;
     RaceResultData.rankOverall := rankOverall;
     RaceResultData.rankCategory := rankCategory;
     RaceResultData.pace := pace;
     RaceResultData.platform := JUndefined |}.

Definition sports_timing_solutions : ParserConfig.t :=
  {| ParserConfig.name := "Sports Timing Solutions";
     ParserConfig.urlPattern := re "sportstimingsolutions\.in" "i";
     ParserConfig.selectors := [];
     ParserConfig.extractionLogic := Some (fun page =>
       elapse 3000 ;;
       let bodyText := innerText page in
       let raceName := chain bodyText
         [ re "^([^\n]+(?:Marathon|Run|Race|Half Marathon|10K|5K|Ultra)[^\n]*)" "im";
           re "^([^\n]{5,80})\n" "m" ] in
       let name := chain bodyText
         [ re "Share[\s\n]+(?:RS[\s\n]+)?([A-Z][a-z]+(?:\s+[A-Z](?:[a-z]+)?)*)\s+BIB\s+No" "i";
           re "Share[\s\n]+([A-Za-z][A-Za-z\s]+?)\s*\n.*BIB" "i";
           re "([A-Z][a-z]+(?:\s+[A-Z][a-z]+)+)\s+BIB" "i" ] in
       let bibNumber := chain bodyText
         [ re "BIB\s+No[:\s]+(\d+)" "i";
           re "BIB[:\s#]+(\d+)" "i" ] in
       let finishTime := chain bodyText
         [ re "Finish\s+Time[:\s]+(\d{1,2}:\d{2}:\d{2})" "i";
           re "Chip\s+Time[:\s]+(\d{1,2}:\d{2}:\d{2})" "i";
           re "Gun\s+Time[:\s]+(\d{1,2}:\d{2}:\d{2})" "i";
           re "Net\s+Time[:\s]+(\d{1,2}:\d{2}:\d{2})" "i" ] in
       let category := chain bodyText
         [ re "Rank[\s\S]{0,300}\n(\d{1,2}\s+yrs\s+&\s+Above\s+(?:Male|Female))" "";
           re "(\d{1,2}\s*-\s*\d{1,2}\s+(?:Male|Female))" "i";
           re "Category[:\s]+([^\n]+)" "i" ] in
       let rankOverall := chain_int bodyText
         [ re "Overall[:\s]+(\d+)[\s]+OF" "i";
           re "Overall[:\s]+(\d+)\s*\/\s*\d+" "i" ] in
       let rankCategory := chain_int bodyText
         [ re "\d+\s+yrs\s+&\s+Above\s+(?:Male|Female)[\s\n]+(\d+)[\s]+OF\s+(\d+)" "i";
           re "Category[\s\S]{0,100}(\d+)[\s]+OF\s+\d+" "i" ] in
       let pace := chain bodyText
         [ re "Chip\s+Pace\s*\(min\/km\)[:\s]+(\d{1,2}:\d{2}(?::\d{2})?)" "i";
           re "Pace\s*\(min\/km\)[:\s]+(\d{1,2}:\d{2}(?::\d{2})?)" "i";
           re "Avg\.?\s+Pace[:\s]+(\d{1,2}:\d{2}(?::\d{2})?)" "i" ] in
       ret (partial raceName name category finishTime bibNumber rankOverall
                    rankCategory pace)) |}.

Definition my_race_india : ParserConfig.t :=
  {| ParserConfig.name := "MyRaceIndia";
     ParserConfig.urlPattern := re "myraceindia\.com" "i";
     ParserConfig.selectors := [];
     ParserConfig.extractionLogic := Some (fun page =>
       elapse 3000 ;;
       let bodyText := innerText page in
       let fromPath :=
         match String_match rt (page_url page) (re "\/individuals\/([^\/]+)\/" "") with
         | Some pathMatch =>
             match group_of pathMatch 1 with
             | Some s =>
                 of_string (decodeURIComponent rt
                              (replace_all "-" " " (replace_all "%20" " " s)))
             | None => JNull
             end
         | None => JNull
         end in
       let raceName :=
         if truthy fromPath then fromPath
         else chain bodyText
           [ re "^([^\n]+(?:Marathon|Run|Race|Half Marathon|10K|5K|Ultra)[^\n]*)" "im" ] in
       let name := chain bodyText
         [ re "Overall Results[\s\S]{0,200}\n([A-Z][A-Z\s]+)\n(?:MALE|FEMALE)" "i";
           re "([A-Z][A-Z\s]{2,})\n(?:MALE|FEMALE)" "i";
           re "Name[:\s]+([A-Za-z][A-Za-z\s]+)" "i" ] in
       let bibNumber := chain bodyText
         [ re "(?:10|5|21(?:\.1)?|42(?:\.2)?)\s*KM\s+(\d+)" "i";
           re "BIB[:\s#]*(\d+)" "i";
           re "Bib\s+No\.?[:\s]+(\d+)" "i" ] in
       let category := chain bodyText
         [ re "AG\s*:\s*([^\n]+)" "i";
           re "Age\s+Group[:\s]+([^\n]+)" "i";
           re "Category[:\s]+([^\n]+)" "i" ] in
       let finishTime := chain bodyText
         [ re "NET\s+TIME\s+(\d{1,2}:\d{2}:\d{2})" "i";
           re "CHIP\s+TIME\s+(\d{1,2}:\d{2}:\d{2})" "i";
           re "GUN\s+TIME\s+(\d{1,2}:\d{2}:\d{2})" "i";
           re "Finish\s+Time[:\s]+(\d{1,2}:\d{2}:\d{2})" "i" ] in
       let rankOverall := chain_int bodyText
         [ re "(\d+)\s*\/\s*\d+\s*Overall" "i";
           re "Overall\s+Rank[:\s]+(\d+)" "i";
           re "Overall[:\s]+(\d+)\s*\/\s*\d+" "i" ] in
       let rankCategory := chain_int bodyText
         [ re "(\d+)\s*\/\s*\d+\s*AG\s+RANK" "i";
           re "AG\s+RANK[:\s]+(\d+)" "i";
           re "Category\s+Rank[:\s]+(\d+)" "i" ] in
       let pace := chain bodyText
         [ re "PACE\s*\(?MIN\/KM\)?\s+(\d{1,2}:\d{2})" "i";
           re "Avg\.?\s+Pace[:\s]+(\d{1,2}:\d{2})" "i";
           re "Pace[:\s]+(\d{1,2}:\d{2})" "i" ] in
       ret (partial raceName name category finishTime bibNumber rankOverall
                    rankCategory pace)) |}.

Definition ifinish : ParserConfig.t :=
  {| ParserConfig.name := "iFinish";
     ParserConfig.urlPattern := re "ifinish\.in" "i";
     ParserConfig.selectors := [];
     ParserConfig.extractionLogic := Some (fun page =>
       elapse 3000 ;;
       let bodyText := innerText page in
       let raceName := chain bodyText
         [ re "^([^~\n]+(?:Marathon|Run|Race|Half Marathon|10K|5K|Ultra)[^~\n]*)" "im";
           re "^([^~\n]{5,80})\n" "m" ] in
       let name := chain bodyText
         [ re "~\s+([A-Z][A-Z\s]+)\s+BIB#" "i";
           re "([A-Z][A-Z\s]{2,})\s+BIB" "i";
           re "Name[:\s]+([A-Za-z][A-Za-z\s]+)" "i" ] in
       let bibNumber := chain bodyText
         [ re "BIB#\s*(\d+)" "i";
           re "BIB[:\s#]+(\d+)" "i" ] in
       let category := chain bodyText
         [ re "(?:Open|Elite)\s+[-–]?\s*Category\s+[-–]\s+([^\n]+)" "i";
           re "Category[:\s]+([^\n]+)" "i" ] in
       let finishTime := chain bodyText
         [ re "Net\s+Time\s+(\d{1,2}:\d{2}:\d{2})" "i";
           re "Chip\s+Time\s+(\d{1,2}:\d{2}:\d{2})" "i";
           re "Finish\s+Time\s+(\d{1,2}:\d{2}:\d{2})" "i";
           re "Gun\s+Time\s+(\d{1,2}:\d{2}:\d{2})" "i" ] in
       let rankOverall := chain_int bodyText
         [ re "Overall\s+Rank\s+(\d+)\s*\/\s*\d+" "i";
           re "Overall[:\s]+(\d+)\s*\/\s*\d+" "i" ] in
       let rankCategory := chain_int bodyText
         [ re "Category\s+Rank\s+(\d+)\s*\/\s*\d+" "i";
           re "Cat\.?\s+Rank[:\s]+(\d+)" "i" ] in
       let pace := chain bodyText
         [ re "Net\s+Pace\s+\(min\/km\)\s+(\d{1,2}:\d{2})" "i";
           re "Pace\s*\(min\/km\)\s+(\d{1,2}:\d{2})" "i";
           re "Avg\.?\s+Pace[:\s]+(\d{1,2}:\d{2})" "i" ] in
       ret (partial raceName name category finishTime bibNumber rankOverall
                    rankCategory pace)) |}.

Definition PARSERS : list ParserConfig.t :=
  [ sports_timing_solutions; my_race_india; ifinish ].

Definition detectPlatform (url : string) : option ParserConfig.t :=
  detect_in rt PARSERS url.

Definition extractRaceResults (url : string) : M RaceResultData.t :=
  log (EvExtract url) ;;
  match detectPlatform url with
  | None => throw (mkError ("Unsupported race timing platform: " ++ url))
  | Some parser =>
      page <- goto rt url ;;
      elapse 2000 ;;
      result <-
        match ParserConfig.extractionLogic parser with
        | Some logic => logic page
        | None => ret (by_selectors page (ParserConfig.selectors parser)
                                    RaceResultData.empty)
        end ;;
      ret {| RaceResultData.raceName := js_or (RaceResultData.raceName result) JNull;
             RaceResultData.name := js_or (RaceResultData.name result) JNull;
             RaceResultData.category := js_or (RaceResultData.category result) JNull;
             RaceResultData.finishTime := js_or (RaceResultData.finishTime result) JNull;
             RaceResultData.bibNumber := js_or (RaceResultData.bibNumber result) JNull;
             RaceResultData.rankOverall := js_or (RaceResultData.rankOverall result) JNull;
             RaceResultData.rankCategory := js_or (RaceResultData.rankCategory result) JNull;
             RaceResultData.pace := js_or (RaceResultData.pace result) JNull;
             RaceResultData.platform := JStr (ParserConfig.name parser) |}
  end.

End Chains.
End Chains.

(* ================================================================= *)
(** ** [server/routers.ts] *)

(** The local counters of [processUrls]. *)
Record Counters : Type := {
  processedCount : Z;
  successCount : Z;
  errorCount : Z
}.

(** [let processedCount = 0; let successCount = 0; let errorCount = 0]. *)
Definition zero : Counters :=
  {| processedCount := 0; successCount := 0; errorCount := 0 |}.

(** What [extractResults] answers. *)
Record Submitted : Type := {
  submitted_jobId : string;
  submitted_status : processingJobs.Status;
  submitted_totalUrls : Z
}.

Section Routers.

Variable rt : Runtime.

Definition counter_updates (c : Counters) : Updates.t :=
  {| Updates.processedUrls := Some (processedCount c);
     Updates.successCount := Some (successCount c);
     Updates.errorCount := Some (errorCount c);
     Updates.status := None;
     Updates.completedAt := None |}.

Definition hours_24 : Z := 24 * 60 * 60 * 1000.

(** The row written after a successful extraction. *)
Definition completed_row (normalizedUrl urlHash : string)
  (data : RaceResultData.t) (now : Z) (userId : Z) : raceResults.Insert :=
  {| raceResults.url := normalizedUrl;
     raceResults.urlHash := urlHash;
     raceResults.jobId := None;
     raceResults.raceName := JNull;
     raceResults.name := RaceResultData.name data;
     raceResults.category := RaceResultData.category data;
     raceResults.finishTime := RaceResultData.finishTime data;
     raceResults.bibNumber := RaceResultData.bibNumber data;
     raceResults.rankOverall := RaceResultData.rankOverall data;
     raceResults.rankCategory := RaceResultData.rankCategory data;
     raceResults.pace := RaceResultData.pace data;
     raceResults.platform := RaceResultData.platform data;
     raceResults.status := raceResults.completed;
     raceResults.errorMessage := None;
     raceResults.extractedAt := now;
     raceResults.cachedAt := now;
     raceResults.expiresAt := now + hours_24;
     raceResults.userId := userId |}.

(** The row written by the [catch] block. *)
Definition error_row (normalizedUrl urlHash : string) (errorMessage : string)
  (now : Z) (userId : Z) : raceResults.Insert :=
  {| raceResults.url := normalizedUrl;
     raceResults.urlHash := urlHash;
     raceResults.jobId := None;
     raceResults.raceName := JNull;
     raceResults.name := JNull;
     raceResults.category := JNull;
     raceResults.finishTime := JNull;
     raceResults.bibNumber := JNull;
     raceResults.rankOverall := JNull;
     raceResults.rankCategory := JNull;
     raceResults.pace := JNull;
     raceResults.platform := JStr "unknown";
     raceResults.status := raceResults.error;
     raceResults.errorMessage := Some errorMessage;
     raceResults.extractedAt := now;
     raceResults.cachedAt := now;
     raceResults.expiresAt := now + hours_24;
     raceResults.userId := userId |}.

(** How one round of the [for] loop leaves its [try] statement: through
    [continue], or by falling through to the statements after it. *)
Inductive Flow : Type := Continue | FallThrough.

(** The [try] block of the loop body. *)
Definition try_block (jobId : string) (userId : Z) (url : string) (c : Counters)
  : M (Counters * Flow) :=
  normalizedUrl <- normalizeUrl rt url ;;
  let urlHash := hashUrl normalizedUrl in
  cached <- getCachedResult urlHash userId ;;
  match cached with
  | Some _ =>
      let c :=
        {| processedCount := processedCount c + 1;
           successCount := successCount c + 1;
           errorCount := errorCount c |} in
      updateProcessingJob jobId (counter_updates c) ;;
      ret (c, Continue)
  | None =>
      data <- retryWithBackoff (extractRaceResults rt normalizedUrl) 3 1000 ;;
      now <- new_Date ;;
      insertRaceResult (completed_row normalizedUrl urlHash data now userId) ;;
      ret ({| processedCount := processedCount c;
              successCount := successCount c + 1;
              errorCount := errorCount c |}, FallThrough)
  end.

(** The [catch] block of the loop body. *)
Definition catch_block (userId : Z) (url : string) (c : Counters) (error : Error)
  : M (Counters * Flow) :=
  normalizedUrl <- normalizeUrl rt url ;;
  let urlHash := hashUrl normalizedUrl in
  let errorMessage := message error in
  now <- new_Date ;;
  insertRaceResult (error_row normalizedUrl urlHash errorMessage now userId) ;;
  ret ({| processedCount := processedCount c;
          successCount := successCount c;
          errorCount := errorCount c + 1 |}, FallThrough).

(** One round of the [for (const url of urls)] loop. *)
Definition process_url (jobId : string) (userId : Z) (url : string) (c : Counters)
  : M Counters :=
  r <- try_catch (try_block jobId userId url c) (catch_block userId url c) ;;
  match r with
  | (c, Continue) => ret c
  | (c, FallThrough) =>
      let c :=
        {| processedCount := processedCount c + 1;
           successCount := successCount c;
           errorCount := errorCount c |} in
      updateProcessingJob jobId (counter_updates c) ;;
      ret c
  end.

Fixpoint for_each_url (jobId : string) (userId : Z) (urls : list string)
  (c : Counters) : M Counters :=
  match urls with
  | [] => ret c
  | url :: rest =>
      c <- process_url jobId userId url c ;;
      for_each_url jobId userId rest c
  end.

(** [{ status: "processing" }]. *)
Definition mark_processing : Updates.t :=
  {| Updates.processedUrls := None; Updates.successCount := None;
     Updates.errorCount := None;
     Updates.status := Some processingJobs.processing;
     Updates.completedAt := None |}.

(** [{ status: "completed", completedAt: new Date() }]. *)
Definition mark_completed (now : Z) : Updates.t :=
  {| Updates.processedUrls := None; Updates.successCount := None;
     Updates.errorCount := None;
     Updates.status := Some processingJobs.completed;
     Updates.completedAt := Some now |}.

(** Background processing function for URLs. *)
Definition processUrls (urls : list string) (jobId : string) (userId : Z)
  : M unit :=
  updateProcessingJob jobId mark_processing ;;
  _ <- for_each_url jobId userId urls zero ;;
  now <- new_Date ;;
  updateProcessingJob jobId (mark_completed now).

(** The row [extractResults] creates for a batch. *)
Definition new_job (urls : list string) (userId : Z) (jobId : string)
  : processingJobs.Insert :=
  {| processingJobs.jobId := jobId;
     processingJobs.totalUrls := Z.of_nat (length urls);
     processingJobs.processedUrls := 0;
     processingJobs.successCount := 0;
     processingJobs.errorCount := 0;
     processingJobs.status := processingJobs.queued;
     processingJobs.userId := userId |}.

(** The input schema [z.array(z.string().url()).min(1).max(100)]. *)
Definition input_ok (urls : list string) : bool :=
  forallb (z_string_url rt) urls
  && (1 <=? length urls)%nat && (length urls <=? 100)%nat.

(** The [extractResults] mutation, up to the point where it answers;
    [jobId] is the value of [nanoid()].  An input that the schema
    refuses never reaches the handler: the procedure fails with the
    validation error of the framework, whose code is [BAD_REQUEST]. *)
Definition extractResults (urls : list string) (userId : Z) (jobId : string)
  : M Submitted :=
  if input_ok urls then
    createProcessingJob (new_job urls userId jobId) ;;
    ret {| submitted_jobId := jobId;
           submitted_status := processingJobs.queued;
           submitted_totalUrls := Z.of_nat (length urls) |}
  else throw (mkError "BAD_REQUEST").

(** The task [extractResults] starts and does not wait for:
    [processUrls(urls, jobId, userId).catch(...)]. *)
Definition background (urls : list string) (jobId : string) (userId : Z)
  : M unit :=
  try_catch (processUrls urls jobId userId) (fun _ => ret tt).

(** A submission followed by its background task, run to its end. *)
Definition submit_and_process (urls : list string) (userId : Z) (jobId : string)
  : M Submitted :=
  answer <- extractResults urls userId jobId ;;
  background urls jobId userId ;;
  ret answer.

(** The life of a job once its batch has been accepted: the row is
    created, then the background task runs. *)
Definition job_run (urls : list string) (userId : Z) (jobId : string) : M unit :=
  createProcessingJob (new_job urls userId jobId) ;;
  processUrls urls jobId userId.

(** The guard shared by [getJobStatus], [getResults] and [exportResults]. *)
Definition owned_job (jobId : string) (userId : Z) : M processingJobs.Row :=
  job <- getProcessingJob jobId ;;
  match job with
  | None => throw (mkError "Job not found")
  | Some job =>
      if negb (processingJobs.userId job =? userId)
      then throw (mkError "Unauthorized")
      else ret job
  end.

Definition getJobStatus (jobId : string) (userId : Z) : M processingJobs.Row :=
  owned_job jobId userId.

Definition getResults (jobId : string) (userId : Z) : M (list raceResults.Row) :=
  _ <- owned_job jobId userId ;;
  getResultsByJobId jobId.

End Routers.

(* ----------------------------------------------------------------- *)
(** *** The other procedures of the [raceResults] router *)

(** The object [getResults] and [getUserResults] make of a row. *)
Module ResultView.
Record t : Type := {
  id : Z;
  url : string;
  name : JSVal;
  category : JSVal;
  finishTime : JSVal;
  bibNumber : JSVal;
  rankOverall : JSVal;
  rankCategory : JSVal;
  pace : JSVal;
  platform : JSVal;
  status : raceResults.Status;
  errorMessage : option string;
  extractedAt : Z
}.

Definition of_row (r : raceResults.Row) : t :=
  {| id := raceResults.id r;
     url := raceResults.url r;
     name := raceResults.name r;
     category := raceResults.category r;
     finishTime := raceResults.finishTime r;
     bibNumber := raceResults.bibNumber r;
     rankOverall := raceResults.rankOverall r;
     rankCategory := raceResults.rankCategory r;
     pace := raceResults.pace r;
     platform := raceResults.platform r;
     status := raceResults.status r;
     errorMessage := raceResults.errorMessage r;
     extractedAt := raceResults.extractedAt r |}.
End ResultView.

(** One line of an export: the object [exportResults] makes of a row. *)
Module ExportRow.
Record t : Type := {
  Name : JSVal;
  Category : JSVal;
  Finish_Time : JSVal;
  BIB_Number : JSVal;
  Rank_Overall : JSVal;
  Rank_Category : JSVal;
  Pace : JSVal;
  Platform : JSVal;
  Status : raceResults.Status;
  URL : string
}.

Definition of_row (r : raceResults.Row) : t :=
  {| Name := js_or (raceResults.name r) (JStr "");
     Category := js_or (raceResults.category r) (JStr "");
     Finish_Time := js_or (raceResults.finishTime r) (JStr "");
     BIB_Number := js_or (raceResults.bibNumber r) (JStr "");
     Rank_Overall := js_or (raceResults.rankOverall r) (JStr "");
     Rank_Category := js_or (raceResults.rankCategory r) (JStr "");
     Pace := js_or (raceResults.pace r) (JStr "");
     Platform := js_or (raceResults.platform r) (JStr "");
     Status := raceResults.status r;
     URL := raceResults.url r |}.
End ExportRow.

(** The libraries that write an export: [JSON.stringify(data, null, 2)],
    [Papa.unparse(data)], and the workbook with one sheet written by
    [XLSX] and encoded in base 64. *)
Record Serializers : Type := {
  JSON_stringify : list ExportRow.t -> string;
  Papa_unparse : list ExportRow.t -> string;
  XLSX_base64 : list ExportRow.t -> string
}.

(** What [refreshResult] answers. *)
Record Refreshed : Type := {
  success : bool;
  result : RaceResultData.t
}.

(** What [exportResults] answers. *)
Record Exported : Type := {
  data : string;
  filename : string;
  mimeType : string
}.

Module Router.
Section Router.

Variable rt : Runtime.
Variable ser : Serializers.

(** Get all results for current user. *)
Definition getUserResults (userId : Z) : M (list ResultView.t) :=
  results <- getUserResults userId 100 ;;
  ret (map ResultView.of_row results).

(** Refresh a single result (force re-fetch).  The input schema is
    [z.string().url()]. *)
Definition refreshResult (url : string) (userId : Z) : M Refreshed :=
  if z_string_url rt url then
    normalizedUrl <- normalizeUrl rt url ;;
    let urlHash := hashUrl normalizedUrl in
    try_catch
      (data <- retryWithBackoff (extractRaceResults rt normalizedUrl) 3 1000 ;;
       now <- new_Date ;;
       insertRaceResult (completed_row normalizedUrl urlHash data now userId) ;;
       ret {| success := true; result := data |})
      (fun error =>
         let errorMessage := message error in
         now <- new_Date ;;
         insertRaceResult (error_row normalizedUrl urlHash errorMessage now userId) ;;
         throw (mkError errorMessage))
  else throw (mkError "BAD_REQUEST").

(** The input schema [z.enum(["csv", "json", "excel"])]. *)
Definition format_ok (format : string) : bool :=
  String.eqb format "csv" || String.eqb format "json" || String.eqb format "excel".

(** Export results in various formats. *)
Definition exportResults (jobId format : string) (userId : Z) : M Exported :=
  if format_ok format then
    _ <- owned_job jobId userId ;;
    results <- getResultsByJobId jobId ;;
    let data := map ExportRow.of_row results in
    if String.eqb format "json" then
      ret {| data := JSON_stringify ser data;
             filename := "race_results_" ++ jobId ++ ".json";
             mimeType := "application/json" |}
    else if String.eqb format "csv" then
      ret {| data := Papa_unparse ser data;
             filename := "race_results_" ++ jobId ++ ".csv";
             mimeType := "text/csv" |}
    else if String.eqb format "excel" then
      ret {| data := XLSX_base64 ser data;
             filename := "race_results_" ++ jobId ++ ".xlsx";
             mimeType :=
               "application/vnd.openxmlformats-officedocument.spreadsheetml.sheet" |}
    else throw (mkError "Unsupported format")
  else throw (mkError "BAD_REQUEST").

End Router.
End Router.

(* ================================================================= *)
(** ** [client/src/pages/Home.tsx]: the submit handler *)

(** [s.split("\n")]. *)
Fixpoint split_lines (l : list ascii) : list (list ascii) :=
  match l with
  | [] => [[]]
  | c :: l' =>
      if Ascii.eqb c "010" then [] :: split_lines l'
      else
        match split_lines l' with
        | cur :: rest => (c :: cur) :: rest
        | [] => [[c]]
        end
  end.

(** What [handleSubmit] does with the text of the input box: it shows an
    error, or it calls the [extractResults] mutation. *)
Inductive Submission : Type :=
| Toast (error : string)
| Mutate (urls : list string).

Definition handleSubmit (rt : Runtime) (urlInput : string) : Submission :=
  let urls :=
    filter (fun url => (0 <? String.length url)%nat)
           (map (fun url => trim (string_of url)) (split_lines (bytes_of urlInput))) in
  if (length urls =? 0)%nat then Toast "Please enter at least one URL"
  else
    let invalidUrls :=
      filter (fun url => match URL_href rt url with Some _ => false | None => true end)
             urls in
    if (0 <? length invalidUrls)%nat
    then Toast ("Invalid URLs found: " ++ String.concat ", " invalidUrls)
    else Mutate urls.

(* ================================================================= *)
(** ** A small runtime for concrete runs

    The general theorems hold for every [Runtime].  Concrete runs use
    the runtime below.  Its URL parser covers absolute [http] and
    [https] URLs [scheme://host/path?query#fragment] whose host is made
    of letters, digits, [-] and [.] and ends with a letter, and whose
    path, query and fragment need neither percent-encoding nor
    dot-segment removal: on these the URL constructor lower-cases scheme
    and host, writes an empty path as [/] and keeps the rest, fragment
    included.  A string without [:] is rejected, as the constructor
    rejects a relative reference without a base.  Its regular
    expressions are the patterns that are a literal text with escaped
    dots, which is what the URL patterns of the profiles are, and the
    patterns [/word[:\s]+(\d+)[\s]+OF/i] of the rank lines; any other
    pattern finds nothing, which is what the other patterns of the
    profiles do on the pages used here (an empty page, and a page with
    only a rank line). *)

Module Lite.

Fixpoint span (p : ascii -> bool) (l : list ascii) : list ascii * list ascii :=
  match l with
  | c :: l' =>
      if p c then let '(a, b) := span p l' in (c :: a, b) else ([], l)
  | [] => ([], [])
  end.

Definition one_of (s : string) (c : ascii) : bool :=
  existsb (Ascii.eqb c) (bytes_of s).

Definition is_alpha (c : ascii) : bool :=
  ((65 <=? code c) && (code c <=? 90)) || ((97 <=? code c) && (code c <=? 122)).

Definition is_alnum (c : ascii) : bool := is_alpha c || is_digit c.

Definition host_ok (h : list ascii) : bool :=
  forallb (fun c => is_alnum c || one_of "-." c) h
  && match h with c :: _ => is_alnum c | [] => false end
  && match rev h with c :: _ => is_alpha c | [] => false end.

Definition url_href (u : string) : option string :=
  let '(scheme, r) := span (fun c => negb (one_of ":" c)) (bytes_of u) in
  let scheme := map lower scheme in
  match r with
  | ":"%char :: "/"%char :: "/"%char :: r =>
      if String.eqb (string_of scheme) "http" || String.eqb (string_of scheme) "https"
      then
        let '(host, r) := span (fun c => negb (one_of "/?#" c)) r in
        let '(path, r) := span (fun c => negb (one_of "?#" c)) r in
        let '(query, r) :=
          match r with
          | "?"%char :: r =>
              let '(q, r) := span (fun c => negb (one_of "#" c)) r in ("?"%char :: q, r)
          | _ => ([], r)
          end in
        if host_ok host
           && forallb (fun c => is_alnum c || one_of "/-_~" c) path
           && forallb (fun c => is_alnum c || one_of "?=&-_.~" c) query
           && forallb (fun c => is_alnum c || one_of "#-_." c) r
           && match r with "#"%char :: _ | [] => true | _ => false end
        then
          Some (string_of
                  (scheme ++ bytes_of "://" ++ map lower host
                   ++ (match path with [] => bytes_of "/" | _ => path end)
                   ++ query ++ r))
        else None
      else None
  | _ => None
  end.

(** The text a pattern stands for when it is a literal: letters and
    digits for themselves, [\.] for a dot. *)
Fixpoint literal (src : list ascii) : option (list ascii) :=
  match src with
  | [] => Some []
  | "\"%char :: "."%char :: rest => option_map (cons "."%char) (literal rest)
  | c :: rest => if is_alnum c then option_map (cons c) (literal rest) else None
  end.

Fixpoint find_at (fold : ascii -> ascii) (lit : list ascii) (fuel : nat)
  (text : list ascii) : option (list ascii) :=
  match fuel with
  | O => None
  | S f =>
      match strip_prefix lit (map fold text) with
      | Some _ => Some (firstn (length lit) text)
      | None =>
          match text with
          | _ :: text' => find_at fold lit f text'
          | [] => None
          end
      end
  end.

(** A pattern [word[:\s]+(\d+)[\s]+OF] at the start of [l]: the word,
    colons or white space, the digits of group 1, white space, [OF].
    No repetition can take a character that what follows it needs, so
    matching without backtracking finds the match when there is one. *)
Definition rank_tail : string := "[:\s]+(\d+)[\s]+OF".

Definition rank_at (word : list ascii) (l : list ascii)
  : option (list (option string)) :=
  let seps := [":"%char] :: white_space in
  match strip_prefix word (map lower l) with
  | None => None
  | Some _ =>
      match strip_any seps (skipn (length word) l) with
      | None => None
      | Some r =>
          let r := trim_left seps (length r) r in
          match take_digits r with
          | [] => None
          | ds =>
              match strip_any white_space (skipn (length ds) r) with
              | None => None
              | Some r =>
                  let r := trim_left white_space (length r) r in
                  match strip_prefix (bytes_of "of") (map lower r) with
                  | None => None
                  | Some _ =>
                      Some [ Some (string_of (firstn (length l - length r + 2) l));
                             Some (string_of ds) ]
                  end
              end
          end
      end
  end.

Fixpoint first_at {A} (f : list ascii -> option A) (fuel : nat) (l : list ascii)
  : option A :=
  match fuel with
  | O => None
  | S k =>
      match f l with
      | Some a => Some a
      | None => match l with _ :: l' => first_at f k l' | [] => None end
      end
  end.

(** The word of a pattern [word[:\s]+(\d+)[\s]+OF]. *)
Definition rank_word (pattern : RegExp) : option (list ascii) :=
  let src := bytes_of (source pattern) in
  let n := (length src - String.length rank_tail)%nat in
  if String.eqb (flags pattern) "i"
     && String.eqb (string_of (skipn n src)) rank_tail
     && forallb is_alnum (firstn n src)
     && negb (n =? 0)%nat
  then Some (map lower (firstn n src)) else None.

Definition exec (pattern : RegExp) (text : string) : option (list (option string)) :=
  match rank_word pattern with
  | Some word => first_at (rank_at word) (S (String.length text)) (bytes_of text)
  | None =>
      match literal (bytes_of (source pattern)) with
      | Some lit =>
          let fold := if String.eqb (flags pattern) "i" then lower else (fun c => c) in
          match find_at fold (map fold lit) (S (String.length text)) (bytes_of text) with
          | Some m => Some [Some (string_of m)]
          | None => None
          end
      | None => None
      end
  end.

Definition decode (s : string) : option string :=
  if existsb (Ascii.eqb "%"%char) (bytes_of s) then None else Some s.

Definition runtime (pages : nat -> string -> Outcome Page) : Runtime :=
  {| URL_href := url_href;
     regex_exec := exec;
     open_page := pages;
     decodeURIComponent := decode;
     z_string_url := fun u => match url_href u with Some _ => true | None => false end |}.

(** A page with no text at all. *)
Definition blank (url : string) : Page :=
  {| page_url := url; innerText := ""; textContent := fun _ => None |}.

(** A browser that always reaches the page. *)
Definition reachable : nat -> string -> Outcome Page :=
  fun _ url => Ok (blank url).

(** A browser that always reaches a page with the given text. *)
Definition showing (text : string) : nat -> string -> Outcome Page :=
  fun _ url =>
    Ok {| page_url := url; innerText := text; textContent := fun _ => None |}.

(** A browser whose first [k] navigations fail. *)
Definition flaky (k : nat) : nat -> string -> Outcome Page :=
  fun n url =>
    if (n <? k)%nat then Throw (mkError "page.goto: Timeout 30000ms exceeded.")
    else Ok (blank url).

Definition empty_db : Db := {| race_results := []; processing_jobs := [] |}.

Definition start (d : option Db) : World :=
  {| db := d; clock := 0; sessions := 0; events := [] |}.

End Lite.

(* ================================================================= *)
(** ** Vocabulary of the properties *)

(** What one pattern contributes to a chain: the text of the designated
    group when the pattern matches and that group is not empty. *)
Definition capture (rt : Runtime) (text : string) (group : nat) (pattern : RegExp)
  : option string :=
  match String_match rt text pattern with
  | Some m =>
      match group_of m group with
      | Some s => if String.eqb s "" then None else Some s
      | None => None
      end
  | None => None
  end.

(** The first answer of a list of attempts. *)
Fixpoint first_some {A} (l : list (option A)) : option A :=
  match l with
  | [] => None
  | Some a :: _ => Some a
  | None :: rest => first_some rest
  end.

(** The events of a run of attempts with exponential back-off: every
    attempt, and between two consecutive attempts a timer of
    [initialDelay * 2 ^ attemptIndex]. *)
Fixpoint backoff_log (initialDelay : Z) (attemptIndex : Z)
  (outcomes : list (option Error)) : list Event :=
  match outcomes with
  | [] => []
  | o :: rest =>
      EvAttempt o ::
      match rest with
      | [] => []
      | _ :: _ =>
          EvTimer (initialDelay * 2 ^ attemptIndex)
          :: backoff_log initialDelay (attemptIndex + 1) rest
      end
  end.

Definition failed (o : option Error) : Prop := o <> None.

(** The same world at another time. *)
Definition at_time (t : Z) (w : World) : World :=
  {| db := db w; clock := t; sessions := sessions w; events := events w |}.

(** A cache entry that may answer a lookup for [(userId, urlHash)] at
    time [now]. *)
Definition eligible (urlHash : string) (userId : Z) (now : Z)
  (r : raceResults.Row) : Prop :=
  raceResults.urlHash r = urlHash /\ raceResults.userId r = userId /\
  raceResults.status r = raceResults.completed /\ now < raceResults.expiresAt r.

Definition rows_of (w : World) : list raceResults.Row :=
  match db w with Some d => race_results d | None => [] end.

(** [emits ok m]: [m] leaves the database as it is and only adds events
    that satisfy [ok] to the log. *)
Definition emits {A} (ok : Event -> Prop) (m : M A) : Prop :=
  forall w,
    db (snd (m w)) = db w /\
    exists new, events (snd (m w)) = (events w ++ new)%list /\ Forall ok new.

Definition no_write (ev : Event) : Prop :=
  match ev with EvDb _ => False | _ => True end.

(** The events of a visit to a page. *)
Definition browsing (ev : Event) : Prop :=
  match ev with EvExtract _ | EvRender _ => True | _ => False end.

(** The events of the retry wrapper and of the instrumentation. *)
Definition retry_event (ev : Event) : bool :=
  match ev with EvAttempt _ | EvTimer _ => true | _ => false end.

(** An operation that neither sets timers nor logs attempts itself. *)
Definition silent {A} (fn : M A) : Prop :=
  forall w, exists new,
    events (snd (fn w)) = (events w ++ new)%list /\ filter retry_event new = [].

(** The failure handed to the caller when every attempt failed. *)
Definition surfaced (outcomes : list (option Error)) (lastError : option Error)
  : Error :=
  match last outcomes lastError with
  | Some e => e
  | None => mkError "Max retries exceeded"
  end.

(** The events a computation added to the log. *)
Definition added (w w' : World) : list Event :=
  skipn (length (events w)) (events w').

(** The world after a page has been opened for [url] and read for [ms]
    milliseconds. *)
Definition after_visit (url : string) (ms : Z) (w : World) : World :=
  {| db := db w; clock := clock w + ms; sessions := S (sessions w);
     events := (events w ++ [EvExtract url; EvRender url])%list |}.

(** The world after an extraction that found no profile for [url]. *)
Definition after_refusal (url : string) (w : World) : World :=
  {| db := db w; clock := clock w; sessions := sessions w;
     events := (events w ++ [EvExtract url])%list |}.

Definition logged (ev : Event) (w : World) : World :=
  {| db := db w; clock := clock w; sessions := sessions w;
     events := (events w ++ [ev])%list |}.

(** What [extractRaceResults] makes of the partial result of a profile. *)
Definition coerced (parser : ParserConfig.t) (result : RaceResultData.t)
  : RaceResultData.t :=
  {| RaceResultData.raceName := JUndefined;
     RaceResultData.name := js_or (RaceResultData.name result) JNull;
     RaceResultData.category := js_or (RaceResultData.category result) JNull;
     RaceResultData.finishTime := js_or (RaceResultData.finishTime result) JNull;
     RaceResultData.bibNumber := js_or (RaceResultData.bibNumber result) JNull;
     RaceResultData.rankOverall := js_or (RaceResultData.rankOverall result) JNull;
     RaceResultData.rankCategory := js_or (RaceResultData.rankCategory result) JNull;
     RaceResultData.pace := js_or (RaceResultData.pace result) JNull;
     RaceResultData.platform := JStr (ParserConfig.name parser) |}.

(** The per-field values of an extraction result. *)
Definition fields (d : RaceResultData.t) : list JSVal :=
  [ RaceResultData.name d; RaceResultData.category d;
    RaceResultData.finishTime d; RaceResultData.bibNumber d;
    RaceResultData.rankOverall d; RaceResultData.rankCategory d;
    RaceResultData.pace d ].

(** Data for concrete runs. *)
Module Sample.

Definition url : string := "https://sportstimingsolutions.in/x".
Definition rt : Runtime := Lite.runtime Lite.reachable.

(** What the extraction gives on an empty page. *)
Definition data : RaceResultData.t :=
  coerced (sports_timing_solutions rt)
          (read_sports_timing_solutions rt (Lite.blank url)).

(** A successful entry for [url], written at [now] for [userId]. *)
Definition cached (userId now : Z) : raceResults.Row :=
  {| raceResults.id := 1;
     raceResults.cols := completed_row url (hashUrl url) data now userId |}.

Definition with_cache (userId now : Z) : World :=
  Lite.start (Some {| race_results := [cached userId now];
                      processing_jobs := [] |}).

(** A world with an empty database. *)
Definition fresh : World := Lite.start (Some Lite.empty_db).

(** A batch of a supported and an unsupported URL. *)
Definition batch : list string := [url; "https://example.com/results"].

End Sample.

(** The serialised URL up to its fragment: scheme, host, path and
    query, the canonical form the specification describes. *)
Definition without_fragment (href : string) : string :=
  string_of (fst (Lite.span (fun c => negb (Ascii.eqb c "#")) (bytes_of href))).

Definition spec_canonical (rt : Runtime) (u : string) : option string :=
  option_map without_fragment (URL_href rt u).

(** The cache key of a submitted URL, as [processUrls] computes it. *)
Definition url_key (rt : Runtime) (u : string) : M string :=
  normalizedUrl <- normalizeUrl rt u ;;
  ret (hashUrl normalizedUrl).

(* ----------------------------------------------------------------- *)
(** *** Reasoning about writes *)

(** A property of the database holds of every write in a log. *)
Definition ev_ok (I : Db -> Prop) (ev : Event) : Prop :=
  match ev with EvDb d => I d | _ => True end.

(** [triple I P m Q E]: from a database satisfying [P], every write made
    by [m] leaves a database satisfying [I], and the database at the end
    satisfies [Q] of the value returned, or [E] of the exception. *)
Definition triple {A} (I P : Db -> Prop) (m : M A) (Q : A -> Db -> Prop)
  (E : Error -> Db -> Prop) : Prop :=
  forall w d, db w = Some d -> P d ->
    exists new d',
      events (snd (m w)) = (events w ++ new)%list /\
      db (snd (m w)) = Some d' /\
      Forall (ev_ok I) new /\
      match fst (m w) with
      | Ok a => Q a d'
      | Throw e => E e d'
      end.

(** The database after [insertRaceResult]. *)
Definition inserted (result : raceResults.Insert) (d : Db) : Db :=
  {| race_results :=
       (race_results d
        ++ [ {| raceResults.id := next_id (race_results d);
                raceResults.cols := result |} ])%list;
     processing_jobs := processing_jobs d |}.

(** The database after [updateProcessingJob]. *)
Definition updated (jobId : string) (updates : Updates.t) (d : Db) : Db :=
  {| race_results := race_results d;
     processing_jobs :=
       map (fun j => if job_matches jobId j then apply_updates updates j else j)
           (processing_jobs d) |}.

(** The database after [createProcessingJob] at time [now]. *)
Definition created (job : processingJobs.Insert) (now : Z) (d : Db) : Db :=
  {| race_results := race_results d;
     processing_jobs :=
       (processing_jobs d
        ++ [ {| processingJobs.id := next_id (processing_jobs d);
                processingJobs.cols := job;
                processingJobs.createdAt := now;
                processingJobs.completedAt := None |} ])%list |}.

(* ----------------------------------------------------------------- *)
(** *** The state of a job *)

Section JobState.

Variable jobId : string.
Variable userId : Z.
Variable total : Z.
Variable before : list raceResults.Row.

(** The rows of the job in the jobs table. *)
Definition job_rows (d : Db) : list processingJobs.Row :=
  filter (job_matches jobId) (processing_jobs d).

(** What the row of a job says. *)
Definition row_is (st : processingJobs.Status) (c : Counters) (done : bool)
  (j : processingJobs.Row) : Prop :=
  processingJobs.status j = st /\
  processingJobs.totalUrls j = total /\
  processingJobs.processedUrls j = processedCount c /\
  processingJobs.successCount j = successCount c /\
  processingJobs.errorCount j = errorCount c /\
  processingJobs.userId j = userId /\
  (processingJobs.completedAt j <> None <-> done = true).

(** The job has exactly one row, and what it says. *)
Definition job_is (st : processingJobs.Status) (c : Counters) (done : bool)
  (d : Db) : Prop :=
  exists j, job_rows d = [j] /\ row_is st c done j.

Definition consistent (c : Counters) : Prop :=
  0 <= successCount c /\ 0 <= errorCount c /\
  successCount c + errorCount c = processedCount c /\
  processedCount c <= total.

Definition is_error (r : raceResults.Row) : bool :=
  raceResults.Status_eqb (raceResults.status r) raceResults.error.

(** A result row of the owner that names no job. *)
Definition unlinked (r : raceResults.Row) : Prop :=
  raceResults.jobId r = None /\ raceResults.userId r = userId.

(** The rows written since the job started, against its counters. *)
Definition results_are (c : Counters) (d : Db) : Prop :=
  exists rows,
    race_results d = (before ++ rows)%list /\ Forall unlinked rows /\
    Z.of_nat (length (filter is_error rows)) = errorCount c /\
    Z.of_nat (length rows) <= successCount c + errorCount c.

(** Between two rounds of the loop. *)
Definition running (c : Counters) (d : Db) : Prop :=
  consistent c /\ job_is processingJobs.processing c false d /\ results_are c d.

(** What every write of the loop leaves behind. *)
Definition orderly (d : Db) : Prop :=
  (exists c, consistent c /\ job_is processingJobs.processing c false d) /\
  (exists rows, race_results d = (before ++ rows)%list /\ Forall unlinked rows).

(** What every write of the whole run leaves behind. *)
Definition accounted (d : Db) : Prop :=
  (exists st c done, consistent c /\ job_is st c done d) /\
  (exists rows, race_results d = (before ++ rows)%list /\ Forall unlinked rows).

(** The outcome of the [try] statement of a round that started with
    counters [c]. *)
Definition after_try (c : Counters) (r : Counters * Flow) (d : Db) : Prop :=
  match r with
  | (c1, Continue) => running c1 d /\ processedCount c1 = processedCount c + 1
  | (c1, FallThrough) =>
      consistent c /\ processedCount c < total /\
      job_is processingJobs.processing c false d /\ results_are c1 d /\
      processedCount c1 = processedCount c /\
      successCount c1 + errorCount c1 = processedCount c + 1 /\
      0 <= successCount c1 /\ 0 <= errorCount c1
  end.

Definition before_round (c : Counters) (d : Db) : Prop :=
  running c d /\ processedCount c < total.

End JobState.

(** A submitted string the URL constructor rejects. *)
Definition invalid (rt : Runtime) (url : string) : Prop := URL_href rt url = None.

(** What a row that is consistent with some counters shows. *)
Definition balanced (j : processingJobs.Row) : Prop :=
  processingJobs.successCount j + processingJobs.errorCount j
  = processingJobs.processedUrls j
  /\ 0 <= processingJobs.processedUrls j
  /\ processingJobs.processedUrls j <= processingJobs.totalUrls j.

(** What a poll of the job by its owner sees in database [d]. *)
Definition poll (jobId : string) (userId : Z) (d : Db)
  : Outcome processingJobs.Row :=
  fst (getJobStatus jobId userId
         {| db := Some d; clock := 0; sessions := O; events := [] |}).

(** The URLs [extractRaceResults] was invoked on, in order. *)
Definition extractions (evs : list Event) : list string :=
  flat_map (fun ev => match ev with EvExtract u => [u] | _ => [] end) evs.

(** The delays of the retry timers, in order. *)
Definition timers (evs : list Event) : list Z :=
  flat_map (fun ev => match ev with EvTimer ms => [ms] | _ => [] end) evs.

(** The counters after a round that ended in an error record. *)
Definition one_more_error (c : Counters) : Counters :=
  {| processedCount := processedCount c + 1;
     successCount := successCount c;
     errorCount := errorCount c + 1 |}.

(** The statuses of the job in the successive writes of a log. *)
Definition statuses (jobId : string) (evs : list Event)
  : list processingJobs.Status :=
  flat_map (fun ev =>
              match ev with
              | EvDb d =>
                  map (fun j : processingJobs.Row => processingJobs.status j)
                      (job_rows jobId d)
              | _ => []
              end) evs.

(** One step along [queued -> processing -> {completed, failed}]. *)
Inductive transition : processingJobs.Status -> processingJobs.Status -> Prop :=
| start_processing : transition processingJobs.queued processingJobs.processing
| complete : transition processingJobs.processing processingJobs.completed
| fail : transition processingJobs.processing processingJobs.failed.

(** Two successive observations: the same status, or one step forward. *)
Definition forward (a b : processingJobs.Status) : Prop := a = b \/ transition a b.

(* ----------------------------------------------------------------- *)
(** *** Vocabulary of the further properties *)

(** A non-empty string of decimal digits. *)
Definition all_digits (s : string) : Prop :=
  s <> "" /\ forallb is_digit (bytes_of s) = true.

(** [parser.urlPattern.test(url)]. *)
Definition matches_url (rt : Runtime) (url : string) (p : ParserConfig.t) : bool :=
  RegExp_test rt (ParserConfig.urlPattern p) url.

(** One of [0-9a-f]. *)
Definition lower_hex (c : ascii) : bool :=
  is_digit c || ((97 <=? code c) && (code c <=? 102)).

(** The jobs table of a world; empty without a database. *)
Definition jobs_of (w : World) : list processingJobs.Row :=
  match db w with Some d => processing_jobs d | None => [] end.

(** The job [jobId] is in the table and belongs to [userId]. *)
Definition owns (userId : Z) (jobId : string) (w : World) : Prop :=
  exists j, In j (jobs_of w) /\ processingJobs.jobId j = jobId /\
            processingJobs.userId j = userId.

(** Why the guard refuses: no row holds [jobId], or the row belongs to
    someone else. *)
Definition refused (userId : Z) (jobId : string) (w : World) (e : Error) : Prop :=
  (e = mkError "Job not found" /\
   Forall (fun j : processingJobs.Row => processingJobs.jobId j <> jobId) (jobs_of w))
  \/ (e = mkError "Unauthorized" /\
      exists j, In j (jobs_of w) /\ processingJobs.jobId j = jobId /\
                processingJobs.userId j <> userId).

(** The empty string, or a value that counts as true. *)
Definition blank_or_truthy (v : JSVal) : Prop := v = JStr "" \/ truthy v = true.

(** The cells of an export line that come from optional columns. *)
Definition cells (x : ExportRow.t) : list JSVal :=
  [ ExportRow.Name x; ExportRow.Category x; ExportRow.Finish_Time x;
    ExportRow.BIB_Number x; ExportRow.Rank_Overall x; ExportRow.Rank_Category x;
    ExportRow.Pace x; ExportRow.Platform x ].

(** The rows [getResultsByJobId] selects. *)
Definition linked_to (jobId : string) (w : World) : list raceResults.Row :=
  filter (fun r : raceResults.Row =>
            match raceResults.jobId r with
            | Some j => String.eqb j jobId
            | None => false
            end) (rows_of w).

(** The rows [getUserResults] selects for [userId]. *)
Definition owned_by (userId : Z) (w : World) : list raceResults.Row :=
  filter (fun r : raceResults.Row => raceResults.userId r =? userId) (rows_of w).

(** The job row a poll finds for [jobId]. *)
Definition job_of (jobId : string) (w : World) : option processingJobs.Row :=
  match filter (job_matches jobId) (jobs_of w) with
  | j :: _ => Some j
  | [] => None
  end.

(** The test of [getCachedResult] on one row. *)
Definition serves (urlHash : string) (userId now : Z) (r : raceResults.Row) : bool :=
  String.eqb (raceResults.urlHash r) urlHash
  && (raceResults.userId r =? userId)
  && (now <? raceResults.expiresAt r)
  && raceResults.Status_eqb (raceResults.status r) raceResults.completed.

(** What a lookup answers at time [t] in the database of [w]. *)
Definition lookup_at (t : Z) (urlHash : string) (userId : Z) (w : World)
  : Outcome (option raceResults.Row) :=
  fst (getCachedResult urlHash userId (at_time t w)).

(** The counters after a round that counted a success. *)
Definition one_more_success (c : Counters) : Counters :=
  {| processedCount := processedCount c + 1;
     successCount := successCount c + 1;
     errorCount := errorCount c |}.

(** The delays [initialDelay * 2 ^ attempt] of [k] consecutive waits. *)
Definition waits (initialDelay attempt : Z) (k : nat) : list Z :=
  map (fun i => initialDelay * 2 ^ (attempt + Z.of_nat i)) (seq 0 k).

(** The sum of a list of delays. *)
Definition sum_Z (l : list Z) : Z := fold_right Z.add 0 l.

(** [keeps R m]: every run of [m] takes a world to one that [R] relates
    to it. *)
Definition keeps {A} (R : World -> World -> Prop) (m : M A) : Prop :=
  forall w, R w (snd (m w)).

(** The rows of the jobs other than [jobId]. *)
Definition other_jobs (jobId : string) (d : Db) : list processingJobs.Row :=
  filter (fun j => negb (job_matches jobId j)) (processing_jobs d).

(** A result as the orchestrator writes it for [userId]: it names the
    owner and no job, and expires 24 hours after it was cached. *)
Definition written_for (userId : Z) (r : raceResults.Insert) : Prop :=
  raceResults.userId r = userId /\ raceResults.jobId r = None /\
  raceResults.expiresAt r = raceResults.cachedAt r + hours_24.

(** What the work on job [jobId] of [userId] does to a database: it adds
    results written for [userId] after the stored ones, and leaves the
    rows of the other jobs as they are. *)
Definition grows (jobId : string) (userId : Z) (w w' : World) : Prop :=
  forall d, db w = Some d ->
    exists d' rows,
      db w' = Some d' /\
      race_results d' = (race_results d ++ rows)%list /\
      Forall (fun r : raceResults.Row => written_for userId r) rows /\
      other_jobs jobId d' = other_jobs jobId d.

(** Without a database none appears, and nothing is written. *)
Definition offline (w w' : World) : Prop :=
  db w = None ->
  db w' = None /\ exists new, events w' = (events w ++ new)%list /\ Forall no_write new.

(** A text column: [null] or a non-empty string. *)
Definition text_or_null (v : JSVal) : Prop :=
  v = JNull \/ exists s, v = JStr s /\ s <> "".

(** A rank column: [null] or a number other than zero. *)
Definition rank_or_null (v : JSVal) : Prop :=
  v = JNull \/ exists n, v = JNum n /\ n <> 0.

(** The URL a round works on: the normalized form of what was
    submitted (the string itself when it does not normalize). *)
Definition href_of (rt : Runtime) (url : string) : string :=
  match URL_href rt url with Some n => n | None => url end.

(** The extractions of a batch when the round of each URL makes the
    given number of attempts. *)
Definition attempts (rt : Runtime) (urls : list string) (counts : list nat)
  : list string :=
  flat_map (fun p => repeat (href_of rt (fst p)) (snd p)) (combine urls counts).

(** [says P m]: what [m] adds to the log has extractions that satisfy [P]. *)
Definition says {A} (P : list string -> Prop) (m : M A) : Prop :=
  forall w, exists new,
    events (snd (m w)) = (events w ++ new)%list /\ P (extractions new).

(** No extraction at all. *)
Definition mute (l : list string) : Prop := l = [].

(** At most [k] extractions, all of [n]. *)
Definition at_most (k : nat) (n : string) (l : list string) : Prop :=
  exists j, (j <= k)%nat /\ l = repeat n j.

(* ================================================================= *)
(** * Properties *)

Local Open Scope list_scope.

(** ** Digest test vectors *)

Example sha256_abc :
  SHA256.hex "abc"
  = "ba7816bf8f01cfea414140de5dae2223b00361a396177a9cb410ff61f20015ad".
Proof. vm_compute. reflexivity. Qed.

Example sha256_empty :
  SHA256.hex ""
  = "e3b0c44298fc1c149afbf4c8996fb92427ae41e4649b934ca495991b7852b855".
Proof. vm_compute. reflexivity. Qed.

Example sha256_two_blocks :
  SHA256.hex "aaaaaaaaaaaaaaaaaaaaaaaaaaaaaaaaaaaaaaaaaaaaaaaaaaaaaaaaaaaaaaaaaaaaaa"
  = "6bd5e5034855a11241f0dee8fc72850ffd9955b28347a86428b5fa19119f6ad0".
Proof. vm_compute. reflexivity. Qed.

(** The normalisation cases of the repository's own tests. *)
Example normalize_valid :
  Lite.url_href "https://example.com/path?query=value"
  = Some "https://example.com/path?query=value".
Proof. reflexivity. Qed.

Example normalize_invalid : Lite.url_href "not-a-url" = None.
Proof. reflexivity. Qed.

(* ----------------------------------------------------------------- *)
(** ** Computations that do not write to the database *)

Section Emits.

Variable ok : Event -> Prop.

Lemma emits_ret {A} (a : A) : emits ok (ret a).
Proof. intros w; split; [reflexivity|]. exists []. now rewrite app_nil_r. Qed.

Lemma emits_throw {A} (e : Error) : emits ok (@throw A e).
Proof. intros w; split; [reflexivity|]. exists []. now rewrite app_nil_r. Qed.

Lemma emits_bind {A B} (m : M A) (k : A -> M B) :
  emits ok m -> (forall a, emits ok (k a)) -> emits ok (bind m k).
Proof.
  intros Hm Hk w. unfold bind.
  destruct (Hm w) as [Hdb [new [Hev Hnew]]].
  destruct (m w) as [[a|e] w1]; simpl in *.
  - destruct (Hk a w1) as [Hdb' [new' [Hev' Hnew']]].
    split; [congruence|].
    exists (new ++ new'). rewrite Hev', Hev, app_assoc.
    split; [reflexivity|]. now apply Forall_app.
  - split; [assumption|]. now exists new.
Qed.

Lemma emits_try_catch {A} (body : M A) (handler : Error -> M A) :
  emits ok body -> (forall e, emits ok (handler e)) ->
  emits ok (try_catch body handler).
Proof.
  intros Hm Hk w. unfold try_catch.
  destruct (Hm w) as [Hdb [new [Hev Hnew]]].
  destruct (body w) as [[a|e] w1]; simpl in *.
  - split; [assumption|]. now exists new.
  - destruct (Hk e w1) as [Hdb' [new' [Hev' Hnew']]].
    split; [congruence|].
    exists (new ++ new'). rewrite Hev', Hev, app_assoc.
    split; [reflexivity|]. now apply Forall_app.
Qed.

Lemma emits_log (ev : Event) : ok ev -> emits ok (log ev).
Proof.
  intros H w; split; [reflexivity|]. exists [ev]. split; [reflexivity|].
  now constructor.
Qed.

Lemma emits_elapse (ms : Z) : emits ok (elapse ms).
Proof. intros w; split; [reflexivity|]. exists []. simpl. now rewrite app_nil_r. Qed.

Lemma emits_new_Date : emits ok new_Date.
Proof. intros w; split; [reflexivity|]. exists []. simpl. now rewrite app_nil_r. Qed.

Lemma emits_getDb : emits ok getDb.
Proof. intros w; split; [reflexivity|]. exists []. simpl. now rewrite app_nil_r. Qed.

Lemma emits_if {A} (b : bool) (m1 m2 : M A) :
  emits ok m1 -> emits ok m2 -> emits ok (if b then m1 else m2).
Proof. now destruct b. Qed.

Lemma emits_getCachedResult (urlHash : string) (userId : Z) :
  emits ok (getCachedResult urlHash userId).
Proof.
  unfold getCachedResult. apply emits_bind; [apply emits_getDb|].
  intros [d|]; [|apply emits_ret].
  apply emits_bind; [apply emits_new_Date|]. intros now. apply emits_ret.
Qed.

Lemma emits_getProcessingJob (jobId : string) : emits ok (getProcessingJob jobId).
Proof.
  unfold getProcessingJob. apply emits_bind; [apply emits_getDb|].
  intros [d|]; apply emits_ret.
Qed.

Lemma emits_getResultsByJobId (jobId : string) : emits ok (getResultsByJobId jobId).
Proof.
  unfold getResultsByJobId. apply emits_bind; [apply emits_getDb|].
  intros [d|]; apply emits_ret.
Qed.

End Emits.

Lemma emits_weaken {A} (ok ok' : Event -> Prop) (m : M A) :
  (forall ev, ok ev -> ok' ev) -> emits ok m -> emits ok' m.
Proof.
  intros Himp Hm w. destruct (Hm w) as [Hdb [new [Hev Hnew]]].
  split; [assumption|]. exists new. split; [assumption|].
  eapply Forall_impl; [|exact Hnew]. assumption.
Qed.

Lemma emits_setTimeout (ok : Event -> Prop) (ms : Z) :
  ok (EvTimer ms) -> emits ok (setTimeout ms).
Proof.
  intros H. unfold setTimeout. apply emits_bind; [now apply emits_log|].
  intros _. apply emits_elapse.
Qed.

Section EmitsPlatform.

Variable rt : Runtime.

Lemma emits_goto (url : string) : emits browsing (goto rt url).
Proof.
  unfold goto. apply emits_bind; [now apply emits_log|].
  intros _ w; split; [reflexivity|]. exists []. simpl. now rewrite app_nil_r.
Qed.

Lemma emits_normalizeUrl (ok : Event -> Prop) (url : string) :
  emits ok (normalizeUrl rt url).
Proof.
  unfold normalizeUrl.
  destruct (URL_href rt url); [apply emits_ret | apply emits_throw].
Qed.

Lemma detectPlatform_registered (url : string) (parser : ParserConfig.t) :
  detectPlatform rt url = Some parser -> parser = sports_timing_solutions rt.
Proof.
  unfold detectPlatform, detect_in, PARSERS. simpl.
  destruct (RegExp_test rt _ url); congruence.
Qed.

Lemma emits_extractRaceResults (url : string) :
  emits browsing (extractRaceResults rt url).
Proof.
  unfold extractRaceResults.
  apply emits_bind; [now apply emits_log|]. intros _.
  destruct (detectPlatform rt url) as [parser|] eqn:Hp; [|apply emits_throw].
  apply detectPlatform_registered in Hp. subst parser.
  apply emits_bind; [apply emits_goto|]. intros page.
  apply emits_bind; [|intros; apply emits_ret].
  simpl. apply emits_bind; [apply emits_elapse|]. intros; apply emits_ret.
Qed.

Lemma emits_retry_loop {T} (ok : Event -> Prop) (fn : M T)
  (maxRetries initialDelay : Z) :
  (forall ms, ok (EvTimer ms)) -> emits ok fn ->
  forall iterations attempt lastError,
    emits ok (retry_loop fn maxRetries initialDelay iterations attempt lastError).
Proof.
  intros Hok Hfn. induction iterations as [|n IH]; intros attempt lastError; simpl.
  - apply emits_throw.
  - apply emits_try_catch; [assumption|]. intros e.
    apply emits_bind.
    + apply emits_if; [now apply emits_setTimeout | apply emits_ret].
    + intros _. apply IH.
Qed.

Lemma emits_retryWithBackoff {T} (ok : Event -> Prop) (fn : M T)
  (maxRetries initialDelay : Z) :
  (forall ms, ok (EvTimer ms)) -> emits ok fn ->
  emits ok (retryWithBackoff fn maxRetries initialDelay).
Proof. intros Hok H. now apply emits_retry_loop. Qed.

Lemma quiet_extraction (url : string) :
  emits no_write (retryWithBackoff (extractRaceResults rt url) 3 1000).
Proof.
  apply emits_retryWithBackoff; [exact (fun _ => I)|].
  eapply emits_weaken; [|apply emits_extractRaceResults].
  now intros [ | | | | ].
Qed.

End EmitsPlatform.

(* ----------------------------------------------------------------- *)
(** ** Ordered pattern chains *)

Section ChainProperties.

Variable rt : Runtime.

Lemma matchFirst_first_some (text : string) (patterns : list RegExp) (group : nat) :
  Chains.matchFirst rt text patterns group
  = option_map trim (first_some (map (capture rt text group) patterns)).
Proof.
  induction patterns as [|p rest IH]; [reflexivity|].
  simpl. unfold capture at 1.
  destruct (String_match rt text p) as [m|]; [|exact IH].
  destruct (group_of m group) as [s|]; [|exact IH].
  destruct (String.eqb s ""); simpl; [exact IH | reflexivity].
Qed.

Lemma first_some_none {A} (l : list (option A)) :
  Forall (fun o => o = None) l -> first_some l = None.
Proof.
  induction 1 as [|o l Ho _ IH]; [reflexivity|]. now subst o.
Qed.

End ChainProperties.



(* ----------------------------------------------------------------- *)
(** ** The retry wrapper *)

Lemma added_app (w w' : World) (new : list Event) :
  events w' = events w ++ new -> added w w' = new.
Proof.
  intros H. unfold added. rewrite H.
  rewrite skipn_app, skipn_all, Nat.sub_diag. reflexivity.
Qed.

Lemma last_default {A} (l : list A) (d d' : A) : l <> [] -> last l d = last l d'.
Proof.
  induction l as [|a l IH]; [congruence|]. intros _.
  destruct l as [|b l]; [reflexivity|].
  change (last (b :: l) d = last (b :: l) d'). apply IH. discriminate.
Qed.

Section RetryProperties.

Context {T : Type}.
Variable fn : M T.
Variables maxRetries initialDelay : Z.
Hypothesis fn_silent : silent fn.

Lemma retry_loop_log :
  forall iterations attempt lastError w r w',
    iterations = Z.to_nat (maxRetries - attempt) ->
    retry_loop (observed fn) maxRetries initialDelay iterations attempt lastError w
    = (r, w') ->
    exists outcomes new,
      events w' = events w ++ new /\
      filter retry_event new = backoff_log initialDelay attempt outcomes /\
      (length outcomes <= iterations)%nat /\
      (iterations <> O -> outcomes <> []) /\
      match r with
      | Ok _ => exists fails, outcomes = fails ++ [None] /\ Forall failed fails
      | Throw e =>
          length outcomes = iterations /\ Forall failed outcomes /\
          e = surfaced outcomes lastError
      end.
Proof.
  induction iterations as [|k IH]; intros attempt lastError w r w' Hk Hrun.
  - simpl in Hrun. unfold throw in Hrun. inversion Hrun; subst.
    exists [], []. rewrite app_nil_r.
    repeat split; try reflexivity; try constructor. congruence.
  - simpl in Hrun. unfold try_catch, observed in Hrun.
    destruct (fn_silent w) as [new0 [Hev0 Hf0]].
    destruct (fn w) as [[a|e] w1] eqn:Hfn; simpl in Hev0.
    + (* the attempt succeeds *)
      unfold bind, log, ret in Hrun. simpl in Hrun. inversion Hrun; subst.
      exists [None], (new0 ++ [EvAttempt None]). simpl.
      rewrite Hev0, <- app_assoc. split; [reflexivity|].
      rewrite filter_app, Hf0. simpl.
      repeat split; try lia; try discriminate.
      exists []. split; [reflexivity | constructor].
    + (* the attempt fails *)
      unfold bind at 1, log, throw in Hrun. simpl in Hrun.
      unfold bind at 1 in Hrun.
      destruct (attempt <? maxRetries - 1) eqn:Hlt.
      * apply Z.ltb_lt in Hlt.
        unfold setTimeout, bind, log, elapse in Hrun. simpl in Hrun.
        match type of Hrun with
        | retry_loop _ _ _ _ _ _ ?w2 = _ =>
            destruct (IH (attempt + 1) (Some e) w2 r w') as
              [outcomes [new [Hev [Hf [Hlen [Hne Hres]]]]]];
              [lia | exact Hrun |]
        end.
        simpl in Hev.
        exists (Some e :: outcomes),
          (new0 ++ [EvAttempt (Some e); EvTimer (initialDelay * 2 ^ attempt)] ++ new).
        split.
        { rewrite Hev, Hev0. rewrite <- !app_assoc. reflexivity. }
        assert (Hcons : outcomes <> []) by (apply Hne; lia).
        split.
        { rewrite !filter_app, Hf0, Hf. simpl.
          destruct outcomes as [|o os]; [congruence | reflexivity]. }
        split; [simpl; lia|]. split; [discriminate|].
        destruct r as [a|e'].
        -- destruct Hres as [fails [Ho Hfails]].
           exists (Some e :: fails). split; [now rewrite Ho|].
           constructor; [discriminate | assumption].
        -- destruct Hres as [Hl [Hall He]].
           split; [simpl; lia|]. split; [constructor; [discriminate|assumption]|].
           rewrite He. unfold surfaced.
           destruct outcomes as [|o os]; [congruence|].
           change (last (Some e :: o :: os) lastError) with (last (o :: os) lastError).
           rewrite (last_default (Some e) lastError); [reflexivity|discriminate].
      * apply Z.ltb_ge in Hlt.
        assert (k = O) by lia. subst k.
        simpl in Hrun. unfold throw in Hrun. inversion Hrun; subst.
        exists [Some e], (new0 ++ [EvAttempt (Some e)]). simpl.
        rewrite Hev0, <- app_assoc. split; [reflexivity|].
        rewrite filter_app, Hf0. simpl.
        repeat split; try lia; try discriminate.
        constructor; [discriminate | constructor].
Qed.

End RetryProperties.

Section ExtractionRuns.

Variable rt : Runtime.

Lemma extract_unsupported (url : string) (w : World) :
  detectPlatform rt url = None ->
  extractRaceResults rt url w
  = (Throw (mkError ("Unsupported race timing platform: " ++ url)),
     after_refusal url w).
Proof.
  intros H. unfold extractRaceResults, bind, log. simpl. rewrite H. reflexivity.
Qed.

Lemma extract_unreachable (url : string) (w : World) (e : Error) :
  detectPlatform rt url <> None ->
  open_page rt (sessions w) url = Throw e ->
  extractRaceResults rt url w = (Throw e, after_visit url 0 w).
Proof.
  intros Hp Ho. unfold extractRaceResults, bind, log. simpl.
  destruct (detectPlatform rt url) as [parser|]; [|congruence].
  unfold goto, bind, log. simpl. rewrite Ho.
  unfold after_visit. rewrite Z.add_0_r, <- app_assoc. reflexivity.
Qed.

Lemma extract_reachable (url : string) (w : World) (page : Page) :
  detectPlatform rt url <> None ->
  open_page rt (sessions w) url = Ok page ->
  extractRaceResults rt url w
  = (Ok (coerced (sports_timing_solutions rt) (read_sports_timing_solutions rt page)),
     after_visit url 3000 w).
Proof.
  intros Hp Ho. unfold extractRaceResults, bind, log. simpl.
  destruct (detectPlatform rt url) as [parser|] eqn:Hd; [|congruence].
  apply detectPlatform_registered in Hd. subst parser.
  unfold goto, bind, log. simpl. rewrite Ho. simpl.
  unfold after_visit, coerced. rewrite <- app_assoc. reflexivity.
Qed.

Lemma browsing_not_retry (l : list Event) :
  Forall browsing l -> filter retry_event l = [].
Proof.
  induction 1 as [|ev l Hev _ IH]; [reflexivity|].
  destruct ev; simpl in *; try contradiction; exact IH.
Qed.

Lemma silent_extractRaceResults (url : string) : silent (extractRaceResults rt url).
Proof.
  intros w. destruct (emits_extractRaceResults rt url w) as [_ [new [Hev Hnew]]].
  exists new. split; [assumption|]. now apply browsing_not_retry.
Qed.

End ExtractionRuns.

Lemma observed_ok {A} (fn : M A) (w w1 : World) (a : A) :
  fn w = (Ok a, w1) -> observed fn w = (Ok a, logged (EvAttempt None) w1).
Proof. intros H. unfold observed. rewrite H. reflexivity. Qed.

Lemma observed_throw {A} (fn : M A) (w w1 : World) (e : Error) :
  fn w = (Throw e, w1) -> observed fn w = (Throw e, logged (EvAttempt (Some e)) w1).
Proof. intros H. unfold observed. rewrite H. reflexivity. Qed.



(* ----------------------------------------------------------------- *)
(** ** The cache lookup *)

Lemma Status_eqb_completed (s : raceResults.Status) :
  raceResults.Status_eqb s raceResults.completed = true <-> s = raceResults.completed.
Proof. destruct s; simpl; split; congruence. Qed.

Lemma getCachedResult_run (urlHash : string) (userId : Z) (w : World) :
  getCachedResult urlHash userId w
  = (Ok (match filter
                 (fun r : raceResults.Row =>
                    String.eqb (raceResults.urlHash r) urlHash
                    && (raceResults.userId r =? userId)
                    && (clock w <? raceResults.expiresAt r)
                    && raceResults.Status_eqb (raceResults.status r)
                         raceResults.completed)
                 (rows_of w) with
         | r :: _ => Some r
         | [] => None
         end), w).
Proof.
  unfold getCachedResult, rows_of, bind, getDb, new_Date, ret, limit.
  destruct (db w) as [d|]; [|reflexivity].
  destruct (filter _ (race_results d)); reflexivity.
Qed.

Lemma eligible_test (urlHash : string) (userId now : Z) (r : raceResults.Row) :
  String.eqb (raceResults.urlHash r) urlHash
  && (raceResults.userId r =? userId)
  && (now <? raceResults.expiresAt r)
  && raceResults.Status_eqb (raceResults.status r) raceResults.completed = true
  <-> eligible urlHash userId now r.
Proof.
  unfold eligible.
  rewrite !andb_true_iff, String.eqb_eq, Z.eqb_eq, Z.ltb_lt, Status_eqb_completed.
  tauto.
Qed.

Lemma filter_head {A} (f : A -> bool) (l : list A) (r : A) (rest : list A) :
  filter f l = r :: rest -> In r l /\ f r = true.
Proof. intros H. apply filter_In. rewrite H. now left. Qed.

Lemma cache_hit_eligible (urlHash : string) (userId : Z) (w : World)
  (hit : raceResults.Row) :
  fst (getCachedResult urlHash userId w) = Ok (Some hit) ->
  In hit (rows_of w) /\ eligible urlHash userId (clock w) hit.
Proof.
  rewrite getCachedResult_run. simpl. intros H.
  destruct (filter _ (rows_of w)) as [|r rest] eqn:Hf; [discriminate|].
  inversion H; subst r. apply filter_head in Hf. destruct Hf as [Hin Ht].
  split; [assumption|]. now apply eligible_test.
Qed.

Lemma cache_hit_iff (urlHash : string) (userId : Z) (w : World) :
  (exists hit, fst (getCachedResult urlHash userId w) = Ok (Some hit))
  <-> (exists entry, In entry (rows_of w)
                     /\ eligible urlHash userId (clock w) entry).
Proof.
  split.
  - intros [hit H]. exists hit. now apply cache_hit_eligible.
  - intros [entry [Hin He]]. rewrite getCachedResult_run. simpl.
    apply eligible_test in He.
    match goal with
    | |- context [filter ?f _] =>
        assert (Hin' := proj2 (filter_In f entry (rows_of w)) (conj Hin He))
    end.
    destruct (filter _ (rows_of w)) as [|r rest]; [contradiction|].
    now exists r.
Qed.

(** C6.  A cache lookup for [(userId, urlHash)] at time [now] answers
    with a row exactly when the table holds a row for that owner and
    hash that is marked [completed] and whose expiry is after [now], and
    the row it answers with is such a row; the lookup changes nothing.
    For an entry of that owner and hash expiring at [expiry], a lookup
    one second before [expiry] is a hit, and one second after it is a
    miss when no entry for the pair expires later.  The row answered
    always belongs to the owner who asked, so another owner is never
    served it. *)
Theorem C6_cache_lookup (urlHash : string) (userId other : Z) (w : World)
  (entry : raceResults.Row) :
  snd (getCachedResult urlHash userId w) = w
  /\ ((exists hit, fst (getCachedResult urlHash userId w) = Ok (Some hit))
      <-> (exists e, In e (rows_of w) /\ eligible urlHash userId (clock w) e))
  /\ (forall hit, fst (getCachedResult urlHash userId w) = Ok (Some hit) ->
      In hit (rows_of w) /\ eligible urlHash userId (clock w) hit)
  /\ (In entry (rows_of w) ->
      raceResults.urlHash entry = urlHash ->
      raceResults.userId entry = userId ->
      raceResults.status entry = raceResults.completed ->
      (exists hit,
         fst (getCachedResult urlHash userId
                (at_time (raceResults.expiresAt entry - 1000) w))
         = Ok (Some hit))
      /\ ((forall e, In e (rows_of w) -> raceResults.urlHash e = urlHash ->
                     raceResults.userId e = userId ->
                     raceResults.expiresAt e <= raceResults.expiresAt entry) ->
          fst (getCachedResult urlHash userId
                 (at_time (raceResults.expiresAt entry + 1000) w))
          = Ok None))
  /\ (other <> userId ->
      forall hit, fst (getCachedResult urlHash other w) = Ok (Some hit) ->
                  raceResults.userId hit <> userId).
Proof.
  split; [now rewrite getCachedResult_run|].
  split; [apply cache_hit_iff|].
  split; [intros hit; apply cache_hit_eligible|].
  split.
  - intros Hin Hh Hu Hs. split.
    + apply cache_hit_iff. exists entry. split; [exact Hin|].
      unfold eligible. simpl. repeat split; try assumption. lia.
    + intros Hlatest.
      destruct (fst (getCachedResult urlHash userId
                       (at_time (raceResults.expiresAt entry + 1000) w)))
        as [[hit|]|e] eqn:Hres.
      * apply cache_hit_eligible in Hres. simpl in Hres.
        destruct Hres as [Hin' [Hh' [Hu' [_ Hlt]]]].
        specialize (Hlatest hit Hin' Hh' Hu'). lia.
      * reflexivity.
      * rewrite getCachedResult_run in Hres. discriminate.
  - intros Hneq hit Hhit. apply cache_hit_eligible in Hhit.
    destruct Hhit as [_ [_ [Hu _]]]. congruence.
Qed.

(** An entry written at time 0 for owner 1 expires after 24 hours: it is
    served one second before, not one second after, and never to owner 2. *)
Lemma C6_cache_lookup_witness :
  let w := Sample.with_cache 1 0 in
  let key := hashUrl Sample.url in
  (exists hit, fst (getCachedResult key 1 (at_time (86400000 - 1000) w))
               = Ok (Some hit))
  /\ fst (getCachedResult key 1 (at_time (86400000 + 1000) w)) = Ok None
  /\ ~ (exists hit, fst (getCachedResult key 2 (at_time 1000 w)) = Ok (Some hit)
                    /\ raceResults.userId hit = 1).
Proof.
  intros w key.
  destruct (C6_cache_lookup key 1 2 w (Sample.cached 1 0))
    as [_ [_ [_ [Httl _]]]].
  destruct Httl as [Hbefore Hafter];
    [now left | reflexivity | reflexivity | reflexivity |].
  split; [exact Hbefore|]. split.
  - apply Hafter. intros e [He|[]] _ _. subst e. simpl. lia.
  - intros [hit [Hhit Hu]].
    destruct (C6_cache_lookup key 1 2 (at_time 1000 w) (Sample.cached 1 0))
      as [_ [_ [_ [_ Hiso]]]].
    apply (Hiso ltac:(lia) hit Hhit Hu).
Defined.

(* ----------------------------------------------------------------- *)
(** ** Falsy field values *)

Lemma js_or_null (v : JSVal) :
  (truthy v = false -> js_or v JNull = JNull)
  /\ (js_or v JNull = JNull \/ truthy (js_or v JNull) = true).
Proof.
  unfold js_or. destruct (truthy v) eqn:Ht.
  - split; [discriminate | now right].
  - split; [reflexivity | now left].
Qed.

Lemma null_or_truthy_shape (v : JSVal) :
  v = JNull \/ truthy v = true ->
  v <> JStr "" /\ v <> JNum 0 /\ v <> JUndefined /\ v <> JNaN.
Proof.
  intros [->|Ht]; repeat split; try discriminate;
    intros ->; simpl in Ht; discriminate.
Qed.

Lemma coerced_fields (parser : ParserConfig.t) (result : RaceResultData.t) :
  Forall (fun v => v = JNull \/ truthy v = true) (fields (coerced parser result)).
Proof.
  unfold fields, coerced. simpl.
  repeat (constructor; [apply js_or_null|]). constructor.
Qed.

(** C10.  Whatever the extraction logic of the profile read off the
    page, the result of [extractRaceResults] is its coercion: a field
    whose value is falsy comes out as [null].  An empty string and a
    rank of [0] are therefore returned as [null], and no field of a
    result is the empty string, [0], [undefined] or [NaN]; in particular
    neither rank is [0]. *)
Theorem C10_falsy_fields_are_null (rt : Runtime) (url : string) (w w' : World)
  (data : RaceResultData.t) :
  extractRaceResults rt url w = (Ok data, w') ->
  (exists parser page,
     detectPlatform rt url = Some parser /\
     open_page rt (sessions w) url = Ok page /\
     let result := read_sports_timing_solutions rt page in
     data = coerced parser result /\
     (RaceResultData.name result = JStr "" -> RaceResultData.name data = JNull) /\
     (RaceResultData.rankOverall result = JNum 0 ->
      RaceResultData.rankOverall data = JNull) /\
     (RaceResultData.rankCategory result = JNum 0 ->
      RaceResultData.rankCategory data = JNull))
  /\ Forall (fun v => v = JNull \/ truthy v = true) (fields data)
  /\ Forall (fun v => v <> JStr "" /\ v <> JNum 0 /\ v <> JUndefined /\ v <> JNaN)
            (fields data)
  /\ RaceResultData.rankOverall data <> JNum 0
  /\ RaceResultData.rankCategory data <> JNum 0.
Proof.
  intros Hrun.
  destruct (detectPlatform rt url) as [parser|] eqn:Hd.
  2:{ rewrite extract_unsupported in Hrun by assumption. discriminate. }
  assert (Hp : detectPlatform rt url <> None) by congruence.
  destruct (open_page rt (sessions w) url) as [page|e] eqn:Ho.
  2:{ rewrite (extract_unreachable rt url w Hp Ho) in Hrun. discriminate. }
  rewrite (extract_reachable rt url w Hp Ho) in Hrun.
  inversion Hrun; subst data w'. clear Hrun.
  pose proof (detectPlatform_registered rt url Hd) as ->.
  assert (Hall := coerced_fields (sports_timing_solutions rt)
                    (read_sports_timing_solutions rt page)).
  assert (Hshape := Forall_impl _ null_or_truthy_shape Hall).
  split.
  - exists (sports_timing_solutions rt), page.
    split; [reflexivity|]. split; [reflexivity|]. simpl.
    split; [reflexivity|].
    repeat split; intros ->; reflexivity.
  - split; [exact Hall|]. split; [exact Hshape|].
    unfold fields in Hshape.
    repeat match goal with
           | H : Forall _ (_ :: _) |- _ => inversion H; clear H; subst
           end.
    split; tauto.
Qed.

(** A page whose rank line says [0]: the logic reads the number [0] and
    the result has [null]. *)
Lemma C10_falsy_fields_are_null_witness :
  let rt := Lite.runtime (Lite.showing "Overall: 0 OF 1200") in
  let w := Lite.start None in
  exists data w',
    extractRaceResults rt Sample.url w = (Ok data, w') /\
    RaceResultData.rankOverall
      (read_sports_timing_solutions rt
         {| page_url := Sample.url; innerText := "Overall: 0 OF 1200";
            textContent := fun _ => None |}) = JNum 0 /\
    RaceResultData.rankOverall data = JNull /\
    RaceResultData.rankOverall data <> JNum 0.
Proof.
  intros rt w.
  destruct (extractRaceResults rt Sample.url w) as [r w'] eqn:Hrun.
  assert (Hok : exists data, r = Ok data).
  { vm_compute in Hrun. inversion Hrun. eexists. reflexivity. }
  destruct Hok as [data ->].
  destruct (C10_falsy_fields_are_null rt Sample.url w Hrun)
    as [[parser [page [_ [Ho [_ [_ [Hzero _]]]]]]] [_ [_ [Hne _]]]].
  exists data, w'. split; [reflexivity|].
  assert (Hpage : page = {| page_url := Sample.url; innerText := "Overall: 0 OF 1200";
                            textContent := fun _ => None |})
    by (symmetry; injection Ho as Ho; exact Ho).
  subst page.
  assert (Hread : RaceResultData.rankOverall
                    (read_sports_timing_solutions rt
                       {| page_url := Sample.url; innerText := "Overall: 0 OF 1200";
                          textContent := fun _ => None |}) = JNum 0)
    by (vm_compute; reflexivity).
  split; [exact Hread|]. split; [exact (Hzero Hread) | exact Hne].
Defined.

(** The pattern-chain revision coerces in the same way, the race name
    included, whichever profile or selector table produced the result. *)
Lemma Chains_extract_coerces (rt : Runtime) (url : string) (w w' : World)
  (data : RaceResultData.t) :
  Chains.extractRaceResults rt url w = (Ok data, w') ->
  Forall (fun v => v = JNull \/ truthy v = true)
         (RaceResultData.raceName data :: fields data).
Proof.
  unfold Chains.extractRaceResults. unfold bind at 1. simpl.
  destruct (Chains.detectPlatform rt url) as [parser|]; [|discriminate].
  unfold bind at 1. destruct (goto rt url _) as [[page|e] w1]; [|discriminate].
  unfold bind at 1. simpl. unfold bind at 1.
  match goal with
  | |- context [match ?m ?w0 with _ => _ end] =>
      destruct (m w0) as [[result|e] w2]
  end; [|discriminate].
  unfold ret. intros H. inversion H. unfold fields. simpl.
  repeat (constructor; [apply js_or_null|]). constructor.
Qed.

(* ----------------------------------------------------------------- *)
(** ** Rules for writes *)

Section Triples.

Variable I : Db -> Prop.

Lemma triple_ret {A} (P : Db -> Prop) (a : A) (Q : A -> Db -> Prop)
  (E : Error -> Db -> Prop) :
  (forall d, P d -> Q a d) -> triple I P (ret a) Q E.
Proof.
  intros H w d Hdb HP. exists [], d. simpl. rewrite app_nil_r.
  repeat split; auto.
Qed.

Lemma triple_throw {A} (P : Db -> Prop) (e : Error) (Q : A -> Db -> Prop)
  (E : Error -> Db -> Prop) :
  (forall d, P d -> E e d) -> triple I P (@throw A e) Q E.
Proof.
  intros H w d Hdb HP. exists [], d. simpl. rewrite app_nil_r.
  repeat split; auto.
Qed.

Lemma triple_bind {A B} (P : Db -> Prop) (m : M A) (Q : A -> Db -> Prop)
  (k : A -> M B) (R : B -> Db -> Prop) (E : Error -> Db -> Prop) :
  triple I P m Q E -> (forall a, triple I (Q a) (k a) R E) ->
  triple I P (bind m k) R E.
Proof.
  intros Hm Hk w d Hdb HP. unfold bind.
  destruct (Hm w d Hdb HP) as [new [d1 [Hev [Hdb1 [Hnew Hres]]]]].
  destruct (m w) as [[a|e] w1]; simpl in *.
  - destruct (Hk a w1 d1 Hdb1 Hres) as [new' [d2 [Hev' [Hdb2 [Hnew' Hres']]]]].
    exists (new ++ new'), d2. rewrite Hev', Hev, app_assoc.
    repeat split; auto. now apply Forall_app.
  - exists new, d1. auto.
Qed.

Lemma triple_try_catch {A} (P : Db -> Prop) (body : M A) (Q : A -> Db -> Prop)
  (E' : Error -> Db -> Prop) (handler : Error -> M A) (E : Error -> Db -> Prop) :
  triple I P body Q E' -> (forall e, triple I (E' e) (handler e) Q E) ->
  triple I P (try_catch body handler) Q E.
Proof.
  intros Hm Hk w d Hdb HP. unfold try_catch.
  destruct (Hm w d Hdb HP) as [new [d1 [Hev [Hdb1 [Hnew Hres]]]]].
  destruct (body w) as [[a|e] w1]; simpl in *.
  - exists new, d1. auto.
  - destruct (Hk e w1 d1 Hdb1 Hres) as [new' [d2 [Hev' [Hdb2 [Hnew' Hres']]]]].
    exists (new ++ new'), d2. rewrite Hev', Hev, app_assoc.
    repeat split; auto. now apply Forall_app.
Qed.

Lemma triple_weaken {A} (P P' : Db -> Prop) (m : M A) (Q Q' : A -> Db -> Prop)
  (E E' : Error -> Db -> Prop) :
  triple I P m Q E ->
  (forall d, P' d -> P d) -> (forall a d, Q a d -> Q' a d) ->
  (forall e d, E e d -> E' e d) ->
  triple I P' m Q' E'.
Proof.
  intros Hm HP HQ HE w d Hdb HP'.
  destruct (Hm w d Hdb (HP d HP')) as [new [d1 [Hev [Hdb1 [Hnew Hres]]]]].
  exists new, d1. repeat split; auto.
  destruct (fst (m w)); auto.
Qed.

(** A computation that writes nothing keeps whatever held. *)
Lemma triple_emits {A} (P : Db -> Prop) (m : M A) :
  emits no_write m -> triple I P m (fun _ => P) (fun _ => P).
Proof.
  intros Hm w d Hdb HP. destruct (Hm w) as [Hsame [new [Hev Hnew]]].
  exists new, d. split; [assumption|]. split; [congruence|]. split.
  - eapply Forall_impl; [|exact Hnew]. now intros [ | | | | ].
  - now destruct (fst (m w)).
Qed.

Lemma triple_insert (P : Db -> Prop) (result : raceResults.Insert)
  (Q : unit -> Db -> Prop) (E : Error -> Db -> Prop) :
  (forall d, P d -> I (inserted result d) /\ Q tt (inserted result d)) ->
  triple I P (insertRaceResult result) Q E.
Proof.
  intros H w d Hdb HP. destruct (H d HP) as [HI HQ].
  exists [EvDb (inserted result d)], (inserted result d).
  unfold insertRaceResult, bind, getDb, commit. simpl. rewrite Hdb. simpl.
  repeat split; auto.
Qed.

Lemma triple_update (P : Db -> Prop) (jobId : string) (updates : Updates.t)
  (Q : unit -> Db -> Prop) (E : Error -> Db -> Prop) :
  (forall d, P d -> I (updated jobId updates d) /\ Q tt (updated jobId updates d)) ->
  triple I P (updateProcessingJob jobId updates) Q E.
Proof.
  intros H w d Hdb HP. destruct (H d HP) as [HI HQ].
  exists [EvDb (updated jobId updates d)], (updated jobId updates d).
  unfold updateProcessingJob, bind, getDb, commit. simpl. rewrite Hdb. simpl.
  repeat split; auto.
Qed.

(** A fact that does not depend on the database may be assumed. *)
Lemma triple_assume {A} (fact : Prop) (P : Db -> Prop) (m : M A)
  (Q : A -> Db -> Prop) (E : Error -> Db -> Prop) :
  (fact -> triple I P m Q E) -> triple I (fun d => fact /\ P d) m Q E.
Proof. intros H w d Hdb [Hf HP]. exact (H Hf w d Hdb HP). Qed.

Lemma triple_new_Date (P : Db -> Prop) (E : Error -> Db -> Prop) :
  triple I P new_Date (fun _ => P) E.
Proof.
  intros w d Hdb HP. exists [], d. simpl. rewrite app_nil_r. repeat split; auto.
Qed.

End Triples.

(* ----------------------------------------------------------------- *)
(** ** The rounds of the loop *)

Section JobStateLemmas.

Variable jobId : string.
Variable userId : Z.
Variable total : Z.
Variable before : list raceResults.Row.

Lemma job_rows_inserted (result : raceResults.Insert) (d : Db) :
  job_rows jobId (inserted result d) = job_rows jobId d.
Proof. reflexivity. Qed.

Lemma job_matches_apply (u : Updates.t) (j : processingJobs.Row) :
  job_matches jobId (apply_updates u j) = job_matches jobId j.
Proof. reflexivity. Qed.

Lemma job_rows_updated (u : Updates.t) (d : Db) :
  job_rows jobId (updated jobId u d) = map (apply_updates u) (job_rows jobId d).
Proof.
  unfold job_rows, updated. simpl.
  induction (processing_jobs d) as [|j l IH]; [reflexivity|].
  simpl. destruct (job_matches jobId j) eqn:Hm.
  - rewrite job_matches_apply, Hm. simpl. now rewrite IH.
  - rewrite Hm. exact IH.
Qed.

Lemma job_is_inserted st c done (result : raceResults.Insert) (d : Db) :
  job_is jobId userId total st c done d ->
  job_is jobId userId total st c done (inserted result d).
Proof. intros H. exact H. Qed.

Lemma job_is_counters st c c' done (d : Db) :
  job_is jobId userId total st c done d ->
  job_is jobId userId total st c' done (updated jobId (counter_updates c') d).
Proof.
  intros [j [Hrows [Hs [Ht [_ [_ [_ [Hu Hd]]]]]]]].
  exists (apply_updates (counter_updates c') j).
  rewrite job_rows_updated, Hrows. split; [reflexivity|].
  unfold row_is. simpl. repeat split; auto; apply Hd.
Qed.

Lemma job_is_status st st' c done (now : option Z) (d : Db) :
  job_is jobId userId total st c done d ->
  job_is jobId userId total st' c
    (match now with Some _ => true | None => done end)
    (updated jobId
       {| Updates.processedUrls := None; Updates.successCount := None;
          Updates.errorCount := None; Updates.status := Some st';
          Updates.completedAt := now |} d).
Proof.
  intros [j [Hrows [Hs [Ht [Hp [Hsc [He [Hu Hd]]]]]]]].
  eexists. rewrite job_rows_updated, Hrows. split; [reflexivity|].
  unfold row_is. simpl.
  repeat split; auto; destruct now; try apply Hd; try discriminate; auto.
Qed.

Lemma job_is_started c (d : Db) :
  job_is jobId userId total processingJobs.queued c false d ->
  job_is jobId userId total processingJobs.processing c false
    (updated jobId mark_processing d).
Proof. exact (@job_is_status _ processingJobs.processing c false None d). Qed.

Lemma job_is_finished c (now : Z) (d : Db) :
  job_is jobId userId total processingJobs.processing c false d ->
  job_is jobId userId total processingJobs.completed c true
    (updated jobId (mark_completed now) d).
Proof. exact (@job_is_status _ processingJobs.completed c false (Some now) d). Qed.

Lemma results_are_updated c u (d : Db) :
  results_are userId before c d -> results_are userId before c (updated jobId u d).
Proof. intros H. exact H. Qed.

End JobStateLemmas.

Section Rounds.

Variable rt : Runtime.
Variable jobId : string.
Variable userId : Z.
Variable total : Z.
Variable before : list raceResults.Row.

#[local] Abbreviation running := (running jobId userId total before).
#[local] Abbreviation orderly := (orderly jobId userId total before).
#[local] Abbreviation job_is := (job_is jobId userId total).
#[local] Abbreviation results_are := (results_are userId before).
#[local] Abbreviation after_try := (after_try jobId userId total before).
#[local] Abbreviation before_round := (before_round jobId userId total before).

Lemma results_are_inserted (c c' : Counters) (result : raceResults.Insert) (d : Db) :
  results_are c d ->
  raceResults.jobId result = None -> raceResults.userId result = userId ->
  errorCount c' =
    errorCount c
    + (if raceResults.Status_eqb (raceResults.status result) raceResults.error
       then 1 else 0) ->
  successCount c + errorCount c + 1 <= successCount c' + errorCount c' ->
  results_are c' (inserted result d).
Proof.
  intros [rows [Hr [Hun [Herr Hlen]]]] Hj Hu He Hs.
  exists (rows ++ [ {| raceResults.id := next_id (race_results d);
                       raceResults.cols := result |} ]).
  simpl. rewrite Hr at 1. rewrite <- app_assoc. split; [reflexivity|].
  split; [apply Forall_app; split; [assumption|]; now repeat constructor|].
  rewrite filter_app, !length_app. simpl. unfold is_error at 2. simpl.
  destruct (raceResults.Status_eqb (raceResults.status result) raceResults.error);
    simpl; lia.
Qed.

Lemma orderly_of_parts (c c' : Counters) (d : Db) :
  consistent total c -> job_is processingJobs.processing c false d ->
  results_are c' d -> orderly d.
Proof.
  intros Hc Hj [rows [Hr [Hun _]]]. split; [now exists c | now exists rows].
Qed.

Lemma triple_normalizeUrl (I P : Db -> Prop) (url : string) :
  triple I P (normalizeUrl rt url)
    (fun n d => P d /\ URL_href rt url = Some n)
    (fun _ d => P d /\ URL_href rt url = None).
Proof.
  intros w d Hdb HP. exists [], d. unfold normalizeUrl.
  destruct (URL_href rt url); simpl; rewrite app_nil_r; repeat split; auto.
Qed.

Lemma try_block_triple (url : string) (c : Counters) :
  triple orderly (before_round c) (try_block rt jobId userId url c)
    (after_try c) (fun _ => before_round c).
Proof.
  unfold try_block.
  eapply triple_bind with (Q := fun _ => before_round c).
  { eapply triple_weaken;
      [apply (triple_normalizeUrl orderly (before_round c) url) | | |].
    - intros d H; exact H.
    - intros a d [H _]; exact H.
    - intros e d [H _]; exact H. }
  intros normalizedUrl. simpl.
  eapply triple_bind.
  { apply triple_emits. apply emits_getCachedResult. }
  intros [hit|].
  - (* served from the cache *)
    apply triple_bind with
      (Q := fun _ => after_try c ({| processedCount := processedCount c + 1;
                                     successCount := successCount c + 1;
                                     errorCount := errorCount c |}, Continue));
      [|intros []; apply triple_ret; intros d H; exact H].
    apply triple_update. intros d [[Hc [Hj Hr]] Hlt].
    assert (Hc' : consistent total
                    {| processedCount := processedCount c + 1;
                       successCount := successCount c + 1;
                       errorCount := errorCount c |}).
    { unfold consistent in *. simpl. lia. }
    assert (Hj' := job_is_counters
                     {| processedCount := processedCount c + 1;
                        successCount := successCount c + 1;
                        errorCount := errorCount c |} Hj).
    assert (Hr' : results_are
                    {| processedCount := processedCount c + 1;
                       successCount := successCount c + 1;
                       errorCount := errorCount c |}
                    (updated jobId (counter_updates
                       {| processedCount := processedCount c + 1;
                          successCount := successCount c + 1;
                          errorCount := errorCount c |}) d)).
    { destruct Hr as [rows [H1 [H2 [H3 H4]]]]. exists rows. simpl.
      repeat split; auto. lia. }
    split.
    + eapply orderly_of_parts; eassumption.
    + simpl. split; [|reflexivity]. exact (conj Hc' (conj Hj' Hr')).
  - (* extracted *)
    eapply triple_bind.
    { apply triple_emits. apply quiet_extraction. }
    intros data.
    eapply triple_bind; [apply triple_new_Date|]. intros now.
    apply triple_bind with
      (Q := fun _ => after_try c ({| processedCount := processedCount c;
                                     successCount := successCount c + 1;
                                     errorCount := errorCount c |}, FallThrough));
      [|intros []; apply triple_ret; intros d H; exact H].
    apply triple_insert. intros d [[Hc [Hj Hr]] Hlt].
    assert (Hr' : results_are
                    {| processedCount := processedCount c;
                       successCount := successCount c + 1;
                       errorCount := errorCount c |}
                    (inserted (completed_row normalizedUrl (hashUrl normalizedUrl)
                                             data now userId) d)).
    { eapply results_are_inserted; try exact Hr; try reflexivity; simpl; lia. }
    split.
    + eapply orderly_of_parts; [exact Hc | exact Hj | exact Hr'].
    + simpl. split; [exact Hc|]. split; [exact Hlt|]. split; [exact Hj|].
      split; [exact Hr'|]. unfold consistent in Hc. lia.
Qed.

Lemma catch_block_triple (url : string) (c : Counters) (error : Error) :
  triple orderly (before_round c) (catch_block rt userId url c error)
    (after_try c) (fun _ d => before_round c d /\ URL_href rt url = None).
Proof.
  unfold catch_block.
  eapply triple_bind with (Q := fun _ => before_round c).
  { eapply triple_weaken;
      [apply (triple_normalizeUrl orderly (before_round c) url) | | |].
    - intros d H; exact H.
    - intros a d [H _]; exact H.
    - intros e d H; exact H. }
  intros normalizedUrl. simpl.
  eapply triple_bind with (Q := fun _ => before_round c).
  { apply triple_new_Date. }
  intros now.
  apply triple_bind with
    (Q := fun _ => after_try c ({| processedCount := processedCount c;
                                   successCount := successCount c;
                                   errorCount := errorCount c + 1 |}, FallThrough));
    [|intros []; apply triple_ret; intros d H; exact H].
  apply triple_insert. intros d [[Hc [Hj Hr]] Hlt].
  assert (Hr' : results_are
                  {| processedCount := processedCount c;
                     successCount := successCount c;
                     errorCount := errorCount c + 1 |}
                  (inserted (error_row normalizedUrl (hashUrl normalizedUrl)
                                       (message error) now userId) d)).
  { eapply results_are_inserted; try exact Hr; try reflexivity; simpl; lia. }
  split.
  - eapply orderly_of_parts; [exact Hc | exact Hj | exact Hr'].
  - simpl. split; [exact Hc|]. split; [exact Hlt|]. split; [exact Hj|].
    split; [exact Hr'|]. unfold consistent in Hc. lia.
Qed.

Lemma process_url_triple (url : string) (c : Counters) :
  triple orderly (before_round c) (process_url rt jobId userId url c)
    (fun c' d => running c' d /\ processedCount c' = processedCount c + 1)
    (fun _ d => before_round c d /\ URL_href rt url = None).
Proof.
  unfold process_url.
  eapply triple_bind.
  { eapply triple_try_catch; [apply try_block_triple|].
    intros e. apply catch_block_triple. }
  intros [c1 [|]].
  - apply triple_ret. intros d H. exact H.
  - apply triple_bind with
      (Q := fun _ d =>
              running {| processedCount := processedCount c1 + 1;
                         successCount := successCount c1;
                         errorCount := errorCount c1 |} d
              /\ processedCount c1 + 1 = processedCount c + 1);
      [|intros []; apply triple_ret; intros d H; exact H].
    apply triple_update.
    intros d [Hc [Hlt [Hj [Hr [Hp [Hsum [Hs He]]]]]]].
    assert (Hc' : consistent total
                    {| processedCount := processedCount c1 + 1;
                       successCount := successCount c1;
                       errorCount := errorCount c1 |}).
    { unfold consistent in *. simpl. lia. }
    assert (Hj' := job_is_counters
                     {| processedCount := processedCount c1 + 1;
                        successCount := successCount c1;
                        errorCount := errorCount c1 |} Hj).
    assert (Hr' : results_are
                    {| processedCount := processedCount c1 + 1;
                       successCount := successCount c1;
                       errorCount := errorCount c1 |}
                    (updated jobId (counter_updates
                       {| processedCount := processedCount c1 + 1;
                          successCount := successCount c1;
                          errorCount := errorCount c1 |}) d)).
    { destruct Hr as [rows [H1 [H2 [H3 H4]]]]. exists rows. simpl.
      repeat split; auto. }
    split.
    + eapply orderly_of_parts; eassumption.
    + simpl. split; [|lia]. exact (conj Hc' (conj Hj' Hr')).
Qed.

End Rounds.

(* ----------------------------------------------------------------- *)
(** ** The loop and the whole run *)

Section Loop.

Variable rt : Runtime.
Variable jobId : string.
Variable userId : Z.
Variable total : Z.
Variable before : list raceResults.Row.

#[local] Abbreviation running := (running jobId userId total before).
#[local] Abbreviation orderly := (orderly jobId userId total before).

Lemma for_each_url_triple (urls : list string) :
  forall c,
    triple orderly
      (fun d => running c d /\ processedCount c + Z.of_nat (length urls) <= total)
      (for_each_url rt jobId userId urls c)
      (fun c' d =>
         running c' d /\
         processedCount c' = processedCount c + Z.of_nat (length urls))
      (fun _ d =>
         (exists c', running c' d /\ processedCount c' < total) /\
         Exists (invalid rt) urls).
Proof.
  induction urls as [|url rest IH]; intros c.
  - apply triple_ret. intros d [H _]. split; [exact H | simpl; lia].
  - simpl for_each_url.
    eapply triple_bind with
      (Q := fun c' d =>
              (processedCount c' = processedCount c + 1
               /\ processedCount c + Z.of_nat (length (url :: rest)) <= total)
              /\ running c' d).
    + intros w d Hdb [Hrun Hle].
      destruct (@process_url_triple rt jobId userId total before url c w d Hdb)
        as [new [d' [Hev [Hdb' [Hnew Hres]]]]].
      { split; [exact Hrun|]. simpl length in Hle. lia. }
      exists new, d'. repeat split; try assumption.
      destruct (fst (process_url rt jobId userId url c w)).
      * destruct Hres as [H1 H2]. split; [split; [exact H2 | exact Hle] | exact H1].
      * destruct Hres as [[H1 H2] H3]. split.
        -- exists c. split; assumption.
        -- now left.
    + intros c'. apply triple_assume. intros [Hp Hle].
      eapply triple_weaken; [apply (IH c') | | |].
      * intros d H1. split; [exact H1|]. simpl length in Hle. lia.
      * intros c'' d [H1 H2]. split; [exact H1|]. simpl length. lia.
      * intros e d [H1 H2]. split; [exact H1 | now right].
Qed.

End Loop.

Lemma update_run (jobId : string) (u : Updates.t) (w : World) (d : Db) :
  db w = Some d ->
  updateProcessingJob jobId u w
  = (Ok tt, {| db := Some (updated jobId u d); clock := clock w;
               sessions := sessions w;
               events := events w ++ [EvDb (updated jobId u d)] |}).
Proof.
  intros H. unfold updateProcessingJob, bind, getDb, commit. now rewrite H.
Qed.

Lemma create_run (job : processingJobs.Insert) (w : World) (d : Db) :
  db w = Some d ->
  createProcessingJob job w
  = (Ok tt, {| db := Some (created job (clock w) d); clock := clock w;
               sessions := sessions w;
               events := events w ++ [EvDb (created job (clock w) d)] |}).
Proof.
  intros H. unfold createProcessingJob, bind, getDb, new_Date, commit.
  now rewrite H.
Qed.

Section Runs.

Variable rt : Runtime.
Variable urls : list string.
Variable userId : Z.
Variable jobId : string.

#[local] Abbreviation total := (Z.of_nat (length urls)).

Lemma job_rows_created (now : Z) (d : Db) :
  job_rows jobId d = [] ->
  job_is jobId userId total processingJobs.queued zero false
    (created (new_job urls userId jobId) now d).
Proof.
  intros Hfresh. eexists. unfold job_rows, created. simpl.
  unfold job_rows in Hfresh. rewrite filter_app, Hfresh. simpl.
  unfold job_matches at 1. simpl. rewrite String.eqb_refl. split; [reflexivity|].
  unfold row_is. simpl. repeat split; try reflexivity; try congruence.
Qed.

Lemma job_run_unfold (w : World) (d0 : Db) :
  db w = Some d0 ->
  let d1 := created (new_job urls userId jobId) (clock w) d0 in
  let d2 := updated jobId mark_processing d1 in
  job_run rt urls userId jobId w
  = match for_each_url rt jobId userId urls zero
            {| db := Some d2; clock := clock w; sessions := sessions w;
               events := (events w ++ [EvDb d1]) ++ [EvDb d2] |} with
    | (Ok _, w3) => updateProcessingJob jobId (mark_completed (clock w3)) w3
    | (Throw e, w3) => (Throw e, w3)
    end.
Proof.
  intros Hdb d1 d2. unfold job_run, processUrls. unfold bind at 1.
  rewrite (create_run _ w Hdb). fold d1.
  unfold bind at 1. erewrite update_run by reflexivity. fold d2. simpl.
  unfold bind at 1.
  destruct (for_each_url rt jobId userId urls zero _) as [[c|e] w3];
    reflexivity.
Qed.

(** The course of a run: the row is created, marked as processing, the
    loop runs, and the row is marked as completed unless the loop was
    left by an exception. *)
Lemma job_run_trace (w : World) (d0 : Db) :
  db w = Some d0 -> job_rows jobId d0 = [] ->
  let before := race_results d0 in
  let d1 := created (new_job urls userId jobId) (clock w) d0 in
  let d2 := updated jobId mark_processing d1 in
  exists loop_events d3 c w',
    Forall (ev_ok (orderly jobId userId total before)) loop_events /\
    running jobId userId total before c d3 /\
    snd (job_run rt urls userId jobId w) = w' /\
    ((exists now,
        fst (job_run rt urls userId jobId w) = Ok tt /\
        processedCount c = total /\
        events w' = events w ++ [EvDb d1; EvDb d2] ++ loop_events
                    ++ [EvDb (updated jobId (mark_completed now) d3)] /\
        db w' = Some (updated jobId (mark_completed now) d3))
     \/
     (exists e,
        fst (job_run rt urls userId jobId w) = Throw e /\
        Exists (invalid rt) urls /\ processedCount c < total /\
        events w' = events w ++ [EvDb d1; EvDb d2] ++ loop_events /\
        db w' = Some d3)).
Proof.
  intros Hdb Hfresh before d1 d2.
  assert (Hstart : running jobId userId total before zero d2).
  { split; [unfold consistent; simpl; lia|]. split.
    - apply job_is_started. now apply job_rows_created.
    - exists []. simpl. rewrite app_nil_r. repeat split; try constructor. lia. }
  rewrite (job_run_unfold w Hdb). fold d1 d2.
  set (w2 := {| db := Some d2; clock := clock w; sessions := sessions w;
                events := (events w ++ [EvDb d1]) ++ [EvDb d2] |}).
  destruct (@for_each_url_triple rt jobId userId total before urls zero w2 d2)
    as [new [d3 [Hev [Hdb3 [Hnew Hres]]]]]; [reflexivity| |].
  { split; [exact Hstart | simpl; lia]. }
  destruct (for_each_url rt jobId userId urls zero w2) as [[c|e] w3];
    simpl in Hev, Hdb3, Hres.
  - destruct Hres as [Hrun Hp].
    rewrite (update_run _ _ w3 Hdb3). simpl.
    exists new, d3, c. eexists. split; [exact Hnew|]. split; [exact Hrun|].
    split; [reflexivity|]. left. exists (clock w3).
    split; [reflexivity|]. split; [simpl in Hp; lia|]. simpl.
    split; [|reflexivity]. rewrite Hev.
    rewrite <- !app_assoc. reflexivity.
  - destruct Hres as [[c [Hrun Hlt]] Hinv].
    exists new, d3, c, w3. split; [exact Hnew|]. split; [exact Hrun|].
    split; [reflexivity|]. right. exists e.
    split; [reflexivity|]. split; [exact Hinv|]. split; [exact Hlt|].
    split; [|exact Hdb3]. rewrite Hev.
    rewrite <- !app_assoc. reflexivity.
Qed.

End Runs.

(* ----------------------------------------------------------------- *)
(** ** Counters and status of a job *)

Section JobObservations.

Variable rt : Runtime.
Variable urls : list string.
Variable userId : Z.
Variable jobId : string.

#[local] Abbreviation total := (Z.of_nat (length urls)).

Lemma poll_job_is st c done (d : Db) :
  job_is jobId userId total st c done d ->
  exists j, poll jobId userId d = Ok j /\ job_rows jobId d = [j]
            /\ row_is userId total st c done j.
Proof.
  intros [j [Hrows Hrow]]. exists j.
  unfold poll, getJobStatus, owned_job, getProcessingJob, bind, getDb, ret, limit.
  simpl. unfold job_rows in Hrows. rewrite Hrows. simpl.
  pose proof Hrow as [_ [_ [_ [_ [_ [Hu _]]]]]].
  rewrite Hu, Z.eqb_refl. simpl. split; [reflexivity|]. split; [exact Hrows|].
  exact Hrow.
Qed.

Lemma balanced_job_is st c done (d : Db) :
  consistent total c -> job_is jobId userId total st c done d ->
  exists j, poll jobId userId d = Ok j /\ job_rows jobId d = [j] /\ balanced j
            /\ processingJobs.status j = st.
Proof.
  intros Hc Hj. destruct (poll_job_is Hj) as [j [Hpoll [Hrows Hrow]]].
  exists j. split; [exact Hpoll|]. split; [exact Hrows|].
  destruct Hrow as [Hs [Ht [Hp [Hsc [He _]]]]].
  unfold balanced, consistent in *. rewrite Hp, Hsc, He, Ht. split; [lia|exact Hs].
Qed.

Lemma consistent_zero : consistent total zero.
Proof. unfold consistent. simpl. lia. Qed.

End JobObservations.

Section RunObservations.

Variable rt : Runtime.
Variable urls : list string.
Variable userId : Z.
Variable jobId : string.

#[local] Abbreviation total := (Z.of_nat (length urls)).

Lemma orderly_job_is (before : list raceResults.Row) (d : Db) :
  orderly jobId userId total before d ->
  exists c, consistent total c
            /\ job_is jobId userId total processingJobs.processing c false d.
Proof. intros [H _]. exact H. Qed.

(** Every write of a run leaves the job with one row that agrees with
    consistent counters; so does the end of the run. *)
Lemma job_run_snapshots (w : World) (d0 : Db) :
  db w = Some d0 -> job_rows jobId d0 = [] ->
  let w' := snd (job_run rt urls userId jobId w) in
  (forall d, In (EvDb d) (added w w') \/ db w' = Some d ->
             exists st c done,
               consistent total c /\ job_is jobId userId total st c done d)
  /\ exists d, db w' = Some d.
Proof.
  intros Hdb Hfresh w'.
  destruct (job_run_trace rt urls userId jobId w Hdb Hfresh)
    as [loop [d3 [c [w'' [Hloop [Hrun [Hw Hend]]]]]]].
  fold w' in Hw. subst w''.
  set (d1 := created (new_job urls userId jobId) (clock w) d0) in *.
  set (d2 := updated jobId mark_processing d1) in *.
  assert (H1 : job_is jobId userId total processingJobs.queued zero false d1)
    by now apply job_rows_created.
  assert (H2 : job_is jobId userId total processingJobs.processing zero false d2)
    by exact (job_is_started H1).
  destruct Hrun as [Hc [Hj3 _]].
  assert (Hin_loop : forall d, In (EvDb d) loop ->
            exists st c done,
              consistent total c /\ job_is jobId userId total st c done d).
  { intros d Hin. rewrite Forall_forall in Hloop.
    destruct (orderly_job_is (Hloop _ Hin)) as [c' [Hc' Hj']].
    now exists processingJobs.processing, c', false. }
  destruct Hend as [[now [_ [_ [Hev Hdb']]]] | [e [_ [_ [_ [Hev Hdb']]]]]].
  - assert (H4 := job_is_finished now Hj3).
    split; [|eexists; exact Hdb'].
    intros d [Hin | Hd].
    + rewrite (@added_app w w' _ Hev) in Hin.
      simpl in Hin. destruct Hin as [Hd | [Hd | Hin]].
      * inversion Hd; subst d. exists processingJobs.queued, zero, false.
        split; [apply consistent_zero | exact H1].
      * inversion Hd; subst d. exists processingJobs.processing, zero, false.
        split; [apply consistent_zero | exact H2].
      * apply in_app_or in Hin. destruct Hin as [Hin | [Hd | []]].
        -- now apply Hin_loop.
        -- inversion Hd; subst d. exists processingJobs.completed, c, true.
           split; [exact Hc | exact H4].
    + rewrite Hdb' in Hd. inversion Hd; subst d.
      exists processingJobs.completed, c, true. split; [exact Hc | exact H4].
  - split; [|eexists; exact Hdb'].
    intros d [Hin | Hd].
    + rewrite (@added_app w w' _ Hev) in Hin.
      simpl in Hin. destruct Hin as [Hd | [Hd | Hin]].
      * inversion Hd; subst d. exists processingJobs.queued, zero, false.
        split; [apply consistent_zero | exact H1].
      * inversion Hd; subst d. exists processingJobs.processing, zero, false.
        split; [apply consistent_zero | exact H2].
      * now apply Hin_loop.
    + rewrite Hdb' in Hd. inversion Hd; subst d.
      exists processingJobs.processing, c, false. split; [exact Hc | exact Hj3].
Qed.

End RunObservations.



Lemma statuses_app (jobId : string) (l1 l2 : list Event) :
  statuses jobId (l1 ++ l2) = statuses jobId l1 ++ statuses jobId l2.
Proof. unfold statuses. apply flat_map_app. Qed.

Lemma statuses_write (jobId : string) (userId total : Z) st c done (d : Db) :
  job_is jobId userId total st c done d -> statuses jobId [EvDb d] = [st].
Proof.
  intros [j [Hrows [Hs _]]]. unfold statuses. simpl.
  rewrite Hrows. simpl. now rewrite Hs.
Qed.

Lemma statuses_loop (jobId : string) (userId total : Z)
  (before : list raceResults.Row) (loop : list Event) :
  Forall (ev_ok (orderly jobId userId total before)) loop ->
  exists k, statuses jobId loop = repeat processingJobs.processing k.
Proof.
  induction 1 as [|ev l Hev _ [k IH]]; [now exists O|].
  change (ev :: l) with ([ev] ++ l). rewrite statuses_app, IH.
  destruct ev as [ | | | |d]; try (now exists k).
  destruct Hev as [[c [_ Hj]] _].
  rewrite (statuses_write Hj). now exists (S k).
Qed.

Lemma forward_course (k : nat) (tail : list processingJobs.Status) :
  tail = [] \/ tail = [processingJobs.completed] ->
  Sorted forward (repeat processingJobs.processing k ++ tail).
Proof.
  intros Htail. induction k as [|k IH].
  - destruct Htail as [-> | ->]; repeat constructor.
  - simpl. constructor; [exact IH|].
    destruct k; simpl.
    + destruct Htail as [-> | ->]; constructor. right. constructor.
    + constructor. now left.
Qed.

(** C9.  The statuses of a job, write after write, are [queued], then
    [processing] one or more times, then [completed] when the loop has
    run through all URLs: each observation repeats the one before or is
    one step forward along queued, processing, completed.  At the end,
    a row whose [processedUrls] equals [totalUrls] has status
    [completed] and a completion time; this is the case whenever every
    URL of the batch normalizes. *)
Theorem C9_status_moves_forward (rt : Runtime) (urls : list string) (userId : Z)
  (jobId : string) (w : World) (d0 : Db) :
  db w = Some d0 -> job_rows jobId d0 = [] ->
  let run := job_run rt urls userId jobId w in
  (exists k,
     statuses jobId (added w (snd run))
     = processingJobs.queued :: repeat processingJobs.processing (S k)
       ++ match fst run with Ok _ => [processingJobs.completed] | Throw _ => [] end)
  /\ Sorted forward (statuses jobId (added w (snd run)))
  /\ (exists d j,
        db (snd run) = Some d /\ poll jobId userId d = Ok j /\
        (processingJobs.processedUrls j = processingJobs.totalUrls j ->
         processingJobs.status j = processingJobs.completed
         /\ processingJobs.completedAt j <> None) /\
        (fst run = Ok tt ->
         processingJobs.processedUrls j = processingJobs.totalUrls j))
  /\ (Forall (fun u => ~ invalid rt u) urls -> fst run = Ok tt).
Proof.
  intros Hdb Hfresh run.
  destruct (job_run_trace rt urls userId jobId w Hdb Hfresh)
    as [loop [d3 [c [w' [Hloop [Hrun [Hw Hend]]]]]]].
  fold run in Hw, Hend. subst w'.
  set (d1 := created (new_job urls userId jobId) (clock w) d0) in *.
  set (d2 := updated jobId mark_processing d1) in *.
  set (total := Z.of_nat (length urls)) in *.
  assert (H1 : job_is jobId userId total processingJobs.queued zero false d1)
    by now apply job_rows_created.
  assert (H2 : job_is jobId userId total processingJobs.processing zero false d2)
    by exact (job_is_started H1).
  destruct (statuses_loop Hloop) as [k Hk].
  destruct Hrun as [Hc [Hj3 _]].
  assert (Hcourse : exists k,
     statuses jobId (added w (snd run))
     = processingJobs.queued :: repeat processingJobs.processing (S k)
       ++ match fst run with Ok _ => [processingJobs.completed] | Throw _ => [] end).
  { exists k.
    destruct Hend as [[now [Hok [_ [Hev _]]]] | [e [Hthrow [_ [_ [Hev _]]]]]].
    - rewrite (@added_app w (snd run) _ Hev), Hok.
      change [EvDb d1; EvDb d2] with ([EvDb d1] ++ [EvDb d2]).
      rewrite !statuses_app, (statuses_write H1), (statuses_write H2), Hk.
      rewrite (statuses_write
                 (job_is_finished now Hj3)).
      reflexivity.
    - rewrite (@added_app w (snd run) _ Hev), Hthrow.
      change [EvDb d1; EvDb d2] with ([EvDb d1] ++ [EvDb d2]).
      rewrite !statuses_app, (statuses_write H1), (statuses_write H2), Hk.
      rewrite app_nil_r. reflexivity. }
  split; [exact Hcourse|]. split.
  { destruct Hcourse as [k' ->]. constructor.
    - apply (forward_course (S k')). destruct (fst run); auto.
    - simpl. constructor. right. constructor. }
  split.
  - destruct Hend as [[now [Hok [Hp [_ Hdb']]]] | [e [Hthrow [_ [Hlt [_ Hdb']]]]]].
    + destruct (poll_job_is urls
                  (job_is_finished now Hj3))
        as [j [Hpoll [_ [Hs [Ht [Hpj [_ [_ [_ Hd]]]]]]]]].
      eexists. exists j. split; [exact Hdb'|]. split; [exact Hpoll|]. split.
      * intros _. split; [exact Hs | now apply Hd].
      * intros _. rewrite Hpj, Ht. exact Hp.
    + destruct (poll_job_is urls Hj3)
        as [j [Hpoll [_ [Hs [Ht [Hpj _]]]]]].
      exists d3, j. split; [exact Hdb'|]. split; [exact Hpoll|]. split.
      * intros Heq. rewrite Hpj, Ht in Heq. fold total in Heq. lia.
      * rewrite Hthrow. discriminate.
  - intros Hvalid.
    destruct Hend as [[now [Hok _]] | [e [_ [Hinv _]]]]; [exact Hok|].
    exfalso. apply Exists_exists in Hinv. destruct Hinv as [u [Hin Hu]].
    rewrite Forall_forall in Hvalid. exact (Hvalid u Hin Hu).
Qed.

(** Every URL of the sample batch normalizes: the run completes. *)
Lemma C9_status_moves_forward_witness :
  let w := Sample.fresh in
  let run := job_run Sample.rt Sample.batch 1 "job-1" w in
  db w = Some Lite.empty_db /\ job_rows "job-1" Lite.empty_db = [] /\
  Forall (fun u => ~ invalid Sample.rt u) Sample.batch /\
  fst run = Ok tt /\
  Sorted forward (statuses "job-1" (added w (snd run))).
Proof.
  intros w run.
  assert (Hvalid : Forall (fun u => ~ invalid Sample.rt u) Sample.batch)
    by (repeat constructor; vm_compute; discriminate).
  destruct (C9_status_moves_forward Sample.rt Sample.batch 1 "job-1" w
              (d0 := Lite.empty_db) eq_refl eq_refl)
    as [_ [Hsorted [_ Hok]]].
  split; [reflexivity|]. split; [reflexivity|]. split; [exact Hvalid|].
  split; [exact (Hok Hvalid) | exact Hsorted].
Defined.

(* ----------------------------------------------------------------- *)
(** ** A round whose extraction fails *)

Lemma bind_ok [A B] [m : M A] (k : A -> M B) [w w1 : World] [a : A] :
  m w = (Ok a, w1) -> bind m k w = k a w1.
Proof. intros H. unfold bind. now rewrite H. Qed.

Lemma bind_throw [A B] [m : M A] (k : A -> M B) [w w1 : World] [e : Error] :
  m w = (Throw e, w1) -> bind m k w = (Throw e, w1).
Proof. intros H. unfold bind. now rewrite H. Qed.

Lemma try_throw [A] [body : M A] (handler : Error -> M A) [w w1 : World]
  [e : Error] [r : Outcome A * World] :
  body w = (Throw e, w1) -> handler e w1 = r -> try_catch body handler w = r.
Proof. intros H Hh. unfold try_catch. now rewrite H. Qed.

Lemma insert_run (result : raceResults.Insert) (w : World) (d : Db) :
  db w = Some d ->
  insertRaceResult result w
  = (Ok tt, {| db := Some (inserted result d); clock := clock w;
               sessions := sessions w;
               events := events w ++ [EvDb (inserted result d)] |}).
Proof.
  intros H. unfold insertRaceResult, bind, getDb, commit. now rewrite H.
Qed.

Section FailedRound.

Variable rt : Runtime.
Variable jobId : string.
Variable userId : Z.

Lemma getCachedResult_state (urlHash : string) (w : World) :
  snd (getCachedResult urlHash userId w) = w.
Proof. now rewrite getCachedResult_run. Qed.

(** When the extraction of a URL that normalizes fails for good, the
    round writes an error record with the message of the failure,
    counts the URL as processed and as an error, and returns. *)
Lemma process_url_failure (url n : string) (c : Counters) (w w2 : World)
  (e : Error) (d : Db) :
  URL_href rt url = Some n ->
  fst (getCachedResult (hashUrl n) userId w) = Ok None ->
  retryWithBackoff (extractRaceResults rt n) 3 1000 w = (Throw e, w2) ->
  db w = Some d ->
  let d1 := inserted (error_row n (hashUrl n) (message e) (clock w2) userId) d in
  let d2 := updated jobId (counter_updates (one_more_error c)) d1 in
  process_url rt jobId userId url c w
  = (Ok (one_more_error c),
     {| db := Some d2; clock := clock w2; sessions := sessions w2;
        events := events w2 ++ [EvDb d1; EvDb d2] |}).
Proof.
  intros Hurl Hmiss Hretry Hdb d1 d2.
  assert (Hdb2 : db w2 = Some d).
  { destruct (quiet_extraction rt n w) as [H _]. rewrite Hretry in H.
    simpl in H. congruence. }
  assert (Hnorm : forall w0, normalizeUrl rt url w0 = (Ok n, w0))
    by (intros w0; unfold normalizeUrl; now rewrite Hurl).
  assert (Hcache : getCachedResult (hashUrl n) userId w = (Ok None, w)).
  { rewrite (surjective_pairing (getCachedResult (hashUrl n) userId w)).
    now rewrite Hmiss, getCachedResult_state. }
  assert (Htry : try_block rt jobId userId url c w = (Throw e, w2)).
  { unfold try_block.
    rewrite (bind_ok _ (Hnorm w)), (bind_ok _ Hcache).
    now rewrite (bind_throw _ Hretry). }
  assert (Hcatch : catch_block rt userId url c e w2
                   = (Ok ({| processedCount := processedCount c;
                             successCount := successCount c;
                             errorCount := errorCount c + 1 |}, FallThrough),
                      {| db := Some d1; clock := clock w2; sessions := sessions w2;
                         events := events w2 ++ [EvDb d1] |})).
  { unfold catch_block.
    rewrite (bind_ok _ (Hnorm w2)).
    rewrite (bind_ok (m := new_Date) (w := w2) (w1 := w2) (a := clock w2) _ eq_refl).
    now rewrite (bind_ok _ (insert_run _ w2 Hdb2)). }
  unfold process_url.
  rewrite (bind_ok _ (try_throw _ Htry Hcatch)). simpl.
  assert (Hupd := update_run jobId (counter_updates (one_more_error c))
                    {| db := Some d1; clock := clock w2; sessions := sessions w2;
                       events := events w2 ++ [EvDb d1] |} (d := d1) eq_refl).
  unfold one_more_error in Hupd.
  rewrite (bind_ok _ Hupd).
  unfold ret, d2, one_more_error. simpl. rewrite <- app_assoc. reflexivity.
Qed.

(** A URL that does not normalize leaves the round by an exception:
    the [catch] block normalizes it again before it writes anything, so
    no record is written and no counter is updated. *)
Lemma process_url_invalid (url : string) (c : Counters) (w : World) :
  invalid rt url ->
  process_url rt jobId userId url c w
  = (Throw (mkError ("Invalid URL: " ++ url)%string), w).
Proof.
  intros Hinv. unfold invalid in Hinv.
  assert (Hnorm : forall w0, normalizeUrl rt url w0
                             = (Throw (mkError ("Invalid URL: " ++ url)%string), w0))
    by (intros w0; unfold normalizeUrl; now rewrite Hinv).
  assert (Htry : try_block rt jobId userId url c w
                 = (Throw (mkError ("Invalid URL: " ++ url)%string), w))
    by (unfold try_block; now rewrite (bind_throw _ (Hnorm w))).
  unfold process_url.
  apply bind_throw. apply (try_throw _ Htry).
  unfold catch_block. now rewrite (bind_throw _ (Hnorm w)).
Qed.

(** The extraction of a URL without a profile under the retry wrapper:
    three invocations, none of which opens a page, and two waits. *)
Lemma retry_unsupported (n : string) (w : World) :
  detectPlatform rt n = None ->
  retryWithBackoff (extractRaceResults rt n) 3 1000 w
  = (Throw (mkError ("Unsupported race timing platform: " ++ n)%string),
     {| db := db w; clock := clock w + 3000; sessions := sessions w;
        events := events w ++ [EvExtract n; EvTimer 1000; EvExtract n;
                               EvTimer 2000; EvExtract n] |}).
Proof.
  intros Hp. unfold retryWithBackoff. simpl retry_loop. unfold try_catch.
  rewrite (extract_unsupported rt n w Hp).
  unfold bind at 1. simpl. unfold setTimeout, bind at 1, log, elapse. simpl.
  match goal with
  | |- context [extractRaceResults rt n ?w1] =>
      rewrite (extract_unsupported rt n w1 Hp)
  end.
  simpl.
  match goal with
  | |- context [extractRaceResults rt n ?w1] =>
      rewrite (extract_unsupported rt n w1 Hp)
  end.
  unfold bind, ret, throw, after_refusal. simpl.
  rewrite <- !app_assoc. simpl.
  replace (clock w + 1000 + 2000) with (clock w + 3000) by lia.
  reflexivity.
Qed.

End FailedRound.

(* ----------------------------------------------------------------- *)
(** ** URLs without a platform profile *)

(** C7, as the code has it.  For a URL that normalizes to [n], has no
    entry in the cache and matches no registered profile, a round of
    the loop invokes the extraction three times under the retry
    wrapper, waiting 1000 ms and 2000 ms in between; no page is opened.
    It then writes an error record with the unsupported-platform
    message, counts the URL as processed and as an error, writes the
    counters and returns, so that the loop goes on to the next URL. *)
Theorem C7_unsupported_platform_recorded_after_retries (rt : Runtime)
  (jobId : string) (userId : Z) (url n : string) (c : Counters) (w : World)
  (d : Db) :
  URL_href rt url = Some n ->
  detectPlatform rt n = None ->
  fst (getCachedResult (hashUrl n) userId w) = Ok None ->
  db w = Some d ->
  let d1 :=
    inserted (error_row n (hashUrl n)
                ("Unsupported race timing platform: " ++ n)%string
                (clock w + 3000) userId) d in
  let d2 := updated jobId (counter_updates (one_more_error c)) d1 in
  exists w',
    process_url rt jobId userId url c w = (Ok (one_more_error c), w') /\
    sessions w' = sessions w /\
    db w' = Some d2 /\
    added w w' = [EvExtract n; EvTimer 1000; EvExtract n; EvTimer 2000;
                  EvExtract n; EvDb d1; EvDb d2] /\
    extractions (added w w') = [n; n; n] /\
    timers (added w w') = [1000; 2000].
Proof.
  intros Hurl Hp Hmiss Hdb d1 d2.
  pose proof (@process_url_failure rt jobId userId url n c w _ _ d Hurl Hmiss
                (retry_unsupported rt n w Hp) Hdb) as Hrun.
  simpl in Hrun. fold d1 d2 in Hrun.
  match type of Hrun with _ = (_, ?W) => set (w' := W) in *; exists w' end.
  assert (Hadded : added w w'
          = [EvExtract n; EvTimer 1000; EvExtract n; EvTimer 2000;
             EvExtract n; EvDb d1; EvDb d2]).
  { apply added_app. unfold w'. simpl. now rewrite <- app_assoc. }
  rewrite Hadded. split; [exact Hrun|]. repeat split; reflexivity.
Qed.

(** An unsupported URL in an empty database. *)
Lemma C7_unsupported_platform_recorded_after_retries_witness :
  let url := "https://example.com/results" in
  let w := Sample.fresh in
  URL_href Sample.rt url = Some url /\
  detectPlatform Sample.rt url = None /\
  fst (getCachedResult (hashUrl url) 1 w) = Ok None /\
  db w = Some Lite.empty_db /\
  exists w',
    process_url Sample.rt "job-1" 1 url zero w = (Ok (one_more_error zero), w') /\
    sessions w' = sessions w /\
    extractions (added w w') = [url; url; url] /\
    timers (added w w') = [1000; 2000].
Proof.
  intros url w.
  assert (H1 : URL_href Sample.rt url = Some url) by reflexivity.
  assert (H2 : detectPlatform Sample.rt url = None) by reflexivity.
  assert (H3 : fst (getCachedResult (hashUrl url) 1 w) = Ok None) by reflexivity.
  assert (H4 : db w = Some Lite.empty_db) by reflexivity.
  destruct (@C7_unsupported_platform_recorded_after_retries
              Sample.rt "job-1" 1 url url zero w Lite.empty_db H1 H2 H3 H4)
    as [w' [Hrun [Hs [_ [_ [He Ht]]]]]].
  repeat (split; [assumption|]).
  exists w'. repeat (split; [assumption|]). assumption.
Defined.

(** C7, as stated, fails: the extraction of an unsupported URL is
    invoked three times, with the two waits of the retry wrapper,
    before the error is recorded. *)
Lemma C7_counterexample :
  let url := "https://example.com/results" in
  let w := Sample.fresh in
  let w' := snd (process_url Sample.rt "job-1" 1 url zero w) in
  detectPlatform Sample.rt url = None /\
  ~ (length (extractions (added w w')) <= 1)%nat /\
  extractions (added w w') = [url; url; url] /\
  timers (added w w') = [1000; 2000].
Proof.
  intros url w w'.
  assert (He : extractions (added w w') = [url; url; url])
    by (vm_compute; reflexivity).
  split; [reflexivity|]. split; [rewrite He; simpl; lia|].
  split; [exact He | vm_compute; reflexivity].
Qed.

(* ----------------------------------------------------------------- *)
(** ** Submissions *)

Section Submissions.

Variable rt : Runtime.
Variable urls : list string.
Variable userId : Z.
Variable jobId : string.

Lemma create_total (job : processingJobs.Insert) (w : World) :
  exists w1, createProcessingJob job w = (Ok tt, w1).
Proof.
  unfold createProcessingJob, bind, getDb, new_Date, commit, ret.
  destruct (db w); eexists; reflexivity.
Qed.

(** An accepted submission is answered and leaves the world that the
    run of its job leaves. *)
Lemma submit_accepted (w : World) :
  input_ok rt urls = true ->
  submit_and_process rt urls userId jobId w
  = (Ok {| submitted_jobId := jobId;
           submitted_status := processingJobs.queued;
           submitted_totalUrls := Z.of_nat (length urls) |},
     snd (job_run rt urls userId jobId w)).
Proof.
  intros Hok. unfold submit_and_process, extractResults, job_run, background.
  rewrite Hok. unfold bind, try_catch, ret.
  destruct (create_total (new_job urls userId jobId) w) as [w1 ->].
  destruct (processUrls rt urls jobId userId w1) as [[[]|e] w2]; reflexivity.
Qed.

Lemma submit_rejected (w : World) :
  input_ok rt urls = false ->
  submit_and_process rt urls userId jobId w = (Throw (mkError "BAD_REQUEST"), w).
Proof.
  intros Hno. unfold submit_and_process, extractResults.
  rewrite Hno. reflexivity.
Qed.

Hypothesis validator_sound : forall u, z_string_url rt u = true -> ~ invalid rt u.

Lemma input_ok_valid : input_ok rt urls = true -> Forall (fun u => ~ invalid rt u) urls.
Proof.
  unfold input_ok. rewrite !andb_true_iff. intros [[H _] _].
  rewrite forallb_forall in H. apply Forall_forall.
  intros u Hin. apply validator_sound. now apply H.
Qed.

Lemma invalid_not_ok : Exists (invalid rt) urls -> input_ok rt urls = false.
Proof.
  intros Hex. destruct (input_ok rt urls) eqn:Hok; [|reflexivity].
  exfalso. apply input_ok_valid in Hok.
  apply Exists_exists in Hex. destruct Hex as [u [Hin Hu]].
  rewrite Forall_forall in Hok. exact (Hok u Hin Hu).
Qed.

End Submissions.

(** C1, as the code has it.  A batch with a URL that fails
    normalization is rejected when it is submitted: no job is created
    and nothing is processed.  In a batch that is accepted every URL
    normalizes, and its job is run to the end: the job is [completed]
    with a completion time, all its URLs are counted as processed, each
    as a success or as an error, and as many error records were written
    as errors were counted.  In a round of the loop, a URL whose
    extraction fails for good gets an error record with the message of
    the failure, is counted as processed and as an error, and the round
    returns, so that the loop goes on. *)
Theorem C1_invalid_rejected_failures_contained (rt : Runtime)
  (urls : list string) (userId : Z) (jobId : string) (w : World) (d0 : Db) :
  (forall u, z_string_url rt u = true -> ~ invalid rt u) ->
  db w = Some d0 -> job_rows jobId d0 = [] ->
  (Exists (invalid rt) urls ->
   submit_and_process rt urls userId jobId w = (Throw (mkError "BAD_REQUEST"), w))
  /\
  (input_ok rt urls = true ->
   Forall (fun u => ~ invalid rt u) urls /\
   exists answer w' d j rows,
     submit_and_process rt urls userId jobId w = (Ok answer, w') /\
     db w' = Some d /\ poll jobId userId d = Ok j /\
     processingJobs.status j = processingJobs.completed /\
     processingJobs.completedAt j <> None /\
     processingJobs.totalUrls j = Z.of_nat (length urls) /\
     processingJobs.processedUrls j = Z.of_nat (length urls) /\
     processingJobs.successCount j + processingJobs.errorCount j
     = Z.of_nat (length urls) /\
     race_results d = race_results d0 ++ rows /\
     Z.of_nat (length (filter is_error rows)) = processingJobs.errorCount j)
  /\
  (forall url n c w1 w2 e d,
     URL_href rt url = Some n ->
     fst (getCachedResult (hashUrl n) userId w1) = Ok None ->
     retryWithBackoff (extractRaceResults rt n) 3 1000 w1 = (Throw e, w2) ->
     db w1 = Some d ->
     exists w3,
       process_url rt jobId userId url c w1 = (Ok (one_more_error c), w3) /\
       db w3
       = Some (updated jobId (counter_updates (one_more_error c))
                 (inserted (error_row n (hashUrl n) (message e) (clock w2) userId)
                           d))).
Proof.
  intros Hsound Hdb Hfresh. split; [|split].
  - intros Hex. apply submit_rejected. now apply invalid_not_ok.
  - intros Hok.
    assert (Hvalid := @input_ok_valid rt urls Hsound Hok).
    split; [exact Hvalid|].
    rewrite (@submit_accepted rt urls userId jobId w Hok).
    destruct (job_run_trace rt urls userId jobId w Hdb Hfresh)
      as [loop [d3 [c [w' [_ [Hrun [Hw Hend]]]]]]].
    destruct Hend as [[now [_ [Hp [_ Hdb']]]] | [e [_ [Hinv _]]]].
    + destruct Hrun as [Hc [Hj [rows [Hrows [_ [Herr _]]]]]].
      destruct (poll_job_is urls (job_is_finished now Hj))
        as [j [Hpoll [_ [Hs [Ht [Hpj [Hsj [Hej [_ Hd]]]]]]]]].
      eexists. exists w', (updated jobId (mark_completed now) d3), j, rows.
      rewrite Hw. split; [reflexivity|]. split; [exact Hdb'|].
      split; [exact Hpoll|]. split; [exact Hs|].
      split; [now apply Hd|]. split; [exact Ht|].
      split; [now rewrite Hpj|].
      unfold consistent in Hc.
      split; [rewrite Hsj, Hej; lia|].
      split; [exact Hrows | now rewrite Hej].
    + exfalso. apply Exists_exists in Hinv. destruct Hinv as [u [Hin Hu]].
      rewrite Forall_forall in Hvalid. exact (Hvalid u Hin Hu).
  - intros url n c w1 w2 e d Hurl Hmiss Hretry Hdb1.
    eexists. split.
    + exact (@process_url_failure rt jobId userId url n c w1 w2 e d
               Hurl Hmiss Hretry Hdb1).
    + reflexivity.
Qed.

Lemma lite_validator_sound (pages : nat -> string -> Outcome Page) (u : string) :
  z_string_url (Lite.runtime pages) u = true -> ~ invalid (Lite.runtime pages) u.
Proof.
  unfold invalid. simpl. destruct (Lite.url_href u); [discriminate|discriminate].
Qed.

(** The sample batch is accepted and its job runs to completion. *)
Lemma C1_invalid_rejected_failures_contained_witness :
  let w := Sample.fresh in
  (forall u, z_string_url Sample.rt u = true -> ~ invalid Sample.rt u) /\
  db w = Some Lite.empty_db /\ job_rows "job-1" Lite.empty_db = [] /\
  input_ok Sample.rt Sample.batch = true /\
  exists answer w' d j,
    submit_and_process Sample.rt Sample.batch 1 "job-1" w = (Ok answer, w') /\
    db w' = Some d /\ poll "job-1" 1 d = Ok j /\
    processingJobs.status j = processingJobs.completed /\
    processingJobs.processedUrls j = 2.
Proof.
  intros w.
  assert (Hsound := @lite_validator_sound Lite.reachable).
  assert (Hok : input_ok Sample.rt Sample.batch = true) by reflexivity.
  destruct (@C1_invalid_rejected_failures_contained Sample.rt Sample.batch 1
              "job-1" w Lite.empty_db Hsound eq_refl eq_refl)
    as [_ [Haccepted _]].
  destruct (Haccepted Hok)
    as [_ [answer [w' [d [j [rows [Hrun [Hdb [Hpoll [Hs [_ [_ [Hp _]]]]]]]]]]]]].
  split; [exact Hsound|]. split; [reflexivity|]. split; [reflexivity|].
  split; [exact Hok|].
  exists answer, w', d, j. repeat (split; [assumption|]). exact Hp.
Defined.

(** C1, as stated, fails.  The batch of the specification's scenario is
    rejected when it is submitted, so no job reaches [completed] and no
    record is written.  Were the background task given that batch all
    the same, it would stop at the invalid URL: the job stays
    [processing] with one URL processed, and no error record exists. *)
Lemma C1_counterexample :
  let urls := [Sample.url; "not-a-url"] in
  let w := Sample.fresh in
  invalid Sample.rt "not-a-url" /\
  submit_and_process Sample.rt urls 1 "job-1" w
  = (Throw (mkError "BAD_REQUEST"), w) /\
  fst (getProcessingJob "job-1" (snd (submit_and_process Sample.rt urls 1 "job-1" w)))
  = Ok None /\
  (let run := job_run Sample.rt urls 1 "job-1" w in
   fst run = Throw (mkError "Invalid URL: not-a-url") /\
   option_map (fun j : processingJobs.Row =>
                 (processingJobs.status j, processingJobs.processedUrls j,
                  processingJobs.errorCount j))
              (match fst (getProcessingJob "job-1" (snd run)) with
               | Ok j => j
               | Throw _ => None
               end)
   = Some (processingJobs.processing, 1, 0) /\
   filter is_error (rows_of (snd run)) = []).
Proof.
  intros urls w. split; [reflexivity|]. split; [reflexivity|].
  split; [reflexivity|]. vm_compute. repeat split; reflexivity.
Qed.

(* ----------------------------------------------------------------- *)
(** ** The records of a job *)

Lemma getResultsByJobId_run (jobId : string) (w : World) :
  getResultsByJobId jobId w
  = (Ok (filter (fun r : raceResults.Row =>
                   match raceResults.jobId r with
                   | Some j => String.eqb j jobId
                   | None => false
                   end) (rows_of w)), w).
Proof.
  unfold getResultsByJobId, rows_of, bind, getDb, ret.
  destruct (db w); reflexivity.
Qed.

Lemma unlinked_not_selected (userId : Z) (jobId : string)
  (rows : list raceResults.Row) :
  Forall (unlinked userId) rows ->
  filter (fun r : raceResults.Row =>
            match raceResults.jobId r with
            | Some j => String.eqb j jobId
            | None => false
            end) rows = [].
Proof.
  induction 1 as [|r l [Hj _] _ IH]; [reflexivity|].
  simpl. now rewrite Hj.
Qed.

(** Whatever a run of a job writes, [getResultsByJobId] answers for the
    job what it answered before the run. *)
Lemma job_results_never_linked (rt : Runtime) (urls : list string) (userId : Z)
  (jobId : string) (w : World) (d0 : Db) :
  db w = Some d0 -> job_rows jobId d0 = [] ->
  fst (getResultsByJobId jobId (snd (job_run rt urls userId jobId w)))
  = fst (getResultsByJobId jobId w).
Proof.
  intros Hdb Hfresh.
  destruct (job_run_trace rt urls userId jobId w Hdb Hfresh)
    as [loop [d3 [c [w' [_ [Hrun [Hw Hend]]]]]]].
  rewrite Hw, !getResultsByJobId_run. simpl. f_equal.
  destruct Hrun as [_ [_ [rows [Hrows [Hun _]]]]].
  assert (Hfinal : rows_of w' = race_results d0 ++ rows).
  { unfold rows_of.
    destruct Hend as [[now [_ [_ [_ ->]]]] | [e [_ [_ [_ [_ ->]]]]]]; exact Hrows. }
  rewrite Hfinal, filter_app, (unlinked_not_selected jobId Hun), app_nil_r.
  unfold rows_of. now rewrite Hdb.
Qed.

(** C2, at a failing input.  A job for one supported URL completes with
    one URL processed and one record written, but the record names no
    job, and the results of the job are empty.  A second job for the
    same URL is served from the cache: it completes with one URL
    processed and writes no record at all. *)
Theorem C2_job_results_are_empty :
  let w1 := snd (job_run Sample.rt [Sample.url] 1 "job-1" Sample.fresh) in
  let w2 := snd (job_run Sample.rt [Sample.url] 1 "job-2" w1) in
  let seen (r : Outcome processingJobs.Row) :=
    match r with
    | Ok j => Some (processingJobs.status j, processingJobs.processedUrls j,
                    processingJobs.successCount j)
    | Throw _ => None
    end in
  seen (fst (getJobStatus "job-1" 1 w1)) = Some (processingJobs.completed, 1, 1)
  /\ map (fun r : raceResults.Row => (raceResults.url r, raceResults.jobId r))
         (rows_of w1) = [(Sample.url, None)]
  /\ fst (getResults "job-1" 1 w1) = Ok []
  /\ seen (fst (getJobStatus "job-2" 1 w2)) = Some (processingJobs.completed, 1, 1)
  /\ rows_of w2 = rows_of w1
  /\ fst (getResults "job-2" 1 w2) = Ok [].
Proof. vm_compute. repeat split; reflexivity. Qed.

(* ----------------------------------------------------------------- *)
(** ** Normalization and the cache key *)

(** C8, as the code has it.  The cache key of a URL depends on the URL
    alone: computing it changes nothing and gives the same key in every
    state of the world.  The canonical form is the [href] of the parsed
    URL, fragment included, and the key is its digest; two URLs with the
    same [href] have the same canonical form and the same key. *)
Theorem C8_key_follows_href (rt : Runtime) (u1 u2 href : string) (w1 w2 : World) :
  (fst (url_key rt u1 w1) = fst (url_key rt u1 w2) /\ snd (url_key rt u1 w1) = w1)
  /\ (URL_href rt u1 = Some href ->
      normalizeUrl rt u1 w1 = (Ok href, w1)
      /\ url_key rt u1 w1 = (Ok (hashUrl href), w1)
      /\ (URL_href rt u2 = Some href ->
          fst (normalizeUrl rt u2 w2) = fst (normalizeUrl rt u1 w1)
          /\ fst (url_key rt u2 w2) = fst (url_key rt u1 w1))).
Proof.
  unfold url_key, normalizeUrl, bind, ret, throw. split.
  - destruct (URL_href rt u1); split; reflexivity.
  - intros H1. rewrite H1. split; [reflexivity|]. split; [reflexivity|].
    intros H2. rewrite H2. split; reflexivity.
Qed.

(** Letter case in scheme and host makes two URLs that have the same
    [href], and the same key. *)
Lemma C8_key_follows_href_witness :
  let u1 := "HTTPS://SportsTimingSolutions.IN/x?y=1" in
  let u2 := "https://sportstimingsolutions.in/x?y=1" in
  let w := Sample.fresh in
  URL_href Sample.rt u1 = Some u2 /\ URL_href Sample.rt u2 = Some u2 /\
  fst (normalizeUrl Sample.rt u2 w) = fst (normalizeUrl Sample.rt u1 w) /\
  fst (url_key Sample.rt u2 w) = fst (url_key Sample.rt u1 w).
Proof.
  intros u1 u2 w.
  assert (H1 : URL_href Sample.rt u1 = Some u2) by reflexivity.
  assert (H2 : URL_href Sample.rt u2 = Some u2) by reflexivity.
  destruct (C8_key_follows_href Sample.rt u1 u2 u2 w w) as [_ H].
  destruct (H H1) as [_ [_ Hsame]]. destruct (Hsame H2) as [Hn Hk].
  repeat split; assumption.
Defined.

(** C8, as stated, fails.  Two URLs with the same scheme, host, path and
    query that differ in their fragment are normalized differently and
    get different keys. *)
Lemma C8_counterexample :
  let u1 := "https://sportstimingsolutions.in/x#a" in
  let u2 := "https://sportstimingsolutions.in/x#b" in
  let w := Sample.fresh in
  spec_canonical Sample.rt u1 = Some "https://sportstimingsolutions.in/x" /\
  spec_canonical Sample.rt u2 = Some "https://sportstimingsolutions.in/x" /\
  fst (normalizeUrl Sample.rt u1 w) = Ok u1 /\
  fst (normalizeUrl Sample.rt u2 w) = Ok u2 /\
  fst (normalizeUrl Sample.rt u1 w) <> fst (normalizeUrl Sample.rt u2 w) /\
  fst (url_key Sample.rt u1 w)
  = Ok "846c19dae9b28483e6910bc225d1c0768181ecad12c871542572087c76afa622" /\
  fst (url_key Sample.rt u2 w)
  = Ok "973bb4ce31ec0b84863c386712ee81d010ad6f8381ee78788be4fdf98b80685c" /\
  fst (url_key Sample.rt u1 w) <> fst (url_key Sample.rt u2 w).
Proof.
  intros u1 u2 w.
  assert (K1 : fst (url_key Sample.rt u1 w)
               = Ok "846c19dae9b28483e6910bc225d1c0768181ecad12c871542572087c76afa622")
    by (vm_compute; reflexivity).
  assert (K2 : fst (url_key Sample.rt u2 w)
               = Ok "973bb4ce31ec0b84863c386712ee81d010ad6f8381ee78788be4fdf98b80685c")
    by (vm_compute; reflexivity).
  split; [reflexivity|]. split; [reflexivity|].
  split; [reflexivity|]. split; [reflexivity|].
  split; [vm_compute; discriminate|].
  split; [exact K1|]. split; [exact K2|].
  rewrite K1, K2. discriminate.
Qed.

(* ================================================================= *)
(** * Further properties *)

(* ----------------------------------------------------------------- *)
(** ** Numbers read by a chain *)

Lemma digit_not_space (c : ascii) (l : list ascii) :
  is_digit c = true ->
  strip_any white_space (c :: l) = None /\
  strip_any (map (@rev ascii) white_space) (c :: l) = None.
Proof.
  destruct c as [b0 b1 b2 b3 b4 b5 b6 b7].
  destruct b0, b1, b2, b3, b4, b5, b6, b7; intros H;
    try discriminate H; split; reflexivity.
Qed.

Lemma trim_left_digit (tokens : list (list ascii)) (fuel : nat) (l : list ascii) :
  strip_any tokens l = None -> trim_left tokens fuel l = l.
Proof. intros H. destruct fuel; simpl; [reflexivity|]. now rewrite H. Qed.

Lemma string_of_bytes_of (s : string) : string_of (bytes_of s) = s.
Proof. apply string_of_list_ascii_of_string. Qed.

Lemma forallb_last {A} (f : A -> bool) (l : list A) (a : A) :
  forallb f (l ++ [a]) = true -> f a = true.
Proof. rewrite forallb_app. simpl. rewrite andb_true_r. now intros [_ H]%andb_true_iff. Qed.

Lemma trim_digits (s : string) : all_digits s -> trim s = s.
Proof.
  intros [Hne Hd]. unfold trim.
  destruct (bytes_of s) as [|c l] eqn:Hb.
  { exfalso. apply Hne. rewrite <- (string_of_bytes_of s), Hb. reflexivity. }
  assert (Hc : is_digit c = true) by (simpl in Hd; now apply andb_true_iff in Hd).
  rewrite (@trim_left_digit white_space _ (c :: l) (proj1 (@digit_not_space c l Hc))).
  destruct (rev (c :: l)) as [|z r] eqn:Hr.
  { apply (f_equal (@length ascii)) in Hr. rewrite length_rev in Hr. discriminate. }
  assert (Hz : is_digit z = true).
  { assert (Hrev : c :: l = rev r ++ [z]).
    { rewrite <- (rev_involutive (c :: l)), Hr. reflexivity. }
    rewrite Hrev in Hd. now apply forallb_last in Hd. }
  rewrite (@trim_left_digit _ _ (z :: r) (proj2 (@digit_not_space z r Hz))).
  rewrite <- Hr, rev_involutive, <- Hb. apply string_of_bytes_of.
Qed.

Lemma take_digits_all (l : list ascii) :
  forallb is_digit l = true -> take_digits l = l.
Proof.
  induction l as [|c l IH]; [reflexivity|]. simpl.
  intros [Hc Hl]%andb_true_iff. rewrite Hc, IH; auto.
Qed.

Lemma digit_not_sign (c : ascii) :
  is_digit c = true -> Ascii.eqb c "-" = false /\ Ascii.eqb c "+" = false.
Proof.
  destruct c as [b0 b1 b2 b3 b4 b5 b6 b7].
  destruct b0, b1, b2, b3, b4, b5, b6, b7; intros H;
    try discriminate H; split; reflexivity.
Qed.

Lemma parseInt10_digits (s : string) :
  all_digits s -> parseInt10 s = JNum (digits_value (bytes_of s)).
Proof.
  intros [Hne Hd]. unfold parseInt10.
  destruct (bytes_of s) as [|c l] eqn:Hb.
  { exfalso. apply Hne. rewrite <- (string_of_bytes_of s), Hb. reflexivity. }
  assert (Hc : is_digit c = true) by (simpl in Hd; now apply andb_true_iff in Hd).
  rewrite (@trim_left_digit white_space _ (c :: l) (proj1 (@digit_not_space c l Hc))).
  destruct (@digit_not_sign c Hc) as [H1 H2]. rewrite H1, H2.
  rewrite take_digits_all by exact Hd.
  f_equal. lia.
Qed.

Lemma digits_value_acc (l : list ascii) (acc : Z) :
  0 <= acc -> forallb is_digit l = true ->
  0 <= fold_left (fun acc c => 10 * acc + (code c - 48)) l acc.
Proof.
  revert acc. induction l as [|c l IH]; intros acc Hacc Hd; cbn [fold_left]; [assumption|].
  simpl in Hd. apply andb_true_iff in Hd. destruct Hd as [Hc Hl].
  apply IH; [|assumption].
  unfold is_digit in Hc. apply andb_true_iff in Hc. destruct Hc as [Hlo _].
  apply Z.leb_le in Hlo. lia.
Qed.

Lemma digits_value_nonneg (s : string) :
  all_digits s -> 0 <= digits_value (bytes_of s).
Proof. intros [_ Hd]. apply digits_value_acc; [lia | assumption]. Qed.

Lemma all_digits_nonempty (s : string) : all_digits s -> String.eqb s "" = false.
Proof. intros [Hne _]. now apply String.eqb_neq. Qed.

Section S.
Variable rt : Runtime.

Lemma matchFirst_head (text : string) (A : RegExp) (rest : list RegExp)
  (group : nat) (s : string) :
  capture rt text group A = Some s ->
  Chains.matchFirst rt text (A :: rest) group = Some (trim s).
Proof.
  intros H. rewrite matchFirst_first_some. simpl. now rewrite H.
Qed.

End S.


(* ----------------------------------------------------------------- *)
(** ** Detection of the profile *)

Section Detection.

Variable rt : Runtime.

Lemma detect_in_first (parsers : list ParserConfig.t) (url : string)
  (p : ParserConfig.t) :
  detect_in rt parsers url = Some p ->
  exists pre post,
    parsers = pre ++ p :: post /\ matches_url rt url p = true /\
    Forall (fun q => matches_url rt url q = false) pre.
Proof.
  unfold detect_in, matches_url.
  induction parsers as [|q rest IH]; simpl; [discriminate|].
  destruct (RegExp_test rt (ParserConfig.urlPattern q) url) eqn:Hq.
  - intros H. inversion H; subst q. exists [], rest. auto.
  - intros H. destruct (IH H) as [pre [post [Hp [Ht Hpre]]]].
    exists (q :: pre), post. rewrite Hp. auto.
Qed.

Lemma detect_in_none (parsers : list ParserConfig.t) (url : string) :
  detect_in rt parsers url = None ->
  Forall (fun q => matches_url rt url q = false) parsers.
Proof.
  unfold detect_in, matches_url.
  induction parsers as [|q rest IH]; simpl; [constructor|].
  destruct (RegExp_test rt (ParserConfig.urlPattern q) url) eqn:Hq; [discriminate|].
  intros H. constructor; auto.
Qed.

Lemma Chains_logic_reads (p : ParserConfig.t) (url : string) :
  Chains.detectPlatform rt url = Some p ->
  exists (r : Page -> JSVal) (f2 f3 f4 f5 f6 : Page -> option string)
         (g1 g2 : Page -> option Z),
    (forall page, exists o, r page = of_string o) /\
    ParserConfig.extractionLogic p
    = Some (fun page =>
              elapse 3000 ;;
              ret (Chains.partial (r page) (of_string (f2 page))
                     (of_string (f3 page)) (of_string (f4 page))
                     (of_string (f5 page)) (of_number (g1 page))
                     (of_number (g2 page)) (of_string (f6 page)))).
Proof.
  unfold Chains.detectPlatform, detect_in, Chains.PARSERS. simpl.
  destruct (RegExp_test rt _ url).
  { intros H; inversion H. unfold Chains.sports_timing_solutions. simpl.
    unfold Chains.chain, Chains.chain_int.
    do 8 eexists. split; [|reflexivity]. intros page. simpl. eexists. reflexivity. }
  destruct (RegExp_test rt _ url).
  { intros H; inversion H. unfold Chains.my_race_india. simpl.
    unfold Chains.chain, Chains.chain_int.
    do 8 eexists. split; [|reflexivity]. intros page. simpl.
    destruct (String_match rt (page_url page) _) as [m|].
    - destruct (group_of m 1) as [s|].
      + destruct (truthy _); eexists; reflexivity.
      + simpl. eexists; reflexivity.
    - simpl. eexists; reflexivity. }
  destruct (RegExp_test rt _ url); [|discriminate].
  intros H; inversion H. unfold Chains.ifinish. simpl.
  unfold Chains.chain, Chains.chain_int.
  do 8 eexists. split; [|reflexivity]. intros page. simpl. eexists. reflexivity.
Qed.

(** X2.  In the pattern-chain revision an extraction is run by the
    first registered profile whose URL pattern matches: a result names
    that profile as its platform and one page was opened for it.  A
    failure is either the refusal of a URL that no profile matches,
    raised before any page is opened, or the failure of the
    navigation. *)
Theorem Chains_extraction_by_first_profile (url : string) (w : World) :
  match Chains.extractRaceResults rt url w with
  | (Ok data, w') =>
      exists p pre post,
        Chains.PARSERS rt = pre ++ p :: post /\
        matches_url rt url p = true /\
        Forall (fun q => matches_url rt url q = false) pre /\
        RaceResultData.platform data = JStr (ParserConfig.name p) /\
        sessions w' = S (sessions w)
  | (Throw e, w') =>
      (Forall (fun q => matches_url rt url q = false) (Chains.PARSERS rt) /\
       e = mkError ("Unsupported race timing platform: " ++ url)%string /\
       w' = after_refusal url w)
      \/ (Chains.detectPlatform rt url <> None /\
          open_page rt (sessions w) url = Throw e /\
          sessions w' = S (sessions w))
  end.
Proof.
  unfold Chains.extractRaceResults, bind at 1, log. simpl.
  destruct (Chains.detectPlatform rt url) as [p|] eqn:Hd.
  - destruct (@Chains_logic_reads p url Hd)
      as [r [f2 [f3 [f4 [f5 [f6 [g1 [g2 [_ Hlogic]]]]]]]]].
    rewrite Hlogic.
    unfold goto, bind, log, elapse, ret. simpl.
    destruct (open_page rt (sessions w) url) as [page|e] eqn:Ho; simpl.
    + destruct (detect_in_first _ _ Hd) as [pre [post [Hp [Ht Hpre]]]].
      exists p, pre, post. auto.
    + right. split; [congruence|]. auto.
  - left. split; [now apply detect_in_none|]. split; reflexivity.
Qed.

End Detection.

(* ----------------------------------------------------------------- *)
(** ** The shape of the cache key *)

Lemma round_length (st : list Z) (kw : Z * Z) :
  length (SHA256.round st kw) = length st.
Proof.
  unfold SHA256.round.
  do 8 (destruct st as [|? st]; [reflexivity|]).
  destruct st; reflexivity.
Qed.

Lemma rounds_length (kws : list (Z * Z)) (st : list Z) :
  length (fold_left SHA256.round kws st) = length st.
Proof.
  revert st. induction kws as [|kw kws IH]; intros st; simpl; [reflexivity|].
  now rewrite IH, round_length.
Qed.

Lemma compress_length (h block : list Z) :
  length (SHA256.compress h block) = length h.
Proof.
  unfold SHA256.compress.
  rewrite length_map, length_combine, rounds_length. apply Nat.min_id.
Qed.

Lemma blocks_length (fuel : nat) (ws h : list Z) :
  length (SHA256.blocks fuel ws h) = length h.
Proof.
  revert ws h. induction fuel as [|f IH]; intros ws h.
  - destruct ws; reflexivity.
  - destruct ws as [|x ws]; [reflexivity|].
    change (length (SHA256.blocks f (skipn 16 (x :: ws))
                      (SHA256.compress h (firstn 16 (x :: ws)))) = length h).
    now rewrite IH, compress_length.
Qed.

Lemma hex_digit_lower (d : Z) : 0 <= d < 16 -> lower_hex (SHA256.hex_digit d) = true.
Proof.
  intros H.
  assert (Hd : d = 0 \/ d = 1 \/ d = 2 \/ d = 3 \/ d = 4 \/ d = 5 \/ d = 6 \/ d = 7 \/
               d = 8 \/ d = 9 \/ d = 10 \/ d = 11 \/ d = 12 \/ d = 13 \/ d = 14 \/
               d = 15) by lia.
  repeat (destruct Hd as [Hd|Hd]; [subst d; reflexivity|]).
  subst d; reflexivity.
Qed.

Lemma hex32_shape (x : Z) :
  length (SHA256.hex32 x) = 8%nat /\ forallb lower_hex (SHA256.hex32 x) = true.
Proof.
  unfold SHA256.hex32. split; [reflexivity|].
  rewrite forallb_forall. intros c Hin. apply in_map_iff in Hin.
  destruct Hin as [i [Hc _]]. subst c. apply hex_digit_lower.
  apply Z.mod_pos_bound. lia.
Qed.

Lemma digest_shape (ws : list Z) :
  length (flat_map SHA256.hex32 ws) = (8 * length ws)%nat /\
  forallb lower_hex (flat_map SHA256.hex32 ws) = true.
Proof.
  induction ws as [|x ws [IHl IHf]]; [split; reflexivity|].
  destruct (hex32_shape x) as [Hl Hf]. cbn [flat_map].
  rewrite length_app, forallb_app, Hl, Hf, IHl, IHf. split; [simpl; lia|reflexivity].
Qed.

Lemma length_string_of (l : list ascii) : String.length (string_of l) = length l.
Proof. induction l as [|c l IH]; simpl; [reflexivity | now rewrite IH]. Qed.

Lemma bytes_of_string_of (l : list ascii) : bytes_of (string_of l) = l.
Proof. apply list_ascii_of_string_of_list_ascii. Qed.

(** X3.  The key [hashUrl] gives is always 64 lower-case hexadecimal
    digits, which is the width of the [urlHash] column. *)
Theorem hashUrl_is_64_hex_digits (url : string) :
  String.length (hashUrl url) = 64%nat /\
  forallb lower_hex (bytes_of (hashUrl url)) = true.
Proof.
  unfold hashUrl, SHA256.hex.
  rewrite length_string_of, bytes_of_string_of.
  match goal with
  | |- context [flat_map SHA256.hex32 ?ws] =>
      destruct (digest_shape ws) as [Hl Hf];
      assert (Hlen : length ws = 8%nat) by (rewrite blocks_length; reflexivity)
  end.
  rewrite Hl, Hf, Hlen. split; reflexivity.
Qed.

(* ----------------------------------------------------------------- *)
(** ** The guard of the job procedures *)

Lemma getProcessingJob_run (jobId : string) (w : World) :
  getProcessingJob jobId w
  = (Ok (match filter (job_matches jobId) (jobs_of w) with
         | j :: _ => Some j
         | [] => None
         end), w).
Proof.
  unfold getProcessingJob, jobs_of, bind, getDb, ret, limit.
  destruct (db w) as [d|]; [|reflexivity].
  destruct (filter _ (processing_jobs d)); reflexivity.
Qed.

Lemma owned_job_run (jobId : string) (userId : Z) (w : World) :
  owned_job jobId userId w
  = (match filter (job_matches jobId) (jobs_of w) with
     | j :: _ =>
         if processingJobs.userId j =? userId then Ok j
         else Throw (mkError "Unauthorized")
     | [] => Throw (mkError "Job not found")
     end, w).
Proof.
  unfold owned_job. rewrite (bind_ok _ (getProcessingJob_run jobId w)).
  destruct (filter _ (jobs_of w)) as [|j rest]; [reflexivity|].
  destruct (processingJobs.userId j =? userId); reflexivity.
Qed.

Lemma no_job_matches (jobId : string) (jobs : list processingJobs.Row) :
  filter (job_matches jobId) jobs = [] ->
  Forall (fun j : processingJobs.Row => processingJobs.jobId j <> jobId) jobs.
Proof.
  induction jobs as [|j jobs IH]; simpl; [constructor|].
  destruct (job_matches jobId j) eqn:Hj; [discriminate|].
  intros H. constructor; [|auto].
  unfold job_matches in Hj. now apply String.eqb_neq in Hj.
Qed.

(** What the guard lets through and what it refuses. *)
Lemma owned_job_cases (jobId : string) (userId : Z) (w : World) :
  snd (owned_job jobId userId w) = w /\
  match fst (owned_job jobId userId w) with
  | Ok j =>
      In j (jobs_of w) /\ processingJobs.jobId j = jobId /\
      processingJobs.userId j = userId
  | Throw e => refused userId jobId w e
  end.
Proof.
  rewrite owned_job_run. split; [reflexivity|]. simpl.
  destruct (filter _ (jobs_of w)) as [|j rest] eqn:Hf.
  - left. split; [reflexivity|]. now apply no_job_matches.
  - apply filter_head in Hf. destruct Hf as [Hin Hm].
    unfold job_matches in Hm. apply String.eqb_eq in Hm.
    destruct (processingJobs.userId j =? userId) eqn:Hu.
    + apply Z.eqb_eq in Hu. auto.
    + apply Z.eqb_neq in Hu. right. split; [reflexivity|]. now exists j.
Qed.

(** X4.  [getJobStatus] changes nothing; it answers with the row of the
    job only to the user the row names, fails with "Job not found" when
    no row holds the identifier, and with "Unauthorized" when the row
    belongs to someone else. *)
Theorem getJobStatus_guard (jobId : string) (userId : Z) (w : World) :
  snd (getJobStatus jobId userId w) = w /\
  match fst (getJobStatus jobId userId w) with
  | Ok j =>
      In j (jobs_of w) /\ processingJobs.jobId j = jobId /\
      processingJobs.userId j = userId
  | Throw e => refused userId jobId w e
  end.
Proof.
  unfold getJobStatus. rewrite owned_job_run. split; [reflexivity|]. simpl.
  destruct (filter _ (jobs_of w)) as [|j rest] eqn:Hf.
  - left. split; [reflexivity|]. now apply no_job_matches.
  - apply filter_head in Hf. destruct Hf as [Hin Hm].
    unfold job_matches in Hm. apply String.eqb_eq in Hm.
    destruct (processingJobs.userId j =? userId) eqn:Hu.
    + apply Z.eqb_eq in Hu. auto.
    + apply Z.eqb_neq in Hu. right. split; [reflexivity|]. now exists j.
Qed.

Lemma getResultsByJobId_linked (jobId : string) (w : World) :
  getResultsByJobId jobId w = (Ok (linked_to jobId w), w).
Proof.
  unfold getResultsByJobId, linked_to, rows_of, bind, getDb, ret.
  destruct (db w); reflexivity.
Qed.

Lemma linked_to_rows (jobId : string) (w : World) :
  Forall (fun r : raceResults.Row =>
            In r (rows_of w) /\ raceResults.jobId r = Some jobId)
         (linked_to jobId w).
Proof.
  apply Forall_forall. intros r Hin. unfold linked_to in Hin.
  apply filter_In in Hin. destruct Hin as [Hin Hj]. split; [assumption|].
  destruct (raceResults.jobId r) as [j|]; [|discriminate].
  apply String.eqb_eq in Hj. now subst j.
Qed.

Lemma owned_job_owns (jobId : string) (userId : Z) (w : World)
  (j : processingJobs.Row) :
  fst (owned_job jobId userId w) = Ok j -> owns userId jobId w.
Proof.
  intros H. destruct (owned_job_cases jobId userId w) as [_ Hc].
  rewrite H in Hc. now exists j.
Qed.

(** X5.  [getResults] changes nothing and answers only to the owner of
    the job, with exactly the stored results that name the job; anyone
    else gets the refusal of the guard. *)
Theorem getResults_only_for_owner (jobId : string) (userId : Z) (w : World) :
  snd (getResults jobId userId w) = w /\
  match fst (getResults jobId userId w) with
  | Ok rows =>
      owns userId jobId w /\ rows = linked_to jobId w /\
      Forall (fun r : raceResults.Row =>
                In r (rows_of w) /\ raceResults.jobId r = Some jobId) rows
  | Throw e => refused userId jobId w e
  end.
Proof.
  unfold getResults.
  destruct (owned_job_cases jobId userId w) as [Hw Hc].
  destruct (owned_job jobId userId w) as [[j|e] w1] eqn:Ho; simpl in Hw, Hc; subst w1.
  - rewrite (bind_ok _ Ho), getResultsByJobId_linked. simpl.
    split; [reflexivity|]. split; [now exists j|]. split; [reflexivity|].
    apply linked_to_rows.
  - rewrite (bind_throw _ Ho). simpl. split; [reflexivity | assumption].
Qed.

Lemma js_or_blank (v : JSVal) : blank_or_truthy (js_or v (JStr "")).
Proof.
  unfold js_or, blank_or_truthy. destruct (truthy v) eqn:H; [now right | now left].
Qed.

Lemma export_cells (r : raceResults.Row) :
  Forall blank_or_truthy (cells (ExportRow.of_row r)).
Proof.
  unfold cells, ExportRow.of_row. simpl.
  repeat (constructor; [apply js_or_blank|]). constructor.
Qed.

Section ExportAnswers.

Variable ser : Serializers.

(** X6.  [exportResults] changes nothing and answers only to the owner
    of the job.  The lines it hands to the serializer hold no [null]:
    every optional cell is the stored value when it is truthy and the
    empty string otherwise; the file is named after the job with the
    extension of the format.  It fails with the validation error for a
    format outside the three, or with the refusal of the guard, and
    never with "Unsupported format". *)
Theorem exportResults_answers (jobId format : string) (userId : Z) (w : World) :
  snd (Router.exportResults ser jobId format userId w) = w /\
  match fst (Router.exportResults ser jobId format userId w) with
  | Ok out =>
      owns userId jobId w /\
      let lines := map ExportRow.of_row (linked_to jobId w) in
      Forall (fun x => Forall blank_or_truthy (cells x)) lines /\
      ((format = "json" /\ data out = JSON_stringify ser lines /\
        filename out = "race_results_" ++ jobId ++ ".json")
       \/ (format = "csv" /\ data out = Papa_unparse ser lines /\
           filename out = "race_results_" ++ jobId ++ ".csv")
       \/ (format = "excel" /\ data out = XLSX_base64 ser lines /\
           filename out = "race_results_" ++ jobId ++ ".xlsx"))%string
  | Throw e =>
      e <> mkError "Unsupported format" /\
      ((Router.format_ok format = false /\ e = mkError "BAD_REQUEST")
       \/ refused userId jobId w e)
  end.
Proof.
  unfold Router.exportResults.
  destruct (Router.format_ok format) eqn:Hf.
  2:{ simpl. split; [reflexivity|]. split; [discriminate|]. now left. }
  destruct (owned_job_cases jobId userId w) as [Hw Hc].
  destruct (owned_job jobId userId w) as [[j|e] w1] eqn:Ho; simpl in Hw, Hc; subst w1.
  - rewrite (bind_ok _ Ho), (bind_ok _ (getResultsByJobId_linked jobId w)).
    assert (Hcells : Forall (fun x => Forall blank_or_truthy (cells x))
                            (map ExportRow.of_row (linked_to jobId w))).
    { apply Forall_map, Forall_forall. intros r _. apply export_cells. }
    assert (Hown : owns userId jobId w) by now exists j.
    unfold Router.format_ok in Hf.
    destruct (String.eqb format "json") eqn:Hj.
    { apply String.eqb_eq in Hj. simpl. auto 8. }
    destruct (String.eqb format "csv") eqn:Hcsv.
    { apply String.eqb_eq in Hcsv. simpl. auto 10. }
    destruct (String.eqb format "excel") eqn:Hx; [|discriminate].
    apply String.eqb_eq in Hx. simpl. auto 10.
  - rewrite (bind_throw _ Ho). simpl. split; [reflexivity|].
    split; [|now right].
    destruct Hc as [[He _]|[He _]]; subst e; discriminate.
Qed.

End ExportAnswers.

(* ----------------------------------------------------------------- *)
(** ** Updates of a job read back *)

Lemma jobs_of_updated (jobId : string) (u : Updates.t) (w : World) :
  jobs_of (snd (updateProcessingJob jobId u w))
  = map (fun j => if job_matches jobId j then apply_updates u j else j) (jobs_of w).
Proof.
  unfold jobs_of. destruct (db w) as [d|] eqn:Hd.
  - rewrite (update_run jobId u w Hd). reflexivity.
  - unfold updateProcessingJob, bind, getDb, ret. rewrite Hd. simpl. now rewrite Hd.
Qed.

Lemma rows_of_updated (jobId : string) (u : Updates.t) (w : World) :
  rows_of (snd (updateProcessingJob jobId u w)) = rows_of w.
Proof.
  unfold rows_of. destruct (db w) as [d|] eqn:Hd.
  - rewrite (update_run jobId u w Hd). reflexivity.
  - unfold updateProcessingJob, bind, getDb, ret. rewrite Hd. simpl. now rewrite Hd.
Qed.

Lemma filter_updated (jobId other : string) (u : Updates.t)
  (jobs : list processingJobs.Row) :
  filter (job_matches other)
         (map (fun j => if job_matches jobId j then apply_updates u j else j) jobs)
  = map (fun j => if job_matches jobId j then apply_updates u j else j)
        (filter (job_matches other) jobs).
Proof.
  induction jobs as [|j jobs IH]; [reflexivity|]. simpl.
  assert (Hm : job_matches other (if job_matches jobId j then apply_updates u j else j)
               = job_matches other j) by (destruct (job_matches jobId j); reflexivity).
  rewrite Hm. destruct (job_matches other j); simpl; now rewrite IH.
Qed.

Lemma job_of_updated (jobId other : string) (u : Updates.t) (w : World) :
  job_of other (snd (updateProcessingJob jobId u w))
  = option_map (fun j => if job_matches jobId j then apply_updates u j else j)
               (job_of other w).
Proof.
  unfold job_of. rewrite jobs_of_updated, filter_updated.
  destruct (filter (job_matches other) (jobs_of w)); reflexivity.
Qed.

Lemma job_of_matches (jobId : string) (w : World) (j : processingJobs.Row) :
  job_of jobId w = Some j -> job_matches jobId j = true.
Proof.
  unfold job_of. destruct (filter _ (jobs_of w)) as [|j' rest] eqn:Hf; [discriminate|].
  intros H. inversion H; subst j'. now apply filter_head in Hf.
Qed.

Lemma job_matches_other (jobId other : string) (j : processingJobs.Row) :
  other <> jobId -> job_matches other j = true -> job_matches jobId j = false.
Proof.
  unfold job_matches. intros Hne Ho. apply String.eqb_eq in Ho.
  apply String.eqb_neq. congruence.
Qed.

Lemma getProcessingJob_job_of (jobId : string) (w : World) :
  getProcessingJob jobId w = (Ok (job_of jobId w), w).
Proof. apply getProcessingJob_run. Qed.

(** X7.  After [updateProcessingJob] the job read back is the stored row
    with the given keys replaced: its [id], [jobId], [totalUrls],
    [userId] and [createdAt] are as before, and so are the status and
    the completion time when the update does not give them.  Every
    other job reads back as before, the results are untouched, and no
    row is added or removed. *)
Theorem update_then_get (jobId : string) (u : Updates.t) (w : World) :
  let w' := snd (updateProcessingJob jobId u w) in
  fst (getProcessingJob jobId w')
  = Ok (option_map (apply_updates u) (job_of jobId w))
  /\ (forall other, other <> jobId ->
        fst (getProcessingJob other w') = fst (getProcessingJob other w))
  /\ rows_of w' = rows_of w
  /\ length (jobs_of w') = length (jobs_of w)
  /\ (forall j, job_of jobId w = Some j ->
        let j' := apply_updates u j in
        processingJobs.id j' = processingJobs.id j /\
        processingJobs.jobId j' = processingJobs.jobId j /\
        processingJobs.totalUrls j' = processingJobs.totalUrls j /\
        processingJobs.userId j' = processingJobs.userId j /\
        processingJobs.createdAt j' = processingJobs.createdAt j /\
        (Updates.status u = None ->
         processingJobs.status j' = processingJobs.status j) /\
        (Updates.completedAt u = None ->
         processingJobs.completedAt j' = processingJobs.completedAt j)).
Proof.
  intros w'. subst w'. rewrite !getProcessingJob_job_of. simpl.
  split.
  { rewrite job_of_updated. destruct (job_of jobId w) as [j|] eqn:Hj; [|reflexivity].
    simpl. now rewrite (job_of_matches _ _ Hj). }
  split.
  { intros other Hne. rewrite !getProcessingJob_job_of. simpl.
    rewrite job_of_updated. destruct (job_of other w) as [j|] eqn:Hj; [|reflexivity].
    simpl. now rewrite (job_matches_other j Hne (job_of_matches _ _ Hj)). }
  split; [apply rows_of_updated|].
  split; [rewrite jobs_of_updated; apply length_map|].
  intros j _. simpl.
  repeat split; try reflexivity; intros H; rewrite H; reflexivity.
Qed.

(* ----------------------------------------------------------------- *)
(** ** Submissions *)

Section Submission.

Variable rt : Runtime.

Lemma job_of_created (job : processingJobs.Insert) (w : World) (d : Db) :
  db w = Some d ->
  Forall (fun j : processingJobs.Row =>
            processingJobs.jobId j <> processingJobs.jobId job) (processing_jobs d) ->
  job_of (processingJobs.jobId job) (snd (createProcessingJob job w))
  = Some {| processingJobs.id := next_id (processing_jobs d);
            processingJobs.cols := job;
            processingJobs.createdAt := clock w;
            processingJobs.completedAt := None |}.
Proof.
  intros Hd Hfresh. rewrite (create_run job w Hd). unfold job_of, jobs_of. simpl.
  rewrite filter_app.
  assert (Hnone : filter (job_matches (processingJobs.jobId job)) (processing_jobs d) = []).
  { induction Hfresh as [|j l Hj _ IH]; [reflexivity|]. simpl.
    unfold job_matches at 1. apply String.eqb_neq in Hj. now rewrite Hj. }
  rewrite Hnone. simpl. unfold job_matches. simpl. now rewrite String.eqb_refl.
Qed.


(** X9.  [extractResults] accepts a batch exactly when it has between 1
    and 100 URLs and each passes the URL check of the schema.  An empty
    batch, a batch of more than 100 and a batch with a URL that fails
    the check are refused with the validation error, and nothing
    changes. *)
Theorem extractResults_accepts_iff (urls : list string) (userId : Z)
  (jobId : string) (w : World) :
  ((exists answer, fst (extractResults rt urls userId jobId w) = Ok answer)
   <-> (1 <= length urls <= 100)%nat /\ Forall (fun u => z_string_url rt u = true) urls)
  /\ (urls = [] \/ (100 < length urls)%nat
        \/ Exists (fun u => z_string_url rt u = false) urls ->
      extractResults rt urls userId jobId w = (Throw (mkError "BAD_REQUEST"), w)).
Proof.
  assert (Hiff : input_ok rt urls = true
                 <-> (1 <= length urls <= 100)%nat
                     /\ Forall (fun u => z_string_url rt u = true) urls).
  { unfold input_ok. rewrite !andb_true_iff, forallb_forall, Forall_forall.
    rewrite !Nat.leb_le. tauto. }
  split.
  - unfold extractResults. destruct (input_ok rt urls) eqn:Hok.
    + split; [intros _; apply Hiff; reflexivity|]. intros _.
      unfold bind. destruct (createProcessingJob _ w) as [[[]|e] w1] eqn:Hc.
      * eexists. reflexivity.
      * exfalso. unfold createProcessingJob, bind, getDb, new_Date, commit, ret in Hc.
        destruct (db w); discriminate.
    + split; [intros [a Ha]; discriminate|].
      intros H. apply Hiff in H. discriminate.
  - intros Hbad. unfold extractResults.
    destruct (input_ok rt urls) eqn:Hok; [|reflexivity].
    destruct (proj1 Hiff eq_refl) as [Hlen Hall]. exfalso.
    destruct Hbad as [He|[Hbig|Hex]].
    + subst urls. simpl in Hlen. lia.
    + lia.
    + apply Exists_exists in Hex. destruct Hex as [u [Hin Hu]].
      rewrite Forall_forall in Hall. specialize (Hall u Hin). congruence.
Qed.

End Submission.

(* ----------------------------------------------------------------- *)
(** ** Cache entries written and read back *)

Lemma lookup_at_run (t : Z) (urlHash : string) (userId : Z) (w : World) :
  lookup_at t urlHash userId w
  = Ok (match filter (serves urlHash userId t) (rows_of w) with
        | r :: _ => Some r
        | [] => None
        end).
Proof. unfold lookup_at. rewrite getCachedResult_run. reflexivity. Qed.

Lemma rows_of_inserted (result : raceResults.Insert) (w : World) (d : Db) :
  db w = Some d ->
  rows_of (snd (insertRaceResult result w))
  = race_results d ++ [ {| raceResults.id := next_id (race_results d);
                           raceResults.cols := result |} ].
Proof. intros Hd. rewrite (insert_run result w Hd). reflexivity. Qed.


Lemma in_firstn {A} (n : nat) (l : list A) (a : A) : In a (firstn n l) -> In a l.
Proof.
  intros H. rewrite <- (firstn_skipn n l). apply in_or_app. now left.
Qed.

(** X11.  The [getUserResults] procedure changes nothing and answers with
    the first 100 stored results of the caller, in table order: never
    more than 100, never a result of another user, and all of them when
    the caller has at most 100. *)
Theorem getUserResults_at_most_100_own (userId : Z) (w : World) :
  exists rows,
    Router.getUserResults userId w = (Ok (map ResultView.of_row rows), w) /\
    rows = firstn 100 (owned_by userId w) /\
    (length rows <= 100)%nat /\
    Forall (fun r : raceResults.Row =>
              In r (rows_of w) /\ raceResults.userId r = userId) rows /\
    ((length (owned_by userId w) <= 100)%nat -> rows = owned_by userId w).
Proof.
  exists (firstn 100 (owned_by userId w)).
  split.
  { unfold Router.getUserResults, getUserResults, owned_by, rows_of, bind, getDb,
      ret, limit.
    destruct (db w); reflexivity. }
  split; [reflexivity|].
  split; [rewrite length_firstn; apply Nat.le_min_l|].
  split.
  - apply Forall_forall. intros r Hin. apply in_firstn in Hin.
    unfold owned_by in Hin. apply filter_In in Hin. destruct Hin as [Hin Hu].
    split; [assumption | now apply Z.eqb_eq].
  - intros Hlen. now apply firstn_all2.
Qed.

(* ----------------------------------------------------------------- *)
(** ** Edge cases and waits of the retry wrapper *)

Section RetryEdges.

Context {T : Type}.
Variable fn : M T.
Variables maxRetries initialDelay : Z.

Lemma retry_first_success (w w1 : World) (a : T) :
  0 < maxRetries -> fn w = (Ok a, w1) ->
  retryWithBackoff fn maxRetries initialDelay w = (Ok a, w1).
Proof.
  intros Hpos Hfn. unfold retryWithBackoff.
  destruct (Z.to_nat maxRetries) as [|k] eqn:Hk; [lia|].
  simpl. unfold try_catch. now rewrite Hfn.
Qed.

Lemma retry_no_budget (w : World) :
  maxRetries <= 0 ->
  retryWithBackoff fn maxRetries initialDelay w
  = (Throw (mkError "Max retries exceeded"), w).
Proof.
  intros Hle. unfold retryWithBackoff.
  replace (Z.to_nat maxRetries) with O by lia. reflexivity.
Qed.

(** X12.  [retryWithBackoff] with no attempt allowed never runs the
    operation and fails with "Max retries exceeded"; when an attempt is
    allowed and the first one succeeds, the result and the state are
    those of the operation, with no wait; with one attempt allowed it is
    the operation itself. *)
Theorem retry_edge_cases (w : World) :
  (maxRetries <= 0 ->
   retryWithBackoff fn maxRetries initialDelay w
   = (Throw (mkError "Max retries exceeded"), w))
  /\ (0 < maxRetries ->
      forall a w1, fn w = (Ok a, w1) ->
        retryWithBackoff fn maxRetries initialDelay w = (Ok a, w1))
  /\ (maxRetries = 1 ->
      retryWithBackoff fn maxRetries initialDelay w = fn w).
Proof.
  split; [apply retry_no_budget|]. split.
  - intros Hpos a w1. now apply retry_first_success.
  - intros H1. subst maxRetries. unfold retryWithBackoff. simpl.
    unfold try_catch. destruct (fn w) as [[a|e] w1]; reflexivity.
Qed.

Lemma timers_app (l1 l2 : list Event) : timers (l1 ++ l2) = timers l1 ++ timers l2.
Proof. unfold timers. apply flat_map_app. Qed.

Lemma timers_silent (new : list Event) : filter retry_event new = [] -> timers new = [].
Proof.
  induction new as [|ev new IH]; [reflexivity|]. simpl.
  destruct ev; simpl; try discriminate; exact IH.
Qed.

Lemma waits_cons (attempt : Z) (k : nat) :
  waits initialDelay attempt (S k)
  = initialDelay * 2 ^ attempt :: waits initialDelay (attempt + 1) k.
Proof.
  unfold waits. simpl. rewrite Z.add_0_r. f_equal.
  rewrite <- seq_shift, map_map. apply map_ext. intros i.
  do 2 f_equal. lia.
Qed.

Hypothesis fn_silent : silent fn.

Lemma retry_loop_timers :
  forall iterations attempt lastError w,
    iterations = Z.to_nat (maxRetries - attempt) ->
    exists k new,
      events (snd (retry_loop fn maxRetries initialDelay iterations attempt lastError w))
      = events w ++ new /\
      timers new = waits initialDelay attempt k /\
      (k <= iterations - 1)%nat /\
      match fst (retry_loop fn maxRetries initialDelay iterations attempt lastError w) with
      | Ok _ => True
      | Throw _ => k = (iterations - 1)%nat
      end.
Proof.
  induction iterations as [|n IH]; intros attempt lastError w Hn.
  - exists O, []. simpl. rewrite app_nil_r. auto.
  - simpl. unfold try_catch.
    destruct (fn_silent w) as [new0 [Hev0 Hs0]]. apply timers_silent in Hs0.
    destruct (fn w) as [[a|e] w1]; simpl in Hev0.
    + exists O, new0. simpl. repeat split; auto. lia.
    + destruct (attempt <? maxRetries - 1) eqn:Hlt.
      * apply Z.ltb_lt in Hlt.
        unfold bind at 1, setTimeout, bind at 1, log, elapse. simpl.
        match goal with
        | |- context [retry_loop _ _ _ _ _ _ ?w2] =>
            destruct (IH (attempt + 1) (Some e) w2) as [k [new [Hev [Ht [Hk Hr]]]]];
              [lia|]
        end.
        simpl in Hev.
        exists (S k), (new0 ++ [EvTimer (initialDelay * 2 ^ attempt)] ++ new).
        split; [rewrite Hev, Hev0; now rewrite <- !app_assoc|].
        split; [rewrite !timers_app, Hs0, Ht, waits_cons; reflexivity|].
        split; [lia|].
        destruct (fst _); [exact I | lia].
      * apply Z.ltb_ge in Hlt. assert (n = O) by lia. subst n.
        exists O, new0. unfold bind, ret. simpl. repeat split; auto.
Qed.

End RetryEdges.

Lemma sum_waits (initialDelay attempt : Z) (k : nat) :
  0 <= attempt ->
  sum_Z (waits initialDelay attempt k)
  = initialDelay * 2 ^ attempt * (2 ^ Z.of_nat k - 1).
Proof.
  revert attempt. induction k as [|k IH]; intros attempt Ha.
  - simpl. lia.
  - rewrite waits_cons. unfold sum_Z. cbn [fold_right].
    fold (sum_Z (waits initialDelay (attempt + 1) k)). rewrite IH by lia.
    rewrite Nat2Z.inj_succ, Z.pow_succ_r, Z.pow_add_r, Z.pow_1_r by lia. ring.
Qed.


(* ----------------------------------------------------------------- *)
(** ** Rounds served from the cache *)

Lemma try_ok [A] [body : M A] (handler : Error -> M A) [w w1 : World] [a : A] :
  body w = (Ok a, w1) -> try_catch body handler w = (Ok a, w1).
Proof. intros H. unfold try_catch. now rewrite H. Qed.

Section RoundsServed.

Variable rt : Runtime.
Variable jobId : string.
Variable userId : Z.

Lemma normalizeUrl_ok (url n : string) (w : World) :
  URL_href rt url = Some n -> normalizeUrl rt url w = (Ok n, w).
Proof. intros H. unfold normalizeUrl. now rewrite H. Qed.

Lemma getCachedResult_answer (urlHash : string) (w : World)
  (o : option raceResults.Row) :
  fst (getCachedResult urlHash userId w) = Ok o ->
  getCachedResult urlHash userId w = (Ok o, w).
Proof.
  intros H. rewrite (surjective_pairing (getCachedResult urlHash userId w)).
  now rewrite H, getCachedResult_state.
Qed.

Lemma update_state (u : Updates.t) (w : World) :
  fst (updateProcessingJob jobId u w) = Ok tt /\
  clock (snd (updateProcessingJob jobId u w)) = clock w /\
  sessions (snd (updateProcessingJob jobId u w)) = sessions w /\
  exists new, events (snd (updateProcessingJob jobId u w)) = events w ++ new /\
              extractions new = [] /\ timers new = [].
Proof.
  unfold updateProcessingJob, bind, getDb, commit, ret.
  destruct (db w) as [d|]; simpl.
  - repeat split. now exists [EvDb (updated jobId u d)].
  - repeat split. exists []. now rewrite app_nil_r.
Qed.

(** A round that finds the URL in the cache. *)
Lemma process_url_hit (url n : string) (c : Counters) (w : World)
  (hit : raceResults.Row) :
  URL_href rt url = Some n ->
  fst (getCachedResult (hashUrl n) userId w) = Ok (Some hit) ->
  process_url rt jobId userId url c w
  = (Ok (one_more_success c),
     snd (updateProcessingJob jobId (counter_updates (one_more_success c)) w)).
Proof.
  intros Hurl Hhit.
  assert (Htry : try_block rt jobId userId url c w
                 = (Ok (one_more_success c, Continue),
                    snd (updateProcessingJob jobId
                           (counter_updates (one_more_success c)) w))).
  { unfold try_block.
    rewrite (bind_ok _ (@normalizeUrl_ok url n w Hurl)).
    rewrite (bind_ok _ (@getCachedResult_answer _ w _ Hhit)).
    fold (one_more_success c). unfold bind.
    destruct (update_state (counter_updates (one_more_success c)) w) as [Hok _].
    destruct (updateProcessingJob jobId _ w) as [[[]|e] w1]; simpl in Hok;
      [|discriminate].
    reflexivity. }
  unfold process_url. now rewrite (bind_ok _ (try_ok _ Htry)).
Qed.

(** What a round that was answered by the cache leaves behind. *)
Lemma hit_round (url n : string) (c : Counters) (w : World)
  (hit : raceResults.Row) :
  URL_href rt url = Some n ->
  fst (getCachedResult (hashUrl n) userId w) = Ok (Some hit) ->
  let w' := snd (process_url rt jobId userId url c w) in
  fst (process_url rt jobId userId url c w) = Ok (one_more_success c) /\
  sessions w' = sessions w /\
  clock w' = clock w /\
  rows_of w' = rows_of w /\
  extractions (added w w') = [] /\
  timers (added w w') = [].
Proof.
  intros Hurl Hhit w'.
  subst w'. rewrite (@process_url_hit url n c w hit Hurl Hhit). simpl.
  destruct (update_state (counter_updates (one_more_success c)) w)
    as [_ [Hc [Hs [new [Hev [Hx Ht]]]]]].
  split; [reflexivity|]. split; [assumption|]. split; [assumption|].
  split; [apply rows_of_updated|].
  rewrite (@added_app _ _ new Hev). now split.
Qed.

(** A round that finds nothing in the cache, detects a profile and
    reaches the page at the first attempt. *)
Lemma process_url_fresh (url n : string) (c : Counters) (w : World) (d : Db)
  (page : Page) :
  URL_href rt url = Some n ->
  db w = Some d ->
  fst (getCachedResult (hashUrl n) userId w) = Ok None ->
  detectPlatform rt n <> None ->
  open_page rt (sessions w) n = Ok page ->
  let data := coerced (sports_timing_solutions rt)
                      (read_sports_timing_solutions rt page) in
  let d1 := inserted (completed_row n (hashUrl n) data (clock w + 3000) userId) d in
  let d2 := updated jobId (counter_updates (one_more_success c)) d1 in
  process_url rt jobId userId url c w
  = (Ok (one_more_success c),
     {| db := Some d2; clock := clock w + 3000; sessions := S (sessions w);
        events := events w ++ [EvExtract n; EvRender n; EvDb d1; EvDb d2] |}).
Proof.
  intros Hurl Hd Hmiss Hp Ho data d1 d2.
  assert (Hretry := @retry_first_success _ (extractRaceResults rt n) 3 1000 w _ _
                      eq_refl (extract_reachable rt n w Hp Ho)).
  fold data in Hretry.
  assert (Htry : try_block rt jobId userId url c w
                 = (Ok ({| processedCount := processedCount c;
                           successCount := successCount c + 1;
                           errorCount := errorCount c |}, FallThrough),
                    {| db := Some d1; clock := clock w + 3000;
                       sessions := S (sessions w);
                       events := events w ++ [EvExtract n; EvRender n; EvDb d1] |})).
  { unfold try_block.
    rewrite (bind_ok _ (@normalizeUrl_ok url n w Hurl)).
    rewrite (bind_ok _ (@getCachedResult_answer _ w _ Hmiss)).
    rewrite (bind_ok _ Hretry).
    rewrite (bind_ok (m := new_Date) (w := after_visit n 3000 w)
               (w1 := after_visit n 3000 w) (a := clock w + 3000) _ eq_refl).
    rewrite (bind_ok _ (insert_run _ (after_visit n 3000 w) Hd)).
    unfold ret, d1. simpl. rewrite <- !app_assoc. reflexivity. }
  unfold process_url. rewrite (bind_ok _ (try_ok _ Htry)). simpl.
  erewrite bind_ok by (apply update_run; reflexivity).
  unfold ret, one_more_success, d2. simpl. rewrite <- !app_assoc. reflexivity.
Qed.

(** X14.  A round of the loop whose URL has a valid cache entry counts
    the URL as processed and as a success, opens no page, extracts
    nothing, waits for nothing and writes no result. *)
Theorem cached_round_opens_no_page (url n : string) (c : Counters) (w : World)
  (entry : raceResults.Row) :
  URL_href rt url = Some n ->
  In entry (rows_of w) ->
  eligible (hashUrl n) userId (clock w) entry ->
  let w' := snd (process_url rt jobId userId url c w) in
  fst (process_url rt jobId userId url c w) = Ok (one_more_success c) /\
  sessions w' = sessions w /\
  clock w' = clock w /\
  rows_of w' = rows_of w /\
  extractions (added w w') = [] /\
  timers (added w w') = [].
Proof.
  intros Hurl Hin He.
  destruct (proj2 (cache_hit_iff (hashUrl n) userId w)) as [hit Hhit];
    [now exists entry|].
  exact (@hit_round url n c w hit Hurl Hhit).
Qed.

End RoundsServed.


(* ----------------------------------------------------------------- *)
(** ** The refresh procedure *)

Lemma retry_loop_extends {T} (fn : M T) (maxRetries initialDelay : Z)
  (k : nat) (attempt : Z) (lastError : option Error) (w : World) :
  emits (fun _ => True) fn ->
  exists new,
    events (snd (retry_loop fn maxRetries initialDelay (S k) attempt lastError w))
    = events (snd (fn w)) ++ new.
Proof.
  intros Hfn. cbn [retry_loop]. unfold try_catch.
  destruct (fn w) as [[a|e] w1]; simpl.
  - exists []. now rewrite app_nil_r.
  - match goal with
    | |- context [snd (?m w1)] => assert (Hm : emits (fun _ => True) m)
    end.
    { apply emits_bind.
      - apply emits_if; [now apply emits_setTimeout | apply emits_ret].
      - intros _. now apply emits_retry_loop. }
    destruct (Hm w1) as [_ [new [Hev _]]]. now exists new.
Qed.

Section Refresh.

Variable rt : Runtime.

Lemma extract_events (n : string) (w : World) :
  exists new,
    events (snd (extractRaceResults rt n w)) = events w ++ EvExtract n :: new.
Proof.
  destruct (detectPlatform rt n) as [p|] eqn:Hp.
  - assert (Hne : detectPlatform rt n <> None) by congruence.
    destruct (open_page rt (sessions w) n) as [page|e] eqn:Ho.
    + rewrite (extract_reachable rt n w Hne Ho). now exists [EvRender n].
    + rewrite (extract_unreachable rt n w Hne Ho). now exists [EvRender n].
  - rewrite (extract_unsupported rt n w Hp). now exists [].
Qed.

(** The retried extraction of the two procedures: it writes nothing, and
    its first event is the extraction of [n]. *)
Lemma retried_extraction (n : string) (w : World) :
  let run := retryWithBackoff (extractRaceResults rt n) 3 1000 w in
  db (snd run) = db w /\
  exists new, events (snd run) = events w ++ EvExtract n :: new.
Proof.
  intros run. subst run.
  split; [apply (quiet_extraction rt n w)|].
  destruct (extract_events n w) as [new0 Hev0].
  destruct (@retry_loop_extends _ (extractRaceResults rt n) 3 1000 2 0 None w)
    as [new Hev].
  { eapply emits_weaken; [|apply emits_extractRaceResults]. auto. }
  exists (new0 ++ new). unfold retryWithBackoff.
  change (Z.to_nat 3) with 3%nat. rewrite Hev, Hev0, <- app_assoc. reflexivity.
Qed.

(** X16.  [refreshResult] never looks at the cache: whatever is stored,
    it starts by extracting the normalized URL, and it records exactly
    one result for the caller after the stored ones, leaving the jobs
    as they are.  On success the row holds the extracted data, which is
    also the answer; on failure the row is an error record with the
    message of the failure, which is raised again. *)
Theorem refreshResult_always_records (url n : string) (userId : Z) (w : World)
  (d : Db) :
  z_string_url rt url = true ->
  URL_href rt url = Some n ->
  db w = Some d ->
  let run := Router.refreshResult rt url userId w in
  let w' := snd run in
  exists row rest,
    rows_of w' = race_results d ++ [row] /\
    jobs_of w' = jobs_of w /\
    raceResults.id row = next_id (race_results d) /\
    added w w' = EvExtract n :: rest /\
    match fst run with
    | Ok answer =>
        success answer = true /\
        raceResults.cols row
        = completed_row n (hashUrl n) (result answer) (clock w') userId
    | Throw e =>
        raceResults.cols row
        = error_row n (hashUrl n) (message e) (clock w') userId
    end.
Proof.
  intros Hz Hurl Hd run w'. subst w' run.
  unfold Router.refreshResult. rewrite Hz.
  rewrite (bind_ok _ (@normalizeUrl_ok rt url n w Hurl)).
  destruct (retried_extraction n w) as [Hdb [new Hev]].
  destruct (retryWithBackoff (extractRaceResults rt n) 3 1000 w)
    as [[data|e] w1] eqn:Hretry; simpl in Hdb, Hev.
  - assert (Hd1 : db w1 = Some d) by congruence.
    erewrite try_ok.
    2:{ rewrite (bind_ok _ Hretry).
        rewrite (bind_ok (m := new_Date) (w := w1) (w1 := w1) (a := clock w1) _ eq_refl).
        rewrite (bind_ok _ (insert_run _ w1 Hd1)). reflexivity. }
    simpl. eexists. exists (new ++ [EvDb (inserted (completed_row n (hashUrl n) data (clock w1) userId) d)]).
    split; [reflexivity|].
    split; [unfold jobs_of; simpl; now rewrite Hd|].
    split; [reflexivity|].
    split; [|split; reflexivity].
    apply added_app. simpl. rewrite Hev, <- app_assoc. reflexivity.
  - assert (Hd1 : db w1 = Some d) by congruence.
    erewrite try_throw.
    2:{ rewrite (bind_throw _ Hretry). reflexivity. }
    2:{ rewrite (bind_ok (m := new_Date) (w := w1) (w1 := w1) (a := clock w1) _ eq_refl).
        rewrite (bind_ok _ (insert_run _ w1 Hd1)). reflexivity. }
    simpl. eexists. exists (new ++ [EvDb (inserted (error_row n (hashUrl n) (message e) (clock w1) userId) d)]).
    split; [reflexivity|].
    split; [unfold jobs_of; simpl; now rewrite Hd|].
    split; [reflexivity|].
    split; [|reflexivity].
    apply added_app. simpl. rewrite Hev, <- app_assoc. reflexivity.
Qed.

End Refresh.

(* ----------------------------------------------------------------- *)
(** ** What a run leaves as it is *)

Section Keeps.

Variable R : World -> World -> Prop.
Variable rt : Runtime.
Variable jobId : string.
Variable userId : Z.

Hypothesis R_refl : forall w, R w w.
Hypothesis R_trans : forall w1 w2 w3, R w1 w2 -> R w2 w3 -> R w1 w3.
Hypothesis R_quiet :
  forall w w', db w' = db w ->
    (exists new, events w' = events w ++ new /\ Forall no_write new) -> R w w'.
Hypothesis R_insert :
  forall w result, written_for userId result -> R w (snd (insertRaceResult result w)).
Hypothesis R_update : forall w u, R w (snd (updateProcessingJob jobId u w)).
Hypothesis R_create :
  forall w job, processingJobs.jobId job = jobId ->
    R w (snd (createProcessingJob job w)).

Lemma keeps_ret {A} (a : A) : keeps R (ret a).
Proof. intros w. apply R_refl. Qed.

Lemma keeps_throw {A} (e : Error) : keeps R (@throw A e).
Proof. intros w. apply R_refl. Qed.

Lemma keeps_bind {A B} (m : M A) (k : A -> M B) :
  keeps R m -> (forall a, keeps R (k a)) -> keeps R (bind m k).
Proof.
  intros Hm Hk w. unfold bind. specialize (Hm w).
  destruct (m w) as [[a|e] w1]; simpl in *; [|assumption].
  eapply R_trans; [exact Hm | apply Hk].
Qed.

Lemma keeps_try_catch {A} (body : M A) (handler : Error -> M A) :
  keeps R body -> (forall e, keeps R (handler e)) -> keeps R (try_catch body handler).
Proof.
  intros Hm Hk w. unfold try_catch. specialize (Hm w).
  destruct (body w) as [[a|e] w1]; simpl in *; [assumption|].
  eapply R_trans; [exact Hm | apply Hk].
Qed.

Lemma keeps_emits {A} (m : M A) : emits no_write m -> keeps R m.
Proof. intros Hm w. destruct (Hm w) as [Hdb Hev]. now apply R_quiet. Qed.

Lemma written_completed (n h : string) (data : RaceResultData.t) (now : Z) :
  written_for userId (completed_row n h data now userId).
Proof. repeat split. Qed.

Lemma written_error (n h msg : string) (now : Z) :
  written_for userId (error_row n h msg now userId).
Proof. repeat split. Qed.

Lemma keeps_try_block (url : string) (c : Counters) :
  keeps R (try_block rt jobId userId url c).
Proof.
  unfold try_block.
  apply keeps_bind; [apply keeps_emits, emits_normalizeUrl|]. intros n.
  apply keeps_bind; [apply keeps_emits, emits_getCachedResult|]. intros [hit|].
  - apply keeps_bind; [intros w; apply R_update | intros; apply keeps_ret].
  - apply keeps_bind; [apply keeps_emits, quiet_extraction|]. intros data.
    apply keeps_bind; [apply keeps_emits, emits_new_Date|]. intros now.
    apply keeps_bind; [|intros; apply keeps_ret].
    intros w. apply R_insert, written_completed.
Qed.

Lemma keeps_catch_block (url : string) (c : Counters) (e : Error) :
  keeps R (catch_block rt userId url c e).
Proof.
  unfold catch_block.
  apply keeps_bind; [apply keeps_emits, emits_normalizeUrl|]. intros n.
  apply keeps_bind; [apply keeps_emits, emits_new_Date|]. intros now.
  apply keeps_bind; [|intros; apply keeps_ret].
  intros w. apply R_insert, written_error.
Qed.

Lemma keeps_process_url (url : string) (c : Counters) :
  keeps R (process_url rt jobId userId url c).
Proof.
  unfold process_url. apply keeps_bind.
  - apply keeps_try_catch; [apply keeps_try_block|].
    intros e. apply keeps_catch_block.
  - intros [c1 [|]]; [apply keeps_ret|].
    apply keeps_bind; [intros w; apply R_update | intros; apply keeps_ret].
Qed.

Lemma keeps_for_each_url (urls : list string) (c : Counters) :
  keeps R (for_each_url rt jobId userId urls c).
Proof.
  revert c. induction urls as [|url rest IH]; intros c; simpl.
  - apply keeps_ret.
  - apply keeps_bind; [apply keeps_process_url | intros c1; apply IH].
Qed.

Lemma keeps_processUrls (urls : list string) :
  keeps R (processUrls rt urls jobId userId).
Proof.
  unfold processUrls.
  apply keeps_bind; [intros w; apply R_update|]. intros _.
  apply keeps_bind; [apply keeps_for_each_url|]. intros _.
  apply keeps_bind; [apply keeps_emits, emits_new_Date|]. intros now.
  intros w; apply R_update.
Qed.

Lemma keeps_job_run (urls : list string) : keeps R (job_run rt urls userId jobId).
Proof.
  unfold job_run. apply keeps_bind; [|intros _; apply keeps_processUrls].
  intros w. now apply R_create.
Qed.

Lemma keeps_submit_and_process (urls : list string) :
  keeps R (submit_and_process rt urls userId jobId).
Proof.
  unfold submit_and_process, extractResults, background.
  apply keeps_bind.
  - destruct (input_ok rt urls); [|apply keeps_throw].
    apply keeps_bind; [|intros; apply keeps_ret].
    intros w. now apply R_create.
  - intros answer. apply keeps_bind; [|intros; apply keeps_ret].
    apply keeps_try_catch; [apply keeps_processUrls | intros; apply keeps_ret].
Qed.

End Keeps.

Section Grows.

Variable jobId : string.
Variable userId : Z.

Lemma grows_refl (w : World) : grows jobId userId w w.
Proof.
  intros d Hd. exists d, []. rewrite app_nil_r. repeat split; auto.
Qed.

Lemma grows_trans (w1 w2 w3 : World) :
  grows jobId userId w1 w2 -> grows jobId userId w2 w3 -> grows jobId userId w1 w3.
Proof.
  intros H12 H23 d Hd.
  destruct (H12 d Hd) as [d2 [rows2 [Hd2 [Hr2 [Hw2 Ho2]]]]].
  destruct (H23 d2 Hd2) as [d3 [rows3 [Hd3 [Hr3 [Hw3 Ho3]]]]].
  exists d3, (rows2 ++ rows3).
  split; [assumption|]. split; [rewrite Hr3, Hr2; now rewrite app_assoc|].
  split; [now apply Forall_app | congruence].
Qed.

Lemma grows_quiet (w w' : World) :
  db w' = db w ->
  (exists new, events w' = events w ++ new /\ Forall no_write new) ->
  grows jobId userId w w'.
Proof.
  intros Hdb _ d Hd. exists d, []. rewrite app_nil_r.
  repeat split; auto. congruence.
Qed.

Lemma grows_insert (w : World) (result : raceResults.Insert) :
  written_for userId result ->
  grows jobId userId w (snd (insertRaceResult result w)).
Proof.
  intros Hw d Hd. rewrite (insert_run result w Hd). simpl.
  eexists. eexists. split; [reflexivity|]. split; [reflexivity|].
  split; [|reflexivity]. constructor; [exact Hw | constructor].
Qed.

Lemma other_jobs_updated (u : Updates.t) (d : Db) :
  other_jobs jobId (updated jobId u d) = other_jobs jobId d.
Proof.
  unfold other_jobs, updated. simpl.
  induction (processing_jobs d) as [|j l IH]; [reflexivity|]. simpl.
  destruct (job_matches jobId j) eqn:Hm.
  - change (job_matches jobId (apply_updates u j)) with (job_matches jobId j).
    rewrite Hm. exact IH.
  - rewrite Hm. simpl. now rewrite IH.
Qed.

Lemma grows_update (w : World) (u : Updates.t) :
  grows jobId userId w (snd (updateProcessingJob jobId u w)).
Proof.
  intros d Hd. rewrite (update_run jobId u w Hd). simpl.
  exists (updated jobId u d), []. rewrite app_nil_r.
  repeat split; auto. apply other_jobs_updated.
Qed.

Lemma grows_create (w : World) (job : processingJobs.Insert) :
  processingJobs.jobId job = jobId ->
  grows jobId userId w (snd (createProcessingJob job w)).
Proof.
  intros Hj d Hd. rewrite (create_run job w Hd). simpl.
  eexists. exists []. split; [reflexivity|]. rewrite app_nil_r.
  split; [reflexivity|]. split; [constructor|].
  unfold other_jobs, created. simpl. rewrite filter_app. simpl.
  unfold job_matches at 2. simpl. rewrite Hj, String.eqb_refl. simpl.
  apply app_nil_r.
Qed.

End Grows.

Lemma offline_refl (w : World) : offline w w.
Proof. intros Hd. split; [assumption|]. exists []. now rewrite app_nil_r. Qed.

Lemma offline_trans (w1 w2 w3 : World) :
  offline w1 w2 -> offline w2 w3 -> offline w1 w3.
Proof.
  intros H12 H23 Hd. destruct (H12 Hd) as [Hd2 [new2 [He2 Hn2]]].
  destruct (H23 Hd2) as [Hd3 [new3 [He3 Hn3]]].
  split; [assumption|]. exists (new2 ++ new3).
  rewrite He3, He2, app_assoc. split; [reflexivity | now apply Forall_app].
Qed.

Lemma offline_quiet (w w' : World) :
  db w' = db w ->
  (exists new, events w' = events w ++ new /\ Forall no_write new) ->
  offline w w'.
Proof. intros Hdb Hev Hd. split; [congruence | assumption]. Qed.

Lemma offline_insert (w : World) (result : raceResults.Insert) :
  offline w (snd (insertRaceResult result w)).
Proof.
  intros Hd. unfold insertRaceResult, bind, getDb. rewrite Hd. simpl.
  split; [assumption|]. exists []. now rewrite app_nil_r.
Qed.

Lemma offline_update (jobId : string) (w : World) (u : Updates.t) :
  offline w (snd (updateProcessingJob jobId u w)).
Proof.
  intros Hd. unfold updateProcessingJob, bind, getDb. rewrite Hd. simpl.
  split; [assumption|]. exists []. now rewrite app_nil_r.
Qed.

Lemma offline_create (w : World) (job : processingJobs.Insert) :
  offline w (snd (createProcessingJob job w)).
Proof.
  intros Hd. unfold createProcessingJob, bind, getDb. rewrite Hd. simpl.
  split; [assumption|]. exists []. now rewrite app_nil_r.
Qed.

Lemma other_jobs_fresh (jobId : string) (d : Db) :
  Forall (fun j : processingJobs.Row => processingJobs.jobId j <> jobId)
         (processing_jobs d) ->
  other_jobs jobId d = processing_jobs d.
Proof.
  unfold other_jobs. induction 1 as [|j l Hj _ IH]; [reflexivity|]. simpl.
  unfold job_matches at 1. apply String.eqb_neq in Hj. rewrite Hj. simpl.
  now rewrite IH.
Qed.


(** X18.  Without a database a valid submission is still answered as
    queued, but the submission and its background task store nothing,
    and a later poll of the job fails with "Job not found". *)
Theorem without_database_nothing_is_kept (rt : Runtime) (urls : list string)
  (userId : Z) (jobId : string) (w : World) :
  db w = None ->
  input_ok rt urls = true ->
  let run := submit_and_process rt urls userId jobId w in
  fst run = Ok {| submitted_jobId := jobId;
                  submitted_status := processingJobs.queued;
                  submitted_totalUrls := Z.of_nat (length urls) |}
  /\ db (snd run) = None
  /\ Forall no_write (added w (snd run))
  /\ getJobStatus jobId userId (snd run)
     = (Throw (mkError "Job not found"), snd run).
Proof.
  intros Hd Hok run.
  assert (Hoff : offline w (snd run)).
  { apply (@keeps_submit_and_process offline rt jobId userId
             offline_refl offline_trans offline_quiet
             (fun w r _ => offline_insert w r)
             (offline_update jobId)
             (fun w job _ => offline_create w job) urls w). }
  destruct (Hoff Hd) as [Hd' [new [Hev Hnew]]].
  split.
  { subst run. unfold submit_and_process, extractResults. rewrite Hok.
    unfold bind at 1. unfold bind at 1.
    assert (Hc : createProcessingJob (new_job urls userId jobId) w = (Ok tt, w)).
    { unfold createProcessingJob, bind, getDb. now rewrite Hd. }
    rewrite Hc. unfold ret at 1. unfold bind at 1, background, try_catch.
    destruct (processUrls rt urls jobId userId w) as [[[]|e] w1]; reflexivity. }
  split; [assumption|].
  split; [now rewrite (@added_app _ _ new Hev)|].
  unfold getJobStatus. rewrite owned_job_run. unfold jobs_of. rewrite Hd'. reflexivity.
Qed.

(* ----------------------------------------------------------------- *)
(** ** The users table *)

Section Users.

Variable ownerOpenId : string.
Variables now auto_id : Z.

Lemma getUserByOpenId_first (openId : string) (rows : list users.Row) :
  getUserByOpenId openId (Some rows)
  = match filter (has_openId openId) rows with r :: _ => Some r | [] => None end.
Proof.
  unfold getUserByOpenId, limit. destruct (filter _ rows); reflexivity.
Qed.

Lemma existsb_filter {A} (f : A -> bool) (l : list A) :
  existsb f l = match filter f l with [] => false | _ :: _ => true end.
Proof.
  induction l as [|a l IH]; [reflexivity|]. simpl.
  destruct (f a); [reflexivity | exact IH].
Qed.

Lemma filter_set_columns (openId key : string) (s : UpdateSet.t)
  (rows : list users.Row) :
  filter (has_openId openId)
         (map (fun r => if has_openId key r then set_columns s now r else r) rows)
  = map (fun r => if has_openId key r then set_columns s now r else r)
        (filter (has_openId openId) rows).
Proof.
  induction rows as [|r rows IH]; [reflexivity|]. simpl.
  assert (Hm : has_openId openId (if has_openId key r then set_columns s now r else r)
               = has_openId openId r) by (destruct (has_openId key r); reflexivity).
  rewrite Hm. destruct (has_openId openId r); simpl; now rewrite IH.
Qed.

Lemma has_openId_other (openId key : string) (r : users.Row) :
  openId <> key -> has_openId openId r = true -> has_openId key r = false.
Proof.
  unfold has_openId. intros Hne H. apply String.eqb_eq in H.
  apply String.eqb_neq. congruence.
Qed.

(** What a lookup finds after [insert_on_duplicate]. *)
Lemma lookup_after_insert (values : InsertUser.t) (s : UpdateSet.t)
  (rows : list users.Row) (openId : string) :
  getUserByOpenId openId
    (Some (insert_on_duplicate values s now auto_id rows))
  = match getUserByOpenId openId (Some rows) with
    | Some old =>
        Some (if String.eqb openId (InsertUser.openId values)
              then set_columns s now old else old)
    | None =>
        if String.eqb openId (InsertUser.openId values)
        then Some (inserted_user values now auto_id) else None
    end.
Proof.
  rewrite !getUserByOpenId_first. unfold insert_on_duplicate.
  rewrite existsb_filter.
  destruct (String.eqb openId (InsertUser.openId values)) eqn:He.
  - apply String.eqb_eq in He. subst openId.
    destruct (filter (has_openId (InsertUser.openId values)) rows) as [|old rest] eqn:Hf.
    + rewrite filter_app, Hf. simpl. unfold has_openId. simpl.
      now rewrite String.eqb_refl.
    + rewrite filter_set_columns, Hf. simpl.
      apply filter_head in Hf. destruct Hf as [_ Hm]. now rewrite Hm.
  - apply String.eqb_neq in He.
    destruct (filter (has_openId (InsertUser.openId values)) rows) as [|x rest] eqn:Hx.
    + rewrite filter_app. simpl. unfold has_openId at 2. simpl.
      assert (Hn : String.eqb (InsertUser.openId values) openId = false)
        by (apply String.eqb_neq; congruence).
      rewrite Hn, app_nil_r. now destruct (filter (has_openId openId) rows).
    + rewrite filter_set_columns.
      destruct (filter (has_openId openId) rows) as [|old rest'] eqn:Hf; [reflexivity|].
      simpl. apply filter_head in Hf. destruct Hf as [_ Hm].
      now rewrite (@has_openId_other openId (InsertUser.openId values) old He Hm).
Qed.

Lemma openIds_after_insert (values : InsertUser.t) (s : UpdateSet.t)
  (rows : list users.Row) :
  map users.openId (insert_on_duplicate values s now auto_id rows)
  = if existsb (has_openId (InsertUser.openId values)) rows
    then map users.openId rows
    else map users.openId rows ++ [InsertUser.openId values].
Proof.
  unfold insert_on_duplicate.
  destruct (existsb (has_openId (InsertUser.openId values)) rows).
  - rewrite map_map. apply map_ext. intros r.
    destruct (has_openId _ r); reflexivity.
  - rewrite map_app. reflexivity.
Qed.

Lemma existsb_has_openId (openId : string) (rows : list users.Row) :
  existsb (has_openId openId) rows = false -> ~ In openId (map users.openId rows).
Proof.
  intros H Hin. apply in_map_iff in Hin. destruct Hin as [r [Hr Hin]].
  assert (Ht : existsb (has_openId openId) rows = true).
  { apply existsb_exists. exists r. split; [assumption|].
    unfold has_openId. rewrite Hr. apply String.eqb_refl. }
  congruence.
Qed.

Lemma NoDup_snoc {A} (l : list A) (a : A) :
  ~ In a l -> NoDup l -> NoDup (l ++ [a]).
Proof.
  induction l as [|b l IH]; intros Hin Hnd; simpl.
  - constructor; [intros [] | constructor].
  - inversion Hnd; subst. constructor.
    + intros H. apply in_app_or in H. destruct H as [H|[H|[]]]; [contradiction|].
      apply Hin. now left.
    + apply IH; [|assumption]. intros H. apply Hin. now right.
Qed.

Lemma nodup_after_insert (values : InsertUser.t) (s : UpdateSet.t)
  (rows : list users.Row) :
  NoDup (map users.openId rows) ->
  NoDup (map users.openId (insert_on_duplicate values s now auto_id rows)).
Proof.
  intros Hnd. rewrite openIds_after_insert.
  destruct (existsb (has_openId (InsertUser.openId values)) rows) eqn:Hex;
    [assumption|].
  apply existsb_has_openId in Hex. now apply NoDup_snoc.
Qed.

Lemma lookup_openId (openId : string) (table : option (list users.Row))
  (r : users.Row) :
  getUserByOpenId openId table = Some r -> users.openId r = openId.
Proof.
  destruct table as [rows|]; [|discriminate]. rewrite getUserByOpenId_first.
  destruct (filter _ rows) as [|x rest] eqn:Hf; [discriminate|].
  intros H. inversion H; subst x. apply filter_head in Hf.
  destruct Hf as [_ Hm]. now apply String.eqb_eq in Hm.
Qed.

Lemma lookup_none (openId : string) (rows : list users.Row) :
  getUserByOpenId openId (Some rows) = None ->
  existsb (has_openId openId) rows = false.
Proof.
  rewrite getUserByOpenId_first, existsb_filter.
  now destruct (filter _ rows).
Qed.

Lemma lookup_some (openId : string) (rows : list users.Row) (r : users.Row) :
  getUserByOpenId openId (Some rows) = Some r ->
  existsb (has_openId openId) rows = true.
Proof.
  rewrite getUserByOpenId_first, existsb_filter.
  now destruct (filter _ rows).
Qed.

(** X19.  After [upsertUser] a lookup by the [openId] finds a row with
    that [openId] that holds every column the call gave; a call that
    gives no role for the owner of the application stores [admin].  The
    [openId]s stay distinct when they were. *)
Theorem upsertUser_then_lookup (user : InsertUser.t) (rows : list users.Row) :
  InsertUser.openId user <> "" ->
  exists rows' r,
    upsertUser ownerOpenId now auto_id user (Some rows) = Ok (Some rows') /\
    getUserByOpenId (InsertUser.openId user) (Some rows') = Some r /\
    users.openId r = InsertUser.openId user /\
    (forall v, InsertUser.name user = Some v -> users.name r = v) /\
    (forall v, InsertUser.email user = Some v -> users.email r = v) /\
    (forall v, InsertUser.loginMethod user = Some v -> users.loginMethod r = v) /\
    (forall t, InsertUser.lastSignedIn user = Some t -> users.lastSignedIn r = t) /\
    (forall ro, InsertUser.role user = Some ro -> users.role r = ro) /\
    (InsertUser.role user = None -> InsertUser.openId user = ownerOpenId ->
     users.role r = users.admin) /\
    (NoDup (map users.openId rows) -> NoDup (map users.openId rows')).
Proof.
  intros Hne. apply String.eqb_neq in Hne. unfold upsertUser. rewrite Hne.
  match goal with
  | |- exists rows' r, Ok (Some ?x) = Ok (Some rows') /\ _ => exists x
  end.
  rewrite lookup_after_insert. cbn [InsertUser.openId]. rewrite String.eqb_refl.
  assert (Hid : forall old,
             getUserByOpenId (InsertUser.openId user) (Some rows) = Some old ->
             users.openId old = InsertUser.openId user)
    by (intros old; apply lookup_openId).
  destruct (getUserByOpenId (InsertUser.openId user) (Some rows)) as [old|];
    [specialize (Hid old eq_refl)|clear Hid];
    (eexists; split; [reflexivity|]; split; [reflexivity|];
     split; [first [exact Hid | reflexivity]|]);
    destruct user as [oid nm em lm ro ls]; cbn [InsertUser.openId InsertUser.name
      InsertUser.email InsertUser.loginMethod InsertUser.role
      InsertUser.lastSignedIn] in *;
    destruct (String.eqb oid ownerOpenId) eqn:Hown;
    destruct nm, em, lm, ro, ls; simpl;
    repeat split; try congruence; try (intros; apply nodup_after_insert; assumption);
    intros _ Hoid; apply String.eqb_neq in Hown; contradiction.
Qed.

(** X20.  [upsertUser] leaves every other user as stored.  For a user
    that exists it adds no row and keeps [id], [createdAt] and every
    column the call does not give; a call that gives no time of
    sign-in keeps the stored one, unless it gives nothing at all, in
    which case the time of the call is stored.  For a new user it adds
    one row with the defaults of the table. *)
Theorem upsertUser_keeps_the_rest (user : InsertUser.t) (rows : list users.Row) :
  InsertUser.openId user <> "" ->
  exists rows',
    upsertUser ownerOpenId now auto_id user (Some rows) = Ok (Some rows') /\
    (forall other, other <> InsertUser.openId user ->
       getUserByOpenId other (Some rows') = getUserByOpenId other (Some rows)) /\
    match getUserByOpenId (InsertUser.openId user) (Some rows) with
    | Some old =>
        length rows' = length rows /\
        exists r,
          getUserByOpenId (InsertUser.openId user) (Some rows') = Some r /\
          users.id r = users.id old /\
          users.createdAt r = users.createdAt old /\
          (InsertUser.name user = None -> users.name r = users.name old) /\
          (InsertUser.email user = None -> users.email r = users.email old) /\
          (InsertUser.loginMethod user = None ->
           users.loginMethod r = users.loginMethod old) /\
          (InsertUser.role user = None -> InsertUser.openId user <> ownerOpenId ->
           users.role r = users.role old) /\
          (InsertUser.lastSignedIn user = None ->
           users.lastSignedIn r = users.lastSignedIn old
           \/ (users.lastSignedIn r = now /\
               InsertUser.name user = None /\ InsertUser.email user = None /\
               InsertUser.loginMethod user = None /\ InsertUser.role user = None /\
               InsertUser.openId user <> ownerOpenId))
    | None =>
        rows' = rows ++ [ {| users.id := auto_id;
                             users.openId := InsertUser.openId user;
                             users.name := or_keep (InsertUser.name user) None;
                             users.email := or_keep (InsertUser.email user) None;
                             users.loginMethod :=
                               or_keep (InsertUser.loginMethod user) None;
                             users.role :=
                               match InsertUser.role user with
                               | Some ro => ro
                               | None =>
                                   if String.eqb (InsertUser.openId user) ownerOpenId
                                   then users.admin else users.user
                               end;
                             users.createdAt := now;
                             users.updatedAt := now;
                             users.lastSignedIn :=
                               or_keep (InsertUser.lastSignedIn user) now |} ]
    end.
Proof.
  intros Hne. apply String.eqb_neq in Hne. unfold upsertUser. rewrite Hne.
  eexists. split; [reflexivity|]. split.
  { intros other Hother. rewrite lookup_after_insert. cbn [InsertUser.openId].
    apply String.eqb_neq in Hother. rewrite Hother.
    now destruct (getUserByOpenId other (Some rows)). }
  destruct (getUserByOpenId (InsertUser.openId user) (Some rows)) as [old|] eqn:Ho.
  - split.
    { unfold insert_on_duplicate. simpl. rewrite (lookup_some _ _ Ho).
      apply length_map. }
    eexists. split.
    { rewrite lookup_after_insert. cbn [InsertUser.openId].
      rewrite Ho, String.eqb_refl. reflexivity. }
    split; [reflexivity|]. split; [reflexivity|].
    split; [intros H; simpl; rewrite H; now destruct (UpdateSet.is_empty _)|].
    split; [intros H; simpl; rewrite H; now destruct (UpdateSet.is_empty _)|].
    split; [intros H; simpl; rewrite H; now destruct (UpdateSet.is_empty _)|].
    split.
    { intros H Hown. apply String.eqb_neq in Hown. simpl. rewrite H, Hown.
      now destruct (UpdateSet.is_empty _). }
    intros H. simpl. rewrite H.
    destruct (InsertUser.name user), (InsertUser.email user),
      (InsertUser.loginMethod user), (InsertUser.role user);
      simpl; try (now left).
    destruct (String.eqb (InsertUser.openId user) ownerOpenId) eqn:Hown;
      simpl; [now left|].
    apply String.eqb_neq in Hown. right. auto 10.
  - unfold insert_on_duplicate. simpl. rewrite (lookup_none _ _ Ho).
    unfold inserted_user. simpl.
    destruct (InsertUser.role user); [reflexivity|].
    destruct (String.eqb (InsertUser.openId user) ownerOpenId); reflexivity.
Qed.

End Users.

(* ----------------------------------------------------------------- *)
(** ** Results and the columns of the table *)

Section ChainShapes.

Variable rt : Runtime.

Lemma text_column (o : option string) : text_or_null (js_or (of_string o) JNull).
Proof.
  destruct o as [s|]; [|now left]. unfold js_or. simpl.
  destruct (String.eqb s "") eqn:He; simpl; [now left|].
  right. exists s. split; [reflexivity|]. now apply String.eqb_neq.
Qed.

Lemma rank_column (o : option Z) : rank_or_null (js_or (of_number o) JNull).
Proof.
  destruct o as [n|]; [|now left]. unfold js_or. simpl.
  destruct (n =? 0) eqn:He; simpl; [now left|].
  right. exists n. split; [reflexivity|]. now apply Z.eqb_neq.
Qed.


End ChainShapes.

Section ColumnShapes.

Variable rt : Runtime.

Lemma parseInt10_cases (s : string) :
  parseInt10 s = JNaN \/ exists n, parseInt10 s = JNum n.
Proof.
  unfold parseInt10.
  destruct (trim_left white_space _ (bytes_of s)) as [|c l].
  - left. reflexivity.
  - destruct (Ascii.eqb c "-"); [|destruct (Ascii.eqb c "+")];
      match goal with
      | |- context [take_digits ?x] => destruct (take_digits x)
      end; eauto.
Qed.

Lemma trimmed_column (m : option (list (option string))) :
  text_or_null (js_or (first_group_trimmed m) JNull).
Proof.
  unfold first_group_trimmed. destruct m as [g|]; [|now left].
  destruct (group_of g 1) as [s|]; [|now left].
  unfold js_or. simpl. destruct (String.eqb (trim s) "") eqn:He; simpl; [now left|].
  right. exists (trim s). split; [reflexivity|]. now apply String.eqb_neq.
Qed.

Lemma group_column (m : option (list (option string))) :
  text_or_null (js_or (first_group m) JNull).
Proof.
  unfold first_group. destruct m as [g|]; [|now left].
  destruct (group_of g 1) as [s|]; [|now left].
  unfold js_or. simpl. destruct (String.eqb s "") eqn:He; simpl; [now left|].
  right. exists s. split; [reflexivity|]. now apply String.eqb_neq.
Qed.

Lemma int_column (m : option (list (option string))) :
  rank_or_null (js_or (first_group_int m) JNull).
Proof.
  unfold first_group_int. destruct m as [g|]; [|now left].
  destruct (group_of g 1) as [s|]; [|now left]. simpl.
  destruct (parseInt10_cases s) as [H|[n H]]; rewrite H; [now left|].
  unfold js_or. simpl. destruct (n =? 0) eqn:He; simpl; [now left|].
  right. exists n. split; [reflexivity|]. now apply Z.eqb_neq.
Qed.


End ColumnShapes.

(* ----------------------------------------------------------------- *)
(** ** The submit handler of the page *)

Lemma filter_nil_Forall {A} (f : A -> bool) (l : list A) :
  filter f l = [] -> Forall (fun a => f a = false) l.
Proof.
  induction l as [|a l IH]; simpl; [constructor|].
  destruct (f a) eqn:Hf; [discriminate|]. intros H. constructor; auto.
Qed.

(** X23.  What the submit handler of the page sends is never empty and
    holds only non-empty strings the URL constructor accepts; with at
    most 100 of them, and a schema check that accepts what the
    constructor accepts, the server accepts the batch. *)
Theorem handleSubmit_sends_valid_batches (rt : Runtime) (urlInput : string)
  (urls : list string) :
  handleSubmit rt urlInput = Mutate urls ->
  urls <> [] /\
  Forall (fun u => u <> "" /\ ~ invalid rt u) urls /\
  ((length urls <= 100)%nat ->
   (forall u, ~ invalid rt u -> z_string_url rt u = true) ->
   input_ok rt urls = true).
Proof.
  unfold handleSubmit.
  set (lines := filter _ (map _ (split_lines (bytes_of urlInput)))).
  destruct (length lines =? 0)%nat eqn:Hlen; [discriminate|].
  apply Nat.eqb_neq in Hlen.
  destruct (filter _ lines) as [|bad rest] eqn:Hbad; simpl; [|discriminate].
  intros H. inversion H; subst urls. clear H.
  assert (Hvalid : Forall (fun u => u <> "" /\ ~ invalid rt u) lines).
  { apply filter_nil_Forall in Hbad. rewrite Forall_forall in *.
    intros u Hin. split.
    - unfold lines in Hin. apply filter_In in Hin. destruct Hin as [_ Hpos].
      intros He. subst u. discriminate.
    - specialize (Hbad u Hin). unfold invalid.
      destruct (URL_href rt u); [discriminate | discriminate]. }
  split; [intros He; rewrite He in Hlen; simpl in Hlen; lia|].
  split; [exact Hvalid|].
  intros Hmax Hagree. unfold input_ok.
  rewrite !andb_true_iff, forallb_forall, !Nat.leb_le.
  split; [split|]; [|lia|assumption].
  intros u Hin. apply Hagree. rewrite Forall_forall in Hvalid.
  now apply Hvalid.
Qed.

(* ----------------------------------------------------------------- *)
(** ** The extractions of a run *)

Lemma extractions_app (l1 l2 : list Event) :
  extractions (l1 ++ l2) = extractions l1 ++ extractions l2.
Proof. unfold extractions. apply flat_map_app. Qed.

Lemma says_ret {A} (P : list string -> Prop) (a : A) : P [] -> says P (ret a).
Proof. intros H w. exists []. simpl. now rewrite app_nil_r. Qed.

Lemma says_throw {A} (P : list string -> Prop) (e : Error) :
  P [] -> says P (@throw A e).
Proof. intros H w. exists []. simpl. now rewrite app_nil_r. Qed.

Lemma says_weaken {A} (P Q : list string -> Prop) (m : M A) :
  (forall l, P l -> Q l) -> says P m -> says Q m.
Proof.
  intros Himp Hm w. destruct (Hm w) as [new [Hev HP]]. exists new. auto.
Qed.

(** A mute computation before one that says [P]. *)
Lemma says_after_mute {A B} (P : list string -> Prop) (m : M A) (k : A -> M B) :
  P [] -> says mute m -> (forall a, says P (k a)) -> says P (bind m k).
Proof.
  intros Hnil Hm Hk w. unfold bind.
  destruct (Hm w) as [new [Hev Hmute]].
  destruct (m w) as [[a|e] w1]; simpl in *.
  - destruct (Hk a w1) as [new' [Hev' HP]].
    exists (new ++ new'). rewrite Hev', Hev, app_assoc. split; [reflexivity|].
    rewrite extractions_app, Hmute. exact HP.
  - exists new. split; [assumption|]. now rewrite Hmute.
Qed.

(** A computation that says [P] before a mute one. *)
Lemma says_before_mute {A B} (P : list string -> Prop) (m : M A) (k : A -> M B) :
  says P m -> (forall a, says mute (k a)) -> says P (bind m k).
Proof.
  intros Hm Hk w. unfold bind.
  destruct (Hm w) as [new [Hev HP]].
  destruct (m w) as [[a|e] w1]; simpl in *.
  - destruct (Hk a w1) as [new' [Hev' Hmute]].
    exists (new ++ new'). rewrite Hev', Hev, app_assoc. split; [reflexivity|].
    rewrite extractions_app, Hmute, app_nil_r. exact HP.
  - now exists new.
Qed.

Lemma says_try_mute {A} (P : list string -> Prop) (body : M A)
  (handler : Error -> M A) :
  says P body -> (forall e, says mute (handler e)) -> says P (try_catch body handler).
Proof.
  intros Hm Hk w. unfold try_catch.
  destruct (Hm w) as [new [Hev HP]].
  destruct (body w) as [[a|e] w1]; simpl in *.
  - now exists new.
  - destruct (Hk e w1) as [new' [Hev' Hmute]].
    exists (new ++ new'). rewrite Hev', Hev, app_assoc. split; [reflexivity|].
    rewrite extractions_app, Hmute, app_nil_r. exact HP.
Qed.

Lemma says_emits {A} (m : M A) :
  emits (fun ev => extractions [ev] = []) m -> says mute m.
Proof.
  intros Hm w. destruct (Hm w) as [_ [new [Hev Hall]]]. exists new.
  split; [assumption|]. unfold mute. clear Hev.
  induction Hall as [|ev l Hev1 _ IH]; [reflexivity|].
  change (ev :: l) with ([ev] ++ l). rewrite extractions_app, Hev1. exact IH.
Qed.

Lemma says_insert (result : raceResults.Insert) : says mute (insertRaceResult result).
Proof.
  intros w. unfold insertRaceResult, bind, getDb, commit, ret.
  destruct (db w); simpl; [eexists [_] | exists []];
    (split; [first [reflexivity | now rewrite app_nil_r] | reflexivity]).
Qed.

Lemma says_update (jobId : string) (u : Updates.t) :
  says mute (updateProcessingJob jobId u).
Proof.
  intros w. unfold updateProcessingJob, bind, getDb, commit, ret.
  destruct (db w); simpl; [eexists [_] | exists []];
    (split; [first [reflexivity | now rewrite app_nil_r] | reflexivity]).
Qed.

Lemma says_create (job : processingJobs.Insert) : says mute (createProcessingJob job).
Proof.
  intros w. unfold createProcessingJob, bind, getDb, new_Date, commit, ret.
  destruct (db w); simpl; [eexists [_] | exists []];
    (split; [first [reflexivity | now rewrite app_nil_r] | reflexivity]).
Qed.

Section Attempts.

Variable rt : Runtime.

Lemma extract_once (n : string) (w : World) :
  exists new,
    events (snd (extractRaceResults rt n w)) = events w ++ new /\
    extractions new = [n].
Proof.
  destruct (detectPlatform rt n) as [p|] eqn:Hp.
  - assert (Hne : detectPlatform rt n <> None) by congruence.
    destruct (open_page rt (sessions w) n) as [page|e] eqn:Ho.
    + rewrite (extract_reachable rt n w Hne Ho). now exists [EvExtract n; EvRender n].
    + rewrite (extract_unreachable rt n w Hne Ho). now exists [EvExtract n; EvRender n].
  - rewrite (extract_unsupported rt n w Hp). now exists [EvExtract n].
Qed.

Lemma says_retry_loop (n : string) (maxRetries initialDelay : Z) :
  forall iterations attempt lastError,
    says (at_most iterations n)
         (retry_loop (extractRaceResults rt n) maxRetries initialDelay
                     iterations attempt lastError).
Proof.
  induction iterations as [|k IH]; intros attempt lastError w.
  - exists []. simpl. rewrite app_nil_r. split; [reflexivity|]. now exists O.
  - cbn [retry_loop]. unfold try_catch.
    destruct (extract_once n w) as [new0 [Hev0 Hx0]].
    destruct (extractRaceResults rt n w) as [[a|e] w1]; simpl in Hev0.
    + exists new0. split; [assumption|]. exists 1%nat. split; [lia | now rewrite Hx0].
    + unfold bind at 1.
      assert (Hwait : exists new1 w2,
                 (if attempt <? maxRetries - 1
                  then setTimeout (initialDelay * 2 ^ attempt) else ret tt) w1
                 = (Ok tt, w2) /\
                 events w2 = events w1 ++ new1 /\ extractions new1 = []).
      { destruct (attempt <? maxRetries - 1).
        - eexists [_]. eexists. split; [reflexivity|]. split; reflexivity.
        - exists [], w1. rewrite app_nil_r. repeat split. }
      destruct Hwait as [new1 [w2 [Hrun [Hev1 Hx1]]]]. rewrite Hrun.
      destruct (IH (attempt + 1) (Some e) w2) as [new2 [Hev2 [j [Hj Hx2]]]].
      exists (new0 ++ new1 ++ new2).
      split; [rewrite Hev2, Hev1, Hev0; now rewrite <- !app_assoc|].
      exists (S j). split; [lia|].
      rewrite !extractions_app, Hx0, Hx1, Hx2. reflexivity.
Qed.

Lemma says_retried (n : string) :
  says (at_most 3 n) (retryWithBackoff (extractRaceResults rt n) 3 1000).
Proof. apply says_retry_loop. Qed.

Lemma at_most_nil (k : nat) (n : string) : at_most k n [].
Proof. exists O. split; [lia | reflexivity]. Qed.

Lemma mute_at_most (k : nat) (n : string) (l : list string) : mute l -> at_most k n l.
Proof. intros H. rewrite H. apply at_most_nil. Qed.

Lemma says_normalizeUrl (url : string) : says mute (normalizeUrl rt url).
Proof. apply says_emits, emits_normalizeUrl. Qed.

Lemma says_bind_ret {A B} (P : list string -> Prop) (a : A) (k : A -> M B) :
  says P (k a) -> says P (bind (ret a) k).
Proof. intros H w. exact (H w). Qed.

Lemma says_round (jobId : string) (userId : Z) (url : string) (c : Counters) :
  says (at_most 3 (href_of rt url)) (process_url rt jobId userId url c).
Proof.
  unfold process_url.
  apply says_before_mute.
  2:{ intros [c1 [|]]; [now apply says_ret|].
      apply says_before_mute; [apply says_update | intros; now apply says_ret]. }
  apply says_try_mute.
  - unfold try_block, normalizeUrl, href_of.
    destruct (URL_href rt url) as [n|].
    2:{ intros w. exists []. simpl. rewrite app_nil_r. split; [reflexivity|].
        apply at_most_nil. }
    apply says_bind_ret.
    apply says_after_mute;
      [apply at_most_nil | apply says_emits, emits_getCachedResult|].
    intros [hit|].
    + eapply says_weaken; [apply mute_at_most|].
      apply says_before_mute; [apply says_update | intros; now apply says_ret].
    + apply says_before_mute; [apply says_retried|]. intros data.
      apply says_after_mute; [reflexivity | apply says_emits, emits_new_Date|].
      intros now.
      apply says_before_mute; [apply says_insert | intros; now apply says_ret].
  - intros e. unfold catch_block.
    apply says_after_mute; [reflexivity | apply says_normalizeUrl|]. intros n.
    apply says_after_mute; [reflexivity | apply says_emits, emits_new_Date|].
    intros now.
    apply says_before_mute; [apply says_insert | intros; now apply says_ret].
Qed.

Lemma attempts_cons (url : string) (urls : list string) (k : nat)
  (counts : list nat) :
  attempts rt (url :: urls) (k :: counts)
  = repeat (href_of rt url) k ++ attempts rt urls counts.
Proof. reflexivity. Qed.

Lemma attempts_zero (urls : list string) :
  attempts rt urls (repeat O (length urls)) = [].
Proof. induction urls as [|u urls IH]; [reflexivity|]. simpl. exact IH. Qed.

Lemma says_loop (jobId : string) (userId : Z) (urls : list string) :
  forall c,
    says (fun l => exists counts,
            length counts = length urls /\ Forall (fun k => (k <= 3)%nat) counts /\
            l = attempts rt urls counts)
         (for_each_url rt jobId userId urls c).
Proof.
  induction urls as [|url rest IH]; intros c w.
  - exists []. simpl. rewrite app_nil_r. split; [reflexivity|].
    exists []. repeat split. constructor.
  - cbn [for_each_url]. unfold bind.
    destruct (says_round jobId userId url c w) as [new [Hev [k [Hk Hx]]]].
    destruct (process_url rt jobId userId url c w) as [[c1|e] w1]; simpl in Hev.
    + destruct (IH c1 w1) as [new' [Hev' [counts [Hlen [Hall Hx']]]]].
      exists (new ++ new'). rewrite Hev', Hev, app_assoc. split; [reflexivity|].
      exists (k :: counts). split; [simpl; now rewrite Hlen|].
      split; [now constructor|].
      rewrite extractions_app, Hx, Hx'. reflexivity.
    + exists new. split; [assumption|].
      exists (k :: repeat O (length rest)).
      split; [simpl; now rewrite repeat_length|].
      split.
      { constructor; [assumption|]. apply Forall_forall. intros x Hin.
        apply repeat_spec in Hin. lia. }
      rewrite attempts_cons, attempts_zero, app_nil_r. exact Hx.
Qed.

(** X24.  A run extracts the URLs of the batch in the order they were
    submitted, each in its normalized form and each at most three
    times: the extractions of the run are those of the first URL, then
    those of the second, and so on. *)
Theorem job_attempts_in_order (urls : list string) (userId : Z) (jobId : string)
  (w : World) :
  exists counts,
    length counts = length urls /\
    Forall (fun k => (k <= 3)%nat) counts /\
    extractions (added w (snd (job_run rt urls userId jobId w)))
    = attempts rt urls counts.
Proof.
  assert (Hsays : says (fun l => exists counts,
                          length counts = length urls /\
                          Forall (fun k => (k <= 3)%nat) counts /\
                          l = attempts rt urls counts)
                       (job_run rt urls userId jobId)).
  { unfold job_run, processUrls.
    assert (Hnil : exists counts,
               length counts = length urls /\
               Forall (fun k => (k <= 3)%nat) counts /\
               [] = attempts rt urls counts).
    { exists (repeat O (length urls)). split; [apply repeat_length|].
      split; [|now rewrite attempts_zero].
      apply Forall_forall. intros x Hin. apply repeat_spec in Hin. lia. }
    apply says_after_mute; [exact Hnil | apply says_create|]. intros _.
    apply says_after_mute; [exact Hnil | apply says_update|]. intros _.
    apply says_before_mute; [apply says_loop|]. intros _.
    apply says_after_mute; [reflexivity | apply says_emits, emits_new_Date|].
    intros now. apply says_update. }
  destruct (Hsays w) as [new [Hev [counts [Hlen [Hall Hx]]]]].
  exists counts. rewrite (@added_app _ _ new Hev). auto.
Qed.

End Attempts.

(** The sample batch: one extraction of the supported URL, three of the
    unsupported one. *)
Example job_attempts_sample :
  extractions (added Sample.fresh
                 (snd (job_run Sample.rt Sample.batch 7 "job-1" Sample.fresh)))
  = attempts Sample.rt Sample.batch [1%nat; 3%nat].
Proof. vm_compute. reflexivity. Qed.

(* ----------------------------------------------------------------- *)
(** ** Concrete runs *)






(** A round for a URL cached a moment ago. *)
Lemma cached_round_opens_no_page_witness :
  let w := Sample.with_cache 7 0 in
  let w' := snd (process_url Sample.rt "job-1" 7 Sample.url zero w) in
  fst (process_url Sample.rt "job-1" 7 Sample.url zero w)
  = Ok (one_more_success zero) /\
  sessions w' = sessions w /\ rows_of w' = rows_of w.
Proof.
  intros w w'.
  destruct (@cached_round_opens_no_page Sample.rt "job-1" 7 Sample.url Sample.url
              zero w (Sample.cached 7 0)) as [H1 [H2 [_ [H4 _]]]].
  - vm_compute. reflexivity.
  - left. reflexivity.
  - unfold eligible. simpl. repeat split.
  - split; [exact H1|]. split; [exact H2 | exact H4].
Defined.


(** A refresh of a URL that has a valid cache entry. *)
Lemma refreshResult_always_records_witness :
  let w := Sample.with_cache 7 0 in
  let w' := snd (Router.refreshResult Sample.rt Sample.url 7 w) in
  exists row rest,
    rows_of w' = [Sample.cached 7 0; row] /\
    added w w' = EvExtract Sample.url :: rest.
Proof.
  intros w w'.
  destruct (@refreshResult_always_records Sample.rt Sample.url Sample.url 7 w
              {| race_results := [Sample.cached 7 0]; processing_jobs := [] |})
    as [row [rest [Hrows [_ [_ [Hev _]]]]]].
  - vm_compute. reflexivity.
  - vm_compute. reflexivity.
  - reflexivity.
  - exists row, rest. split; [exact Hrows | exact Hev].
Defined.


(** A submission of one URL when [getDb()] gives [null]. *)
Lemma without_database_nothing_is_kept_witness :
  let run := submit_and_process Sample.rt [Sample.url] 7 "job-1" (Lite.start None) in
  fst run = Ok {| submitted_jobId := "job-1";
                  submitted_status := processingJobs.queued;
                  submitted_totalUrls := 1 |}
  /\ getJobStatus "job-1" 7 (snd run) = (Throw (mkError "Job not found"), snd run).
Proof.
  intros run.
  destruct (@without_database_nothing_is_kept Sample.rt [Sample.url] 7 "job-1"
              (Lite.start None) eq_refl) as [H1 [_ [_ H4]]].
  - vm_compute. reflexivity.
  - split; [exact H1 | exact H4].
Defined.

(** One URL between spaces, followed by two empty lines. *)
Lemma handleSubmit_sends_valid_batches_witness :
  let urlInput :=
    (" https://sportstimingsolutions.in/x " ++ String "010" (String "010" ""))%string in
  handleSubmit Sample.rt urlInput = Mutate [Sample.url] /\
  Forall (fun u => u <> "" /\ ~ invalid Sample.rt u) [Sample.url].
Proof.
  intros urlInput.
  assert (H : handleSubmit Sample.rt urlInput = Mutate [Sample.url])
    by (vm_compute; reflexivity).
  split; [exact H|].
  exact (proj1 (proj2 (@handleSubmit_sends_valid_batches _ _ _ H))).
Defined.

(** The first sign-in of the owner of the application. *)
Lemma upsertUser_then_lookup_witness :
  let user := {| InsertUser.openId := "u1";
                 InsertUser.name := Some (Some "Ann");
                 InsertUser.email := None;
                 InsertUser.loginMethod := None;
                 InsertUser.role := None;
                 InsertUser.lastSignedIn := None |} in
  exists rows' r,
    upsertUser "u1" 10 1 user (Some []) = Ok (Some rows') /\
    getUserByOpenId "u1" (Some rows') = Some r /\
    users.name r = Some "Ann" /\ users.role r = users.admin.
Proof.
  intros user.
  destruct (@upsertUser_then_lookup "u1" 10 1 user [])
    as [rows' [r [Hrun [Hget [_ [Hname [_ [_ [_ [_ [Hrole _]]]]]]]]]]].
  - discriminate.
  - exists rows', r. split; [exact Hrun|]. split; [exact Hget|].
    split; [now apply Hname | now apply Hrole].
Defined.

(** A second user signs in. *)
Lemma upsertUser_keeps_the_rest_witness :
  let ann := {| users.id := 1; users.openId := "u1"; users.name := Some "Ann";
                users.email := None; users.loginMethod := None;
                users.role := users.user; users.createdAt := 0;
                users.updatedAt := 0; users.lastSignedIn := 0 |} in
  let user := {| InsertUser.openId := "u2";
                 InsertUser.name := None;
                 InsertUser.email := None;
                 InsertUser.loginMethod := None;
                 InsertUser.role := None;
                 InsertUser.lastSignedIn := None |} in
  exists rows',
    upsertUser "owner" 10 2 user (Some [ann]) = Ok (Some rows') /\
    getUserByOpenId "u1" (Some rows') = Some ann.
Proof.
  intros ann user.
  destruct (@upsertUser_keeps_the_rest "owner" 10 2 user [ann])
    as [rows' [Hrun [Hother _]]].
  - discriminate.
  - exists rows'. split; [exact Hrun|]. rewrite Hother; [reflexivity | discriminate].
Defined.
